(** * AWS icon toolkit: rename.js, svg-title.js and restructure.js

    A shallow embedding of the three scripts that clean the icon tree,
    and the properties of them that the specification states.

    - JavaScript strings are sequences of code units; here a code unit is
      an [ascii] (the Latin-1 range), which covers every character the
      regular expressions of the scripts mention.
    - Paths are POSIX paths ([path.sep] is "/"); [path.extname] and
      [path.basename] follow the loops of node's [lib/path.js].
    - A directory is the list of its entries as [fs.readdir] returns them;
      an entry name holds no "/" and is neither "." nor "..".
    - Regular expressions are rendered by functions that do what the
      expression does; every such function quotes its expression.
    - JavaScript runs the callbacks of [Promise.all] on one thread and the
      counters are updated between two [await]s, so no update is lost.
      The calls of [mergeCat] are taken one after the other, in the order
      of the array.  The workers of a category have their copies in
      flight together: the order in which the system completes them is
      not decided by the script, and is read from the state.
    - What the file system can refuse for a reason the scripts do not
      decide (a write, a copy whose source cannot be read) is a parameter
      of the model. *)

From Stdlib Require Import Ascii String List Bool Arith Lia ZArith.
From stdpp Require Import gmap strings list fin_maps.

Import ListNotations.
Open Scope bool_scope.
Open Scope list_scope.

(** ** Strings *)

Definition lit (s : string) : list ascii := list_ascii_of_string s.

Definition code (c : ascii) : nat := nat_of_ascii c.

Definition between (lo hi : nat) (c : ascii) : bool :=
  (lo <=? code c) && (code c <=? hi).

(** [a-z], [A-Z], [0-9] *)
Definition is_lower (c : ascii) : bool := between 97 122 c.
Definition is_upper (c : ascii) : bool := between 65 90 c.
Definition is_digit (c : ascii) : bool := between 48 57 c.

(** The character class [-_] of rename.js and svg-title.js. *)
Definition is_sep (c : ascii) : bool :=
  Ascii.eqb c "-" || Ascii.eqb c "_".

Definition is_underscore (c : ascii) : bool := Ascii.eqb c "_".

(** Canonicalisation of a code unit under the [i] flag (no [u] flag): the
    upper-case form, except that a unit outside ASCII is never mapped into
    ASCII.  Only the comparison against ASCII pattern characters matters
    here, so units outside a-z are left alone. *)
Definition canon (c : ascii) : ascii :=
  if is_lower c then ascii_of_nat (code c - 32) else c.

(** A pattern character [p] matched against [c] under the [i] flag. *)
Definition ci_eq (p c : ascii) : bool := Ascii.eqb (canon c) (canon p).

(** [String.prototype.toLowerCase] on Latin-1 code units: A-Z, and the
    accented capitals 0xC0-0xDE except the multiplication sign 0xD7. *)
Definition lower_char (c : ascii) : ascii :=
  if is_upper c || (between 192 222 c && negb (code c =? 215))
  then ascii_of_nat (code c + 32) else c.

Definition toLowerCase (s : list ascii) : list ascii := map lower_char s.

Definition str_eqb (a b : list ascii) : bool :=
  if decide (a = b) then true else false.

Fixpoint drop_while (f : ascii -> bool) (s : list ascii) : list ascii :=
  match s with
  | [] => []
  | c :: t => if f c then drop_while f t else s
  end.

Fixpoint take_while (f : ascii -> bool) (s : list ascii) : list ascii :=
  match s with
  | [] => []
  | c :: t => if f c then c :: take_while f t else []
  end.

(** [s.startsWith(p)] *)
Fixpoint startsWith (p s : list ascii) : bool :=
  match p, s with
  | [], _ => true
  | a :: p', c :: s' => Ascii.eqb a c && startsWith p' s'
  | _ :: _, [] => false
  end.

(** [s.endsWith(p)] *)
Definition endsWith (p s : list ascii) : bool := startsWith (rev p) (rev s).

(** [s.includes(p)]: [p] occurs somewhere in [s]. *)
Fixpoint includes (s p : list ascii) : bool :=
  startsWith p s ||
  match s with
  | [] => false
  | _ :: t => includes t p
  end.

(** [s.slice(a, b)] for [0 <= a] and [0 <= b]. *)
Definition slice (a b : nat) (s : list ascii) : list ascii :=
  firstn (b - a) (skipn a s).

(** ** Fixed-width regular expressions

    Every alternative of the patterns below is a sequence of one-character
    tests; [match_seq] matches one at the head of the input and returns the
    rest of the input. *)

Definition pat := list (ascii -> bool).

Definition ci (s : string) : pat := map ci_eq (lit s).

Fixpoint match_seq (p : pat) (s : list ascii) : option (list ascii) :=
  match p with
  | [] => Some s
  | f :: p' =>
      match s with
      | c :: s' => if f c then match_seq p' s' else None
      | [] => None
      end
  end.

(** Alternation: the first alternative that matches wins. *)
Fixpoint match_alt (ps : list pat) (s : list ascii) : option (list ascii) :=
  match ps with
  | [] => None
  | p :: ps' =>
      match match_seq p s with
      | Some r => Some r
      | None => match_alt ps' s
      end
  end.

(** Width of the first alternative that matches at the head of [s]. *)
Fixpoint match_width (ps : list pat) (s : list ascii) : option nat :=
  match ps with
  | [] => None
  | p :: ps' =>
      match match_seq p s with
      | Some _ => Some (length p)
      | None => match_width ps' s
      end
  end.

(** [s.replace(/^(?:alt1|alt2|...)/, "")] *)
Definition strip_head (ps : list pat) (s : list ascii) : list ascii :=
  match match_alt ps s with
  | Some r => r
  | None => s
  end.

(** [s.replace(/(?:alt1|alt2|...)$/, "")]: the alternatives have one width
    here, so at most one position can match. *)
Definition strip_tail (ps : list pat) (s : list ascii) : list ascii :=
  match match_alt (map (@rev _) ps) (rev s) with
  | Some r => rev r
  | None => s
  end.

(** [s.replace(/alt1|alt2|.../g, "")]: scan from the left; at a match drop
    the matched units and go on after them.  [skip] counts the units of the
    current match that are still to be dropped. *)
Fixpoint delete_all (ps : list pat) (skip : nat) (s : list ascii)
    : list ascii :=
  match s with
  | [] => []
  | c :: t =>
      match skip with
      | S k => delete_all ps k t
      | O =>
          match match_width ps s with
          | Some (S k) => delete_all ps k t
          | _ => c :: delete_all ps 0 t
          end
      end
  end.

(** [s.replace(/[cls]{2,}/g, r)]: a run of two or more units of the class
    becomes the single unit [r]; a lone unit of the class stays.  [inrun]
    says that the current run has already been replaced. *)
Fixpoint collapse_runs (cls : ascii -> bool) (r : ascii) (inrun : bool)
    (s : list ascii) : list ascii :=
  match s with
  | [] => []
  | c :: t =>
      if cls c then
        if inrun then collapse_runs cls r true t
        else
          match t with
          | d :: _ =>
              if cls d then r :: collapse_runs cls r true t
              else c :: collapse_runs cls r false t
          | [] => [c]
          end
      else c :: collapse_runs cls r false t
  end.

(** [s.replace(/^[-_]+|[-_]+$/g, "")] *)
Definition trim_seps (s : list ascii) : list ascii :=
  rev (drop_while is_sep (rev (drop_while is_sep s))).

(** ** node:path (POSIX) *)

Definition is_slash (c : ascii) : bool := Ascii.eqb c "/".
Definition is_dot (c : ascii) : bool := Ascii.eqb c ".".

(** State of the backwards scan of [path.extname]. *)
Record ext_state := {
  startDot : option nat;
  startPart : nat;
  ext_end : option nat;
  matchedSlash : bool;
  preDotState : Z;
  stopped : bool
}.

Definition ext_init : ext_state :=
  {| startDot := None; startPart := 0; ext_end := None;
     matchedSlash := true; preDotState := 0%Z; stopped := false |}.

(** One iteration of the loop [for (i = path.length - 1; i >= 0; --i)] at
    index [i] holding the unit [c]. *)
Definition ext_step (i : nat) (c : ascii) (st : ext_state) : ext_state :=
  if stopped st then st
  else if is_slash c then
    if negb (matchedSlash st)
    then {| startDot := startDot st; startPart := i + 1; ext_end := ext_end st;
            matchedSlash := matchedSlash st; preDotState := preDotState st;
            stopped := true |}
    else st
  else
    let e := match ext_end st with None => Some (i + 1) | e => e end in
    let ms := match ext_end st with None => false | _ => matchedSlash st end in
    if is_dot c then
      match startDot st with
      | None =>
          {| startDot := Some i; startPart := startPart st; ext_end := e;
             matchedSlash := ms; preDotState := preDotState st;
             stopped := false |}
      | Some _ =>
          {| startDot := startDot st; startPart := startPart st; ext_end := e;
             matchedSlash := ms; preDotState := 1%Z; stopped := false |}
      end
    else
      match startDot st with
      | Some _ =>
          {| startDot := startDot st; startPart := startPart st; ext_end := e;
             matchedSlash := ms; preDotState := (-1)%Z; stopped := false |}
      | None =>
          {| startDot := None; startPart := startPart st; ext_end := e;
             matchedSlash := ms; preDotState := preDotState st;
             stopped := false |}
      end.

(** The loop over the units at indices [length r - 1 .. 0], given as the
    reversed prefix [r]. *)
Fixpoint ext_loop (r : list ascii) (st : ext_state) : ext_state :=
  match r with
  | [] => st
  | c :: r' => ext_loop r' (ext_step (length r') c st)
  end.

(** [path.extname(p)] *)
Definition extname (p : list ascii) : list ascii :=
  let st := ext_loop (rev p) ext_init in
  match startDot st, ext_end st with
  | Some d, Some e =>
      if (preDotState st =? 0)%Z
         || ((preDotState st =? 1)%Z && (d =? e - 1) && (d =? startPart st + 1))
      then []
      else slice d e p
  | _, _ => []
  end.

(** State of the backwards scan of [path.basename]. *)
Record base_state := {
  b_start : nat;
  b_end : option nat;
  b_matchedSlash : bool;
  b_extIdx : option nat;
  b_firstNonSlashEnd : option nat;
  b_stopped : bool
}.

(** One iteration of the loop of [path.basename(p)] (no suffix). *)
Definition base_step (i : nat) (c : ascii) (st : base_state) : base_state :=
  if b_stopped st then st
  else if is_slash c then
    if negb (b_matchedSlash st)
    then {| b_start := i + 1; b_end := b_end st;
            b_matchedSlash := b_matchedSlash st; b_extIdx := b_extIdx st;
            b_firstNonSlashEnd := b_firstNonSlashEnd st; b_stopped := true |}
    else st
  else
    match b_end st with
    | None =>
        {| b_start := b_start st; b_end := Some (i + 1);
           b_matchedSlash := false; b_extIdx := b_extIdx st;
           b_firstNonSlashEnd := b_firstNonSlashEnd st; b_stopped := false |}
    | Some _ => st
    end.

Fixpoint base_loop (r : list ascii) (st : base_state) : base_state :=
  match r with
  | [] => st
  | c :: r' => base_loop r' (base_step (length r') c st)
  end.

Definition base_init (extIdx : option nat) : base_state :=
  {| b_start := 0; b_end := None; b_matchedSlash := true;
     b_extIdx := extIdx; b_firstNonSlashEnd := None; b_stopped := false |}.

(** One iteration of the loop of [path.basename(p, suffix)]; [b_extIdx] is
    [None] for the value -1 of [extIdx]. *)
Definition base_suffix_step (suffix : list ascii) (i : nat) (c : ascii)
    (st : base_state) : base_state :=
  if b_stopped st then st
  else if is_slash c then
    if negb (b_matchedSlash st)
    then {| b_start := i + 1; b_end := b_end st;
            b_matchedSlash := b_matchedSlash st; b_extIdx := b_extIdx st;
            b_firstNonSlashEnd := b_firstNonSlashEnd st; b_stopped := true |}
    else st
  else
    let fn := match b_firstNonSlashEnd st with
              | None => Some (i + 1) | f => f end in
    let ms := match b_firstNonSlashEnd st with
              | None => false | _ => b_matchedSlash st end in
    match b_extIdx st with
    | Some k =>
        if match nth_error suffix k with
           | Some x => Ascii.eqb c x
           | None => false
           end
        then
          match k with
          | O => {| b_start := b_start st; b_end := Some i;
                    b_matchedSlash := ms; b_extIdx := None;
                    b_firstNonSlashEnd := fn; b_stopped := false |}
          | S k' => {| b_start := b_start st; b_end := b_end st;
                       b_matchedSlash := ms; b_extIdx := Some k';
                       b_firstNonSlashEnd := fn; b_stopped := false |}
          end
        else {| b_start := b_start st; b_end := fn;
                b_matchedSlash := ms; b_extIdx := None;
                b_firstNonSlashEnd := fn; b_stopped := false |}
    | None =>
        {| b_start := b_start st; b_end := b_end st;
           b_matchedSlash := ms; b_extIdx := None;
           b_firstNonSlashEnd := fn; b_stopped := false |}
    end.

Fixpoint base_suffix_loop (suffix r : list ascii) (st : base_state)
    : base_state :=
  match r with
  | [] => st
  | c :: r' =>
      base_suffix_loop suffix r' (base_suffix_step suffix (length r') c st)
  end.

(** [path.basename(p)] *)
Definition basename (p : list ascii) : list ascii :=
  let st := base_loop (rev p) (base_init None) in
  match b_end st with
  | None => []
  | Some e => slice (b_start st) e p
  end.

(** [path.basename(p, suffix)] *)
Definition basename_ext (p suffix : list ascii) : list ascii :=
  if (0 <? length suffix) && (length suffix <=? length p) then
    if str_eqb suffix p then []
    else
      let st := base_suffix_loop suffix (rev p)
                  (base_init (Some (length suffix - 1))) in
      let e :=
        match b_end st with
        | Some e =>
            if e =? b_start st
            then match b_firstNonSlashEnd st with Some f => f | None => 0 end
            else e
        | None => length p
        end in
      slice (b_start st) e p
  else basename p.

(** ** rename.js *)

(** [/^(?:Arch[-_]Category[-_]|Arch[-_]|Res[-_])/i] *)
Definition name_prefixes : list pat :=
  [ ci "Arch" ++ [is_sep] ++ ci "Category" ++ [is_sep];
    ci "Arch" ++ [is_sep];
    ci "Res" ++ [is_sep] ].

(** [/Amazon|AWS/gi] *)
Definition brands : list pat := [ ci "Amazon"; ci "AWS" ].

(** [/_(?:48|32)$/i] *)
Definition name_sizes : list pat := [ ci "_48"; ci "_32" ].

(** The chain of replacements on [base]: 1 prefixes, 2 brands, 3 sizes,
    4 dedupe, 5 trim. *)
Definition clean_base (base : list ascii) : list ascii :=
  trim_seps
    (collapse_runs is_sep "_" false
      (strip_tail name_sizes
        (delete_all brands 0
          (strip_head name_prefixes base)))).

(** [ext] and [base] as [cleanName] sets them before the replacements. *)
Definition name_ext (name : list ascii) (isFile : bool) : list ascii :=
  if isFile then extname name else [].

Definition name_base (name : list ascii) (isFile : bool) : list ascii :=
  if isFile then basename_ext name (name_ext name isFile) else name.

(** [cleanName(name, isFile)]; the guard [if (!base) base = name] puts the
    whole name back when nothing is left of the base. *)
Definition cleanName (name : list ascii) (isFile : bool) : list ascii :=
  let ext := name_ext name isFile in
  let base := clean_base (name_base name isFile) in
  let base := match base with [] => name | _ => base end in
  if isFile then base ++ ext else base.

(** Some position of [s] matches one of the alternatives. *)
Fixpoint has_match (ps : list pat) (s : list ascii) : bool :=
  match match_alt ps s with
  | Some _ => true
  | None =>
      match s with
      | [] => false
      | _ :: t => has_match ps t
      end
  end.

(** The name contains a brand token, "Amazon" or "AWS" in any case. *)
Definition has_brand (s : list ascii) : bool := has_match brands s.

(** ** svg-title.js *)

(** [s.split(sep)] for a one-unit separator. *)
Fixpoint split_on (sep : ascii -> bool) (s : list ascii) : list (list ascii) :=
  match s with
  | [] => [[]]
  | c :: t =>
      if sep c then [] :: split_on sep t
      else
        match split_on sep t with
        | h :: r => (c :: h) :: r
        | [] => [[c]]
        end
  end.

(** [if (s.includes("/")) s = s.split("/").pop()] *)
Definition last_segment (raw : list ascii) : list ascii :=
  if includes raw (lit "/") then List.last (split_on is_slash raw) [] else raw.

(** [/^(?:Arch_|Res_)/i] *)
Definition title_prefixes : list pat := [ ci "Arch_"; ci "Res_" ].

(** [s.replace(/_\d+$/i, "")]: the last underscore, when only digits (one
    at least) follow it up to the end. *)
Definition strip_num_suffix (s : list ascii) : list ascii :=
  let r := rev s in
  match take_while is_digit r, drop_while is_digit r with
  | _ :: _, c :: rest => if is_underscore c then rev rest else s
  | _, _ => s
  end.

(** [cleanTitle(raw)]; [return s || raw]. *)
Definition cleanTitle (raw : list ascii) : list ascii :=
  let s0 := last_segment raw in
  let s1 := strip_head title_prefixes s0 in
  let s2 := strip_num_suffix s1 in
  let s3 := collapse_runs is_underscore "_" false s2 in
  let s4 := trim_seps s3 in
  match s4 with [] => raw | _ => s4 end.

(** Whitespace and line terminators removed by [String.prototype.trim]
    (those of the Latin-1 range). *)
Definition is_ws (c : ascii) : bool :=
  ((9 <=? code c) && (code c <=? 13)) || (code c =? 32) || (code c =? 160).

(** [s.trim()] *)
Definition js_trim (s : list ascii) : list ascii :=
  rev (drop_while is_ws (rev (drop_while is_ws s))).

(** Leftmost match of a fixed-width pattern: the text before it and the
    text after it. *)
Fixpoint find_seq (p : pat) (s : list ascii)
    : option (list ascii * list ascii) :=
  match match_seq p s with
  | Some r => Some ([], r)
  | None =>
      match s with
      | [] => None
      | c :: t =>
          match find_seq p t with
          | Some (b, a) => Some (c :: b, a)
          | None => None
          end
      end
  end.

(** What [data.match(/<title>([\s\S]*?)<\/title>/i)] finds. *)
Record title_match := {
  tm_before : list ascii;   (* text before the match *)
  tm_matched : list ascii;  (* m[0] *)
  tm_inner : list ascii;    (* m[1] *)
  tm_after : list ascii     (* text after the match *)
}.

(** The leftmost opening tag that has a closing tag after it opens the
    match, and the lazy group stops at the first closing tag.  When the
    first opening tag has no closing tag after it, no later one has. *)
Definition match_title (data : list ascii) : option title_match :=
  match find_seq (ci "<title>") data with
  | Some (pre, rest) =>
      match find_seq (ci "</title>") rest with
      | Some (inner, post) =>
          Some {| tm_before := pre;
                  tm_matched :=
                    slice (length pre) (length data - length post) data;
                  tm_inner := inner;
                  tm_after := post |}
      | None => None
      end
  | None => None
  end.

(** The replacement text of [String.prototype.replace] (GetSubstitution)
    for a pattern with one capture group and no named group. *)
Fixpoint substitution (m : title_match) (tpl : list ascii) : list ascii :=
  match tpl with
  | [] => []
  | c :: t =>
      if Ascii.eqb c "$" then
        match t with
        | [] => [c]
        | d :: t' =>
            if Ascii.eqb d "$" then "$"%char :: substitution m t'
            else if Ascii.eqb d "&" then tm_matched m ++ substitution m t'
            else if Ascii.eqb d "`" then tm_before m ++ substitution m t'
            else if Ascii.eqb d "'" then tm_after m ++ substitution m t'
            else if is_digit d then
              match t' with
              | d2 :: t'' =>
                  if is_digit d2 && Ascii.eqb d "0" then
                    if Ascii.eqb d2 "1"
                    then tm_inner m ++ substitution m t''       (* $01 *)
                    else if Ascii.eqb d2 "0"
                    then c :: d :: d2 :: substitution m t''     (* $00 *)
                    else c :: d :: substitution m t'            (* $0 *)
                  else if Ascii.eqb d "1"
                  then tm_inner m ++ substitution m t'          (* $1 *)
                  else c :: d :: substitution m t'
              | [] =>
                  if Ascii.eqb d "1" then tm_inner m else [c; d]
              end
            else c :: substitution m t
        end
      else c :: substitution m t
  end.

(** [data.replace(rx, tpl)] when [rx] matched as [m]. *)
Definition replace_title (m : title_match) (tpl : list ascii) : list ascii :=
  tm_before m ++ substitution m tpl ++ tm_after m.

(** What one call of [processSvg] did. *)
Inductive svg_outcome :=
| NoTitle                                        (* no title tag *)
| AlreadyClean                                   (* original === cleaned *)
| DryLogged (original cleaned : list ascii)      (* DRY line, no write *)
| Updated (original cleaned : list ascii).       (* fs.writeFile *)

(** [processSvg(fp)] on a store of file contents; [None] when the call
    rejects: [fs.readFile] does for a file that is not there, [fs.writeFile]
    for a file that cannot be written, and neither is inside a [try].
    [writable] tells the files [fs.writeFile] accepts. *)
Definition processSvg (dryRun : bool) (writable : list ascii -> bool)
    (fp : list ascii) (fs : gmap (list ascii) (list ascii))
    : option (gmap (list ascii) (list ascii) * svg_outcome) :=
  match fs !! fp with
  | None => None
  | Some data =>
      match match_title data with
      | None => Some (fs, NoTitle)
      | Some m =>
          let original := js_trim (tm_inner m) in
          let cleaned := cleanTitle original in
          if str_eqb original cleaned then Some (fs, AlreadyClean)
          else
            let updated :=
              replace_title m (lit "<title>" ++ cleaned ++ lit "</title>") in
            if dryRun then Some (fs, DryLogged original cleaned)
            else if writable fp
            then Some (<[fp := updated]> fs, Updated original cleaned)
            else None
      end
  end.

Definition rewritten (o : svg_outcome) : bool :=
  match o with
  | Updated _ _ => true
  | _ => false
  end.

(** ** Directory trees *)

#[local] Set Warnings "-register-all".

(** What [fs.readdir(dir, { withFileTypes: true })] lists, recursively: an
    entry is a directory with its own entries, or anything else. *)
Inductive node :=
| File (name : list ascii)
| Dir (name : list ascii) (children : list node).

Definition node_name (n : node) : list ascii :=
  match n with
  | File nm => nm
  | Dir nm _ => nm
  end.

Definition isDirectory (n : node) : bool :=
  match n with
  | File _ => false
  | Dir _ _ => true
  end.

Definition set_name (nm : list ascii) (n : node) : node :=
  match n with
  | File _ => File nm
  | Dir _ ch => Dir nm ch
  end.

(** Entry names are distinct within every directory. *)
Fixpoint wf_node (n : node) : bool :=
  match n with
  | File _ => true
  | Dir _ ch =>
      bool_decide (NoDup (map node_name ch)) && forallb wf_node ch
  end.

Definition wf_listing (ch : list node) : bool :=
  bool_decide (NoDup (map node_name ch)) && forallb wf_node ch.

(** ** rename.js: the walk *)

(** One call of [renameSafe(parent, oldName, newName)].  [ev_parent] is the
    directory of the entry, as the list of the names that lead to it from
    the root of the walk. *)
Inductive rename_result :=
| Unchanged       (* src === dst *)
| DryRun          (* DRY line *)
| DestExists      (* warning, skipped *)
| Renamed.        (* fs.rename *)

Record rename_event := {
  ev_parent : list (list ascii);
  ev_old : list ascii;
  ev_new : list ascii;
  ev_result : rename_result
}.

(** [fsc.existsSync(path.join(parent, newName))] for the names currently in
    [parent]; "." and ".." resolve to directories that exist.  Every name
    the directory lists is taken to exist: [existsSync] follows links, and
    a dangling symbolic link that stands at the new name is outside this
    model. *)
Definition dst_exists (names : list (list ascii)) (new : list ascii) : bool :=
  str_eqb new (lit ".") || str_eqb new (lit "..")
  || existsb (str_eqb new) names.

Definition renameSafe (dryRun : bool) (names : list (list ascii))
    (oldName newName : list ascii) : rename_result :=
  if str_eqb oldName newName then Unchanged
  else if dryRun then DryRun
  else if dst_exists names newName then DestExists
  else Renamed.

Section Walk.

Variable dryRun : bool.
Variable recurse : list (list ascii) -> node -> node * list rename_event.

(** The loop [for (const entry of entries)] of [processDir(dir)]: [done]
    holds the entries already visited, as they are now, [todo] those still
    to visit.  The result is the directory after the loop and the calls of
    [renameSafe] in order. *)
Fixpoint process_entries (dir : list (list ascii)) (done todo : list node)
    : list node * list rename_event :=
  match todo with
  | [] => (done, [])
  | entry :: rest =>
      let '(entry1, ev1) := recurse (dir ++ [node_name entry]) entry in
      let old := node_name entry in
      let new := cleanName old (negb (isDirectory entry)) in
      let r := renameSafe dryRun
                 (map node_name (done ++ entry1 :: rest)) old new in
      let entry2 := match r with
                    | Renamed => set_name new entry1
                    | _ => entry1
                    end in
      let '(out, ev3) := process_entries dir (done ++ [entry2]) rest in
      (out,
       ev1 ++ {| ev_parent := dir; ev_old := old; ev_new := new;
                 ev_result := r |} :: ev3)
  end.

End Walk.

(** [await processDir(full)] for a directory entry at [full]: its contents
    after the call, and the calls of [renameSafe] made. *)
Fixpoint process_node (dryRun : bool) (full : list (list ascii)) (n : node)
    : node * list rename_event :=
  match n with
  | File nm => (File nm, [])
  | Dir nm ch =>
      let '(ch', ev) :=
        process_entries dryRun (process_node dryRun) full [] ch in
      (Dir nm ch', ev)
  end.

(** [processDir(dir)] on the entries of [dir]. *)
Definition processDir (dryRun : bool) (dir : list (list ascii))
    (entries : list node) : list node * list rename_event :=
  process_entries dryRun (process_node dryRun) dir [] entries.

(** The entry a call of [renameSafe] is about. *)
Definition ev_path (e : rename_event) : list (list ascii) :=
  ev_parent e ++ [ev_old e].

(** The paths of all entries below [dir]. *)
Fixpoint entry_paths (dir : list (list ascii)) (n : node)
    : list (list (list ascii)) :=
  match n with
  | File nm => []
  | Dir nm ch =>
      flat_map (fun x => (dir ++ [node_name x])
                           :: entry_paths (dir ++ [node_name x]) x) ch
  end.

Definition listing_paths (dir : list (list ascii)) (ch : list node)
    : list (list (list ascii)) :=
  flat_map (fun x => (dir ++ [node_name x])
                       :: entry_paths (dir ++ [node_name x]) x) ch.

(** ** restructure.js *)

Record config := {
  dryRun : bool;
  size : list ascii;
  formats : list (list ascii);
  concurrency : nat;          (* number of workers [Array.from] creates *)
  allowUnmatched : bool;
  dest : list ascii
}.

(** [path.join(dir, name)] for a normalised [dir] and an entry name. *)
Definition path_join (dir name : list ascii) : list ascii :=
  if str_eqb dir (lit "/") then dir ++ name else dir ++ lit "/" ++ name.

(** [s.toLowerCase().replace(/[^a-z0-9]/g, '')] *)
Definition slug (s : list ascii) : list ascii :=
  List.filter (fun c => is_lower c || is_digit c) (toLowerCase s).

Definition str_in (x : list ascii) (l : list (list ascii)) : bool :=
  existsb (str_eqb x) l.

(** [matchesSize(fp)] *)
Definition matchesSize (cfg : config) (fp : list ascii) : bool :=
  let ext := toLowerCase (skipn 1 (extname fp)) in
  if negb (str_in ext (formats cfg)) then false
  else
    let base := toLowerCase (basename fp) in
    if endsWith (lit "_" ++ size cfg ++ lit "." ++ ext) base then true
    else str_in (size cfg) (split_on is_slash fp).

(** [walk(dir)]: the paths of everything below [dir] that is not a
    directory, depth first in listing order. *)
Fixpoint walk_node (dir : list ascii) (n : node) : list (list ascii) :=
  match n with
  | File nm => [path_join dir nm]
  | Dir nm ch => flat_map (walk_node (path_join dir nm)) ch
  end.

Definition walk (dir : list ascii) (entries : list node)
    : list (list ascii) :=
  flat_map (walk_node dir) entries.

(** The entries of the directory [name] of a listing; [None] where
    [fs.readdir] would reject (no such entry, or not a directory). *)
Fixpoint find_dir (name : list ascii) (entries : list node)
    : option (list node) :=
  match entries with
  | [] => None
  | File nm :: rest => if str_eqb nm name then None else find_dir name rest
  | Dir nm ch :: rest =>
      if str_eqb nm name then Some ch else find_dir name rest
  end.

(** A JavaScript [Map] with string keys: insertion order is kept, and
    setting a key that is present replaces its value in place. *)
Fixpoint map_set (k v : list ascii) (m : list (list ascii * list ascii))
    : list (list ascii * list ascii) :=
  match m with
  | [] => [(k, v)]
  | (k', v') :: r =>
      if str_eqb k' k then (k, v) :: r else (k', v') :: map_set k v r
  end.

Fixpoint map_get (k : list ascii) (m : list (list ascii * list ascii))
    : option (list ascii) :=
  match m with
  | [] => None
  | (k', v) :: r => if str_eqb k' k then Some v else map_get k r
  end.

Definition map_keys (m : list (list ascii * list ascii))
    : list (list ascii) := map fst m.

(** The loops that fill [archCats] and [resCats]: the directories of the
    listing whose name starts with [pfx], keyed by the slug of the rest of
    the name. *)
Definition categories (pfx : list ascii) (listing : list node)
    : list (list ascii * list ascii) :=
  fold_left
    (fun m e =>
       if isDirectory e && startsWith pfx (node_name e)
       then map_set (slug (skipn (length pfx) (node_name e))) (node_name e) m
       else m)
    listing [].

Definition archCats (archListing : list node) :=
  categories (lit "Arch_") archListing.

Definition resCats (resListing : list node) :=
  categories (lit "Res_") resListing.

Definition manualAlias : gmap (list ascii) (list ascii) :=
  <[lit "appintegration" := lit "applicationintegration"]>
    (<[lit "iot" := lit "internetofthings"]> ∅).

(** [[...resCats.keys()].find(x => x.includes(k) || k.includes(x))] *)
Definition find_hit (k : list ascii) (resKeys : list (list ascii))
    : option (list ascii) :=
  List.find (fun x => includes x k || includes k x) resKeys.

(** The loop that fills [autoAlias]; [if (hit)] holds for a string that is
    not empty. *)
Definition autoAlias_step (resKeys : list (list ascii))
    (acc : gmap (list ascii) (list ascii)) (k : list ascii)
    : gmap (list ascii) (list ascii) :=
  if negb (str_in k resKeys) then
    match find_hit k resKeys with
    | Some (c :: h) => <[k := c :: h]> acc
    | _ => acc
    end
  else acc.

Definition autoAlias (archKeys resKeys : list (list ascii))
    : gmap (list ascii) (list ascii) :=
  fold_left (autoAlias_step resKeys) archKeys ∅.

(** [{ ...autoAlias, ...manualAlias }]: the later spread wins. *)
Definition alias (archKeys resKeys : list (list ascii))
    : gmap (list ascii) (list ascii) :=
  manualAlias ∪ autoAlias archKeys resKeys.

(** [resCats.get(alias[slugCat] ?? slugCat)].  The object [alias] inherits
    from [Object.prototype], whose only property with a slug for a name is
    [constructor]; its value is no key of [resCats]. *)
Definition resolve (al : gmap (list ascii) (list ascii))
    (res : list (list ascii * list ascii)) (slugCat : list ascii)
    : option (list ascii) :=
  match al !! slugCat with
  | Some t => map_get t res
  | None =>
      if str_eqb slugCat (lit "constructor") then None
      else map_get slugCat res
  end.

(** The file system as the merge sees it.  Of the destination: for every
    regular file the source path whose bytes it holds, and the
    directories.  Of what the script does not decide: the copies that
    [fs.copyFile] refuses though the destination is free (a source that
    cannot be read, a dangling symbolic link for one), and the order in
    which the system completes the copies that are in flight together,
    as the numbers [worker] reads one by one. *)
Record dest_state := {
  files : gmap (list ascii) (list ascii);
  dirs : gset (list ascii);
  refused : list ascii -> list ascii -> bool;
  sched : list nat
}.

Definition path_exists (d : dest_state) (p : list ascii) : bool :=
  bool_decide (is_Some (files d !! p)) || bool_decide (p ∈ dirs d).

(** The directories on the way to [p] and [p] itself: the prefixes of [p]
    that end before a "/", the root apart. *)
Fixpoint dir_chain_from (pre s : list ascii) : list (list ascii) :=
  match s with
  | [] => [pre]
  | c :: t =>
      (if is_slash c
       then match pre with [] => [] | _ :: _ => [pre] end
       else [])
      ++ dir_chain_from (pre ++ [c]) t
  end.

Definition dir_chain (p : list ascii) : list (list ascii) :=
  dir_chain_from [] p.

(** [fs.mkdir(d, { recursive: true })]: makes [d] and the directories on
    the way to it; [None] when it rejects because one of them is a regular
    file. *)
Definition ensureDir (p : list ascii) (d : dest_state) : option dest_state :=
  if existsb (fun a => bool_decide (is_Some (files d !! a))) (dir_chain p)
  then None
  else Some {| files := files d;
               dirs := list_to_set (dir_chain p) ∪ dirs d;
               refused := refused d; sched := sched d |}.

(** [fs.copyFile(src, dst, COPYFILE_EXCL)]; [None] when it rejects: [dst]
    exists, or the copy is one the system refuses. *)
Definition copyFileExcl (src dst : list ascii) (d : dest_state)
    : option dest_state :=
  if path_exists d dst || refused d src dst then None
  else Some {| files := <[dst := src]> (files d); dirs := dirs d;
               refused := refused d; sched := sched d |}.

(** The object [sum]. *)
Record stats := {
  copied : nat;
  skipped : nat;
  merged : nat;
  archOnly : nat;
  unmatched : list (list ascii)
}.

Definition sum0 : stats :=
  {| copied := 0; skipped := 0; merged := 0; archOnly := 0; unmatched := [] |}.

Definition add_copied (s : stats) : stats :=
  {| copied := copied s + 1; skipped := skipped s; merged := merged s;
     archOnly := archOnly s; unmatched := unmatched s |}.

Definition add_skipped (s : stats) : stats :=
  {| copied := copied s; skipped := skipped s + 1; merged := merged s;
     archOnly := archOnly s; unmatched := unmatched s |}.

Definition add_merged (s : stats) : stats :=
  {| copied := copied s; skipped := skipped s; merged := merged s + 1;
     archOnly := archOnly s; unmatched := unmatched s |}.

Definition add_archOnly (s : stats) : stats :=
  {| copied := copied s; skipped := skipped s; merged := merged s;
     archOnly := archOnly s + 1; unmatched := unmatched s |}.

Definition push_unmatched (c : list ascii) (s : stats) : stats :=
  {| copied := copied s; skipped := skipped s; merged := merged s;
     archOnly := archOnly s; unmatched := unmatched s ++ [c] |}.

Record job := { job_src : list ascii; job_dst : list ascii }.

(** One turn of the loop of [worker]. *)
Definition copy_step (cfg : config) (j : job) (st : dest_state * stats)
    : dest_state * stats :=
  if dryRun cfg then (fst st, add_copied (snd st))
  else
    match copyFileExcl (job_src j) (job_dst j) (fst st) with
    | Some d' => (d', add_copied (snd st))
    | None => (fst st, add_skipped (snd st))
    end.

(** [worker()] when it is the only one at work: [while (i < jobs.length)]
    over the jobs from the shared cursor [i] on, one after the other. *)
Fixpoint worker (cfg : config) (jobs : list job) (st : dest_state * stats)
    : dest_state * stats :=
  match jobs with
  | [] => st
  | j :: rest => worker cfg rest (copy_step cfg j st)
  end.

(** The state after the system has told which copy it completes next. *)
Definition next_sched (d : dest_state) : dest_state :=
  {| files := files d; dirs := dirs d; refused := refused d;
     sched := tl (sched d) |}.

(** The workers of a live run.  Every worker has taken one job, started
    its [fs.copyFile] and waits for it: the copies of [flight] are in
    flight together, [queue] holds the jobs no worker has taken yet.  The
    system completes one copy in flight, the one the schedule names; the
    worker that waited for it counts it and takes the next job of the
    queue.  [fuel] bounds the number of jobs left. *)
Fixpoint flight_loop (cfg : config) (fuel : nat) (flight queue : list job)
    (st : dest_state * stats) : dest_state * stats :=
  match fuel, flight with
  | S fuel', j0 :: _ =>
      let k := hd 0 (sched (fst st)) mod length flight in
      let st1 := copy_step cfg (nth k flight j0)
                   (next_sched (fst st), snd st) in
      flight_loop cfg fuel'
        (firstn k flight ++ skipn (S k) flight ++ firstn 1 queue)
        (skipn 1 queue) st1
  | _, _ => st
  end.

(** [Promise.all(Array.from({ length: cfg.concurrency }, worker))]:
    [Array.from] calls [worker] [n] times.  In a dry run the loop of
    [worker] has no [await]: the first call takes every job and the others
    find the cursor at the end.  In a live run each call takes one job and
    waits, so the first [n] jobs are in flight when [Array.from] returns. *)
Definition pool (cfg : config) (n : nat) (jobs : list job)
    (st : dest_state * stats) : dest_state * stats :=
  if dryRun cfg
  then match n with
       | O => st
       | S _ => worker cfg jobs st
       end
  else flight_loop cfg (length jobs) (firstn n jobs) (skipn n jobs) st.

(** [/([_-]|^)dark([_-]|\.svg$)/i.test(base)] *)
Definition dark_tail (r : list ascii) : bool :=
  match r with
  | [] => false
  | c :: _ =>
      is_sep c ||
      match match_seq (ci ".svg") r with
      | Some [] => true
      | _ => false
      end
  end.

Definition dark_here (s : list ascii) : bool :=
  match match_seq (ci "dark") s with
  | Some r => dark_tail r
  | None => false
  end.

Fixpoint dark_after_sep (s : list ascii) : bool :=
  match s with
  | [] => false
  | c :: t => (is_sep c && dark_here t) || dark_after_sep t
  end.

Definition dark_name (base : list ascii) : bool :=
  dark_here base || dark_after_sep base.

(** [ingest(src)] of [processGeneral] over the paths [walk(src)] yields;
    [None] when a copy rejects: that call is not inside a [try]. *)
Fixpoint ingest (cfg : config) (fs : list (list ascii)) (d : dest_state)
    : option dest_state :=
  match fs with
  | [] => Some d
  | f :: rest =>
      if negb (str_eqb (toLowerCase (extname f)) (lit ".svg"))
      then ingest cfg rest d
      else
        let base := basename f in
        let dark := dark_name base
                    || includes (toLowerCase f) (lit "/dark/") in
        let out :=
          path_join
            (path_join (dest cfg)
               (if dark then lit "General-Icons-Dark"
                else lit "General-Icons-Light"))
            base in
        if dryRun cfg then ingest cfg rest d
        else
          match copyFileExcl f out d with
          | Some d' => ingest cfg rest d'
          | None => None
          end
  end.

Definition processGeneral (cfg : config) (archFiles : list (list ascii))
    (resFiles : option (list (list ascii))) (d : dest_state)
    : option dest_state :=
  let dstLight := path_join (dest cfg) (lit "General-Icons-Light") in
  let dstDark := path_join (dest cfg) (lit "General-Icons-Dark") in
  match ensureDir dstLight d with
  | None => None
  | Some d0 =>
      match ensureDir dstDark d0 with
      | None => None
      | Some d1 =>
          match ingest cfg archFiles d1 with
          | None => None
          | Some d2 =>
              match resFiles with
              | None => Some d2
              | Some fs => ingest cfg fs d2
              end
          end
      end
  end.

(** The second loop of [mergeCat].  As the statement is parsed the [else]
    belongs to [if (matchesSize(f))], the nearest [if]: a resource file
    that does not pass the filter adds to [archOnly] and [unmatched]. *)
Fixpoint res_jobs (cfg : config) (archDirName dstDir : list ascii)
    (fs : list (list ascii)) (jobs : list job) (s : stats)
    : list job * stats :=
  match fs with
  | [] => (jobs, s)
  | f :: rest =>
      if matchesSize cfg f
      then res_jobs cfg archDirName dstDir rest
             (jobs ++ [{| job_src := f;
                          job_dst := path_join dstDir (basename f) |}]) s
      else res_jobs cfg archDirName dstDir rest jobs
             (push_unmatched archDirName (add_archOnly s))
  end.

Section Merge.

Variable cfg : config.
Variables archRoot resRoot : list ascii.
Variables archListing resListing : list node.

Definition the_alias : gmap (list ascii) (list ascii) :=
  alias (map_keys (archCats archListing)) (map_keys (resCats resListing)).

(** [walk(path.join(root, name))] for a directory [name] of a listing. *)
Definition walk_dir (root : list ascii) (listing : list node)
    (name : list ascii) : option (list (list ascii)) :=
  match find_dir name listing with
  | Some ch => Some (walk (path_join root name) ch)
  | None => None
  end.

(** [mergeCat(slugCat, archDirName)]; [None] when the call rejects.  The
    size label [cfg.size] is looked up as the name of one entry of the
    category directory. *)
Definition mergeCat (slugCat archDirName : list ascii)
    (st : dest_state * stats) : option (dest_state * stats) :=
  let resDirName := resolve the_alias (resCats resListing) slugCat in
  if str_eqb archDirName (lit "Arch_General-Icons") then
    match walk_dir archRoot archListing archDirName with
    | None => None
    | Some archFiles =>
        let resFiles :=
          match resDirName with
          | Some r => walk_dir resRoot resListing r
          | None => None
          end in
        match processGeneral cfg archFiles resFiles (fst st) with
        | Some d' => Some (d', add_archOnly (snd st))
        | None => None
        end
    end
  else
    let dstDir := path_join (dest cfg) archDirName in
    match ensureDir dstDir (fst st),
          find_dir archDirName archListing with
    | Some d1, Some cat =>
        match find_dir (size cfg) cat with
        | None => None
        | Some sized =>
            let sizedDir :=
              path_join (path_join archRoot archDirName) (size cfg) in
            let jobs1 :=
              map (fun f => {| job_src := f;
                               job_dst := path_join dstDir (basename f) |})
                  (List.filter (matchesSize cfg) (walk sizedDir sized)) in
            let '(jobs, s1) :=
              match resDirName with
              | Some r =>
                  match walk_dir resRoot resListing r with
                  | Some fs => res_jobs cfg archDirName dstDir fs jobs1 (snd st)
                  | None => (jobs1, snd st)
                  end
              | None => (jobs1, snd st)
              end in
            let '(d2, s2) := pool cfg (concurrency cfg) jobs (d1, s1) in
            Some (d2, match resDirName with
                      | Some _ => add_merged s2
                      | None => s2
                      end)
        end
    | _, _ => None
    end.

(** [Promise.all([...archCats].map(([s, d]) => mergeCat(s, d)))], the
    categories taken in the order of the map, one call after the other.
    The calls write to different directories of the destination; the order
    of [unmatched] is the order of this sequence (the report sorts it). *)
Fixpoint merge_loop (cats : list (list ascii * list ascii))
    (st : dest_state * stats) : option (dest_state * stats) :=
  match cats with
  | [] => Some st
  | (s, d) :: rest =>
      match mergeCat s d st with
      | Some st' => merge_loop rest st'
      | None => None
      end
  end.

(** The merge of a run: [ensureDir(cfg.dest)], then every category, from
    the statistics [sum] at zero. *)
Definition merge (d : dest_state) : option (dest_state * stats) :=
  match ensureDir (dest cfg) d with
  | Some d0 => merge_loop (archCats archListing) (d0, sum0)
  | None => None
  end.

End Merge.

(** ** restructure.js: the roots and the flat copies *)

(** The group of [name.match(/_(\d{8}|\d{6})$/)]: the eight digits, or else
    the six digits, that end the name after an underscore. *)
Definition date_stamp (name : list ascii) : option (list ascii) :=
  let r := rev name in
  let stamp (n : nat) :=
    (length (firstn n r) =? n) && forallb is_digit (firstn n r)
    && match skipn n r with
       | c :: _ => is_underscore c
       | [] => false
       end in
  if stamp 8 then Some (rev (firstn 8 r))
  else if stamp 6 then Some (rev (firstn 6 r))
  else None.

(** [name.match(rx)?.[1] ?? ''] *)
Definition date_key (name : list ascii) : list ascii :=
  match date_stamp name with
  | Some d => d
  | None => []
  end.

(** [a.localeCompare(b)] on strings of digits: the order of the code
    units, a proper prefix first. *)
Fixpoint localeCompare (a b : list ascii) : comparison :=
  match a, b with
  | [], [] => Eq
  | [], _ :: _ => Lt
  | _ :: _, [] => Gt
  | x :: a', y :: b' =>
      match Nat.compare (code x) (code y) with
      | Eq => localeCompare a' b'
      | c => c
      end
  end.

(** [Array.prototype.sort(cmp)], a stable sort: an element goes in front
    of the first one that [cmp] does not put before it. *)
Fixpoint sort_insert {A} (cmp : A -> A -> comparison) (x : A) (l : list A)
    : list A :=
  match l with
  | [] => [x]
  | y :: t =>
      match cmp x y with
      | Gt => y :: sort_insert cmp x t
      | _ => x :: l
      end
  end.

Fixpoint js_sort {A} (cmp : A -> A -> comparison) (l : list A) : list A :=
  match l with
  | [] => []
  | x :: t => sort_insert cmp x (js_sort cmp t)
  end.

(** The number that a string of digits writes. *)
Definition digits_value (s : list ascii) : nat :=
  fold_left (fun acc c => 10 * acc + (code c - 48)) s 0.

(** The comparison of [newest]: the stamp that [localeCompare] puts last
    comes first. *)
Definition newer_first (a b : node) : comparison :=
  localeCompare (date_key (node_name b)) (date_key (node_name a)).

(** [newest(root, pfx)]; [None] when it throws "Missing". *)
Definition newest (root : list ascii) (listing : list node)
    (pfx : list ascii) : option (list ascii) :=
  let dirs :=
    List.filter (fun e => isDirectory e && startsWith pfx (node_name e))
      listing in
  match dirs with
  | [] => None
  | [d] => Some (path_join root (node_name d))
  | _ =>
      match js_sort newer_first dirs with
      | d :: _ => Some (path_join root (node_name d))
      | [] => None
      end
  end.

(** The loop of [copyCats] over the paths [walk(catDir)] yields, with the
    set [seen]; [None] when a copy rejects: the call is not in a [try]. *)
Fixpoint copyCats_loop (cfg : config) (dst : list ascii)
    (fs : list (list ascii)) (seen : gset (list ascii)) (d : dest_state)
    : option dest_state :=
  match fs with
  | [] => Some d
  | f :: rest =>
      if matchesSize cfg f then
        let out := path_join dst (basename f) in
        if bool_decide (out ∈ seen) then copyCats_loop cfg dst rest seen d
        else if dryRun cfg
        then copyCats_loop cfg dst rest ({[ out ]} ∪ seen) d
        else
          match copyFileExcl f out d with
          | Some d' => copyCats_loop cfg dst rest ({[ out ]} ∪ seen) d'
          | None => None
          end
      else copyCats_loop cfg dst rest seen d
  end.

(** [copyCats()] for the category icons at [catDir]. *)
Definition copyCats (cfg : config) (catDir : list ascii)
    (catListing : list node) (d : dest_state) : option dest_state :=
  let dst := path_join (dest cfg) (lit "Categories") in
  match ensureDir dst d with
  | Some d1 => copyCats_loop cfg dst (walk catDir catListing) ∅ d1
  | None => None
  end.

(** ** svg-title.js: the run *)

(** The runner: [processSvg] for every path of the walk; [None] when one
    of the calls rejects. *)
Fixpoint titleSync (dryRun : bool) (writable : list ascii -> bool)
    (paths : list (list ascii)) (fs : gmap (list ascii) (list ascii))
    : option (gmap (list ascii) (list ascii)) :=
  match paths with
  | [] => Some fs
  | p :: rest =>
      match processSvg dryRun writable p fs with
      | Some (fs', _) => titleSync dryRun writable rest fs'
      | None => None
      end
  end.

(** ** generate-helper-pages.js *)

(** The double quote. *)
Definition dquote : ascii := ascii_of_nat 34.

(** [esc(s)]: the replacement of every ampersand, angle bracket and double
    quote by its entity. *)
Definition esc_char (c : ascii) : list ascii :=
  if Ascii.eqb c "&" then lit "&amp;"
  else if Ascii.eqb c "<" then lit "&lt;"
  else if Ascii.eqb c ">" then lit "&gt;"
  else if Ascii.eqb c dquote then lit "&quot;"
  else [c].

Definition esc (s : list ascii) : list ascii := flat_map esc_char s.

(** [s.replace(/\.[^.]+$/, "")]: the last dot and what follows it, when
    something follows it. *)
Definition strip_extension (s : list ascii) : list ascii :=
  let r := rev s in
  match take_while (fun c => negb (is_dot c)) r,
        drop_while (fun c => negb (is_dot c)) r with
  | _ :: _, _ :: rest => rev rest
  | _, _ => s
  end.

(** The class [-_\s/] *)
Definition is_token_sep (c : ascii) : bool :=
  is_sep c || is_ws c || is_slash c.

Definition nonempty (s : list ascii) : bool :=
  match s with
  | [] => false
  | _ :: _ => true
  end.

(** [tokens(str)]: the split on runs of separators, the empty pieces
    filtered out. *)
Definition tokens (str : list ascii) : list (list ascii) :=
  List.filter nonempty
    (split_on is_token_sep (strip_extension (toLowerCase str))).

(** [tokenMatch(cat, icon)] *)
Definition tokenMatch (cat icon : list ascii) : bool :=
  forallb (fun ct => existsb (fun it => startsWith ct it) (tokens icon))
    (tokens cat).

(** [isDarkName(name)]: [/dark/i.test(name)] *)
Definition isDarkName (name : list ascii) : bool :=
  has_match [ci "dark"] name.

(** ** download.js: the checksum files *)

(** [CHECKSUM_FILES] for the working directory [workDir]. *)
Definition CHECKSUM_FILES (workDir : list ascii) : list (list ascii) :=
  [ path_join (path_join workDir (lit "raw-aws-icons")) (lit "checksum.txt");
    path_join (path_join workDir (lit "aws-icons")) (lit "checksum.txt") ].

(** [readChecksum()] on a store of file contents. *)
Fixpoint readChecksum_from (paths : list (list ascii))
    (fs : gmap (list ascii) (list ascii)) : option (list ascii) :=
  match paths with
  | [] => None
  | p :: rest =>
      match fs !! p with
      | Some data => Some (js_trim data)
      | None => readChecksum_from rest fs
      end
  end.

Definition readChecksum (workDir : list ascii)
    (fs : gmap (list ascii) (list ascii)) : option (list ascii) :=
  readChecksum_from (CHECKSUM_FILES workDir) fs.

(** [writeChecksum(sum)] *)
Fixpoint writeChecksum_to (paths : list (list ascii)) (sum : list ascii)
    (fs : gmap (list ascii) (list ascii)) : gmap (list ascii) (list ascii) :=
  match paths with
  | [] => fs
  | p :: rest =>
      writeChecksum_to rest sum (<[p := sum ++ [ascii_of_nat 10]]> fs)
  end.

Definition writeChecksum (workDir sum : list ascii)
    (fs : gmap (list ascii) (list ascii)) : gmap (list ascii) (list ascii) :=
  writeChecksum_to (CHECKSUM_FILES workDir) sum fs.

(** The test of the main function that skips the extraction:
    [storedSum && storedSum === latestSum]. *)
Definition unchanged_package (storedSum : option (list ascii))
    (latestSum : list ascii) : bool :=
  match storedSum with
  | Some (c :: s) => str_eqb (c :: s) latestSum
  | _ => false
  end.

(** ** Predicates of the further properties *)

(** No two neighbours in [s] are both of the class. *)
Fixpoint no_double (cls : ascii -> bool) (s : list ascii) : bool :=
  match s with
  | [] => true
  | a :: t =>
      match t with
      | b :: _ => negb (cls a && cls b)
      | [] => true
      end && no_double cls t
  end.

(** [s] does not start with a unit of the class. *)
Definition head_free (cls : ascii -> bool) (s : list ascii) : bool :=
  match s with
  | [] => true
  | c :: _ => negb (cls c)
  end.

(** [s] neither starts nor ends with a separator. *)
Definition trimmed (s : list ascii) : bool :=
  head_free is_sep s && head_free is_sep (rev s).

(** What a call of [renameSafe] in a walk with the flag [dry] can be. *)
Definition call_ok (dry : bool) (e : rename_event) : Prop :=
  (ev_new e = cleanName (ev_old e) true
   \/ ev_new e = cleanName (ev_old e) false)
  /\ (ev_result e = Unchanged <-> ev_new e = ev_old e)
  /\ (ev_result e = DryRun -> dry = true)
  /\ (ev_result e = DestExists -> dry = false)
  /\ (ev_result e = Renamed ->
      dry = false /\ ev_new e <> lit "." /\ ev_new e <> lit "..").


(** The destination [d'] holds every file of [d] with the bytes it had,
    and every directory of [d]. *)
Definition extends (d d' : dest_state) : Prop :=
  (forall p v, files d !! p = Some v -> files d' !! p = Some v)
  /\ dirs d ⊆ dirs d'.

(** The test of [ingest] and [copyAllSvgs] on the extension. *)
Definition svg_ext (f : list ascii) : bool :=
  str_eqb (toLowerCase (extname f)) (lit ".svg").

(** The path [out] of [ingest] for the file [f]. *)
Definition general_out (cfg : config) (f : list ascii) : list ascii :=
  path_join
    (path_join (dest cfg)
       (if dark_name (basename f) || includes (toLowerCase f) (lit "/dark/")
        then lit "General-Icons-Dark" else lit "General-Icons-Light"))
    (basename f).

(** The path [out] of [copyCats] for the file [f]. *)
Definition cat_out (cfg : config) (f : list ascii) : list ascii :=
  path_join (path_join (dest cfg) (lit "Categories")) (basename f).

(** The path of the base name of [f] in the directory [dst]. *)
Definition base_in (dst f : list ascii) : list ascii :=
  path_join dst (basename f).

(** The number of elements of [l] that fail the test [f]. *)
Definition count_failing {A} (f : A -> bool) (l : list A) : nat :=
  length (List.filter (fun x => negb (f x)) l).
(** ** Predicates used in the statements *)

(** No alternative of [ps] can start at the unit [c]. *)
Definition rej_head (ps : list pat) (c : ascii) : bool :=
  forallb (fun p : pat => match p with
                          | f :: _ => negb (f c)
                          | [] => false
                          end) ps.

(** No test of any alternative of [ps] accepts the unit [c], and no
    alternative is empty. *)
Definition rej (ps : list pat) (c : ascii) : bool :=
  forallb (fun p : pat => match p with
                          | _ :: _ => forallb (fun f => negb (f c)) p
                          | [] => false
                          end) ps.

(** After the units at the indices [n] and above have been scanned: the
    end of the name lies above [n], and the dot found is a dot of the path
    below that end. *)
Definition ext_inv (p : list ascii) (n : nat) (st : ext_state) : Prop :=
  (forall e, ext_end st = Some e -> n < e)
  /\ (forall d, startDot st = Some d ->
        nth_error p d = Some "."%char
        /\ exists e, ext_end st = Some e /\ d < e).

(** [p] occurs in [s]. *)
Definition contains (s p : list ascii) : Prop :=
  exists a b, s = a ++ p ++ b.

(** One of two slugs contains the other. *)
Definition related (x k : list ascii) : Prop :=
  contains x k \/ contains k x.

(** [s] ends with [p]. *)
Definition has_suffix (s p : list ascii) : Prop :=
  exists a, s = a ++ p.

(** What the loop of [autoAlias] records for the slug [k]. *)
Definition inferred (resKeys : list (list ascii)) (k : list ascii)
    : option (list ascii) :=
  if str_in k resKeys then None
  else
    match find_hit k resKeys with
    | Some (c :: h) => Some (c :: h)
    | _ => None
    end.

(** The text [o] is matched by the whole of the pattern [p]. *)
Definition matches (p : pat) (o : list ascii) : Prop :=
  match_seq p o = Some [].

(** The file has a title element: an opening tag and, after it, a closing
    tag, in any case. *)
Definition has_title_element (data : list ascii) : Prop :=
  exists a o i c z,
    data = a ++ o ++ i ++ c ++ z
    /\ matches (ci "<title>") o /\ matches (ci "</title>") c.

(** The file has a title whose trimmed text is not its cleaned form. *)
Definition title_differs (data : list ascii) : bool :=
  match match_title data with
  | Some m =>
      negb (str_eqb (js_trim (tm_inner m)) (cleanTitle (js_trim (tm_inner m))))
  | None => false
  end.

(** What a call needs to complete: the file can be read, and can be
    written when the call has to write it. *)
Definition svg_ok (dry : bool) (writable : list ascii -> bool)
    (fs : gmap (list ascii) (list ascii)) (p : list ascii) : Prop :=
  exists data,
    fs !! p = Some data
    /\ (dry = true \/ title_differs data = false \/ writable p = true).

(** The paths of the entries below [dir], every directory after its
    contents. *)
Fixpoint post_paths (dir : list (list ascii)) (n : node)
    : list (list (list ascii)) :=
  match n with
  | File nm => []
  | Dir nm ch =>
      flat_map (fun x => post_paths (dir ++ [node_name x]) x
                           ++ [dir ++ [node_name x]]) ch
  end.

Definition post_listing (dir : list (list ascii)) (ch : list node)
    : list (list (list ascii)) :=
  flat_map (fun x => post_paths (dir ++ [node_name x]) x
                       ++ [dir ++ [node_name x]]) ch.

(** The entry at [q] lies below the entry at [p]. *)
Definition beneath (q p : list (list ascii)) : Prop :=
  exists r, r <> [] /\ q = p ++ r.

(** In the sequence [L] nothing that comes after a path lies below it. *)
Definition later_free (L : list (list (list ascii))) : Prop :=
  forall l1 p l2, L = l1 ++ p :: l2 ->
  forall q, In q l2 -> ~ beneath q p.

(** The configuration with the flag [--dry-run] set or cleared. *)
Definition with_dryRun (b : bool) (cfg : config) : config :=
  {| dryRun := b; size := size cfg; formats := formats cfg;
     concurrency := concurrency cfg; allowUnmatched := allowUnmatched cfg;
     dest := dest cfg |}.

(** How the statistics of a dry run relate to those of the live run at
    the same point: every job is counted as copied and none as skipped;
    the other statistics agree. *)
Definition stats_sim (sL sD : stats) : Prop :=
  merged sD = merged sL
  /\ archOnly sD = archOnly sL
  /\ unmatched sD = unmatched sL
  /\ copied sD = copied sL + skipped sL
  /\ skipped sD = 0.

(** The same for the states: the files of the dry run are those the run
    started with, [F0], and the live run still has them. *)
Definition dry_sim (F0 : gmap (list ascii) (list ascii))
    (stL stD : dest_state * stats) : Prop :=
  files (fst stD) = F0
  /\ (forall p v, F0 !! p = Some v -> files (fst stL) !! p = Some v)
  /\ stats_sim (snd stL) (snd stD).

(** Two states with one destination and one set of refused copies; the
    schedules may differ. *)
Definition same_dest (a b : dest_state) : Prop :=
  files a = files b /\ dirs a = dirs b /\ refused a = refused b.

(** The destination [d] with the file [dst] made from [src]. *)
Definition with_file (dst src : list ascii) (d : dest_state) : dest_state :=
  {| files := <[dst := src]> (files d); dirs := dirs d;
     refused := refused d; sched := sched d |}.

(** Wherever an alternative of [ps] matches in [s], the unit after the
    match, if there is one, is a unit that no alternative accepts at any
    place: every token is followed by a unit that is no part of a token,
    or by the end. *)
Fixpoint delimited (ps : list pat) (s : list ascii) : bool :=
  match s with
  | [] => true
  | _ :: t =>
      match match_alt ps s with
      | Some (r :: _) => rej ps r
      | _ => true
      end && delimited ps t
  end.

(** An attempt to match succeeded. *)
Definition hit (o : option (list ascii)) : bool :=
  match o with
  | Some _ => true
  | None => false
  end.

(** * Properties *)

(** ** Units and patterns *)

Arguments ci_eq : simpl never.
Arguments canon : simpl never.

Ltac each_ascii c :=
  destruct c as [[] [] [] [] [] [] [] []].

Lemma str_eqb_true (a b : list ascii) : str_eqb a b = true <-> a = b.
Proof. unfold str_eqb. destruct (decide (a = b)); split; congruence. Qed.

Lemma str_eqb_false (a b : list ascii) : str_eqb a b = false <-> a <> b.
Proof. unfold str_eqb. destruct (decide (a = b)); split; congruence. Qed.

Lemma str_eqb_refl (a : list ascii) : str_eqb a a = true.
Proof. apply str_eqb_true; reflexivity. Qed.

Lemma ci_eq_same (p q c : ascii) :
  ci_eq p c = true -> ci_eq q c = ci_eq q p.
Proof.
  unfold ci_eq. intros H. apply Ascii.eqb_eq in H. now rewrite H.
Qed.

Lemma is_sep_cases (c : ascii) :
  is_sep c = true -> c = "-"%char \/ c = "_"%char.
Proof.
  unfold is_sep. intros H. apply orb_true_iff in H.
  destruct H as [H | H]; apply Ascii.eqb_eq in H; auto.
Qed.

Lemma match_seq_split (p : pat) (s r : list ascii) :
  match_seq p s = Some r ->
  exists m, s = m ++ r /\ length m = length p.
Proof.
  revert s. induction p as [| f p IH]; intros s H; simpl in H.
  - exists []. now inversion H.
  - destruct s as [| c s]; [discriminate |].
    destruct (f c); [| discriminate].
    destruct (IH _ H) as (m & -> & Hl). exists (c :: m). simpl. auto.
Qed.

Lemma match_alt_split (ps : list pat) (s r : list ascii) :
  match_alt ps s = Some r -> exists m, s = m ++ r.
Proof.
  induction ps as [| p ps IH]; simpl; [discriminate |].
  destruct (match_seq p s) eqn:E.
  - intros [= <-]. destruct (match_seq_split _ _ _ E) as (m & Hm & _). eauto.
  - exact IH.
Qed.

Lemma match_seq_app (p : pat) (s r x : list ascii) :
  match_seq p s = Some r -> match_seq p (s ++ x) = Some (r ++ x).
Proof.
  revert s. induction p as [| f p IH]; intros s H; simpl in *.
  - now inversion H.
  - destruct s as [| c s]; [discriminate |]. simpl.
    destruct (f c); [auto | discriminate].
Qed.

Lemma match_alt_app (ps : list pat) (s r x : list ascii) :
  match_alt ps s = Some r -> exists r', match_alt ps (s ++ x) = Some r'.
Proof.
  induction ps as [| p ps IH]; simpl; [discriminate |].
  destruct (match_seq p s) eqn:E.
  - intros _. rewrite (match_seq_app _ _ _ x E). eauto.
  - intros H. destruct (match_seq p (s ++ x)); eauto.
Qed.

(** ** Occurrences of a pattern *)

Lemma has_match_cons (ps : list pat) (c : ascii) (s : list ascii) :
  has_match ps s = true -> has_match ps (c :: s) = true.
Proof. intros H. simpl. destruct (match_alt ps (c :: s)); auto. Qed.

Lemma has_match_app_r (ps : list pat) (a b : list ascii) :
  has_match ps b = true -> has_match ps (a ++ b) = true.
Proof.
  induction a as [| c a IH]; intros H; [exact H |].
  rewrite <- app_comm_cons. apply has_match_cons. auto.
Qed.

Lemma has_match_app_l (ps : list pat) (a b : list ascii) :
  has_match ps a = true -> has_match ps (a ++ b) = true.
Proof.
  induction a as [| c a IH]; intros H.
  - simpl in H. destruct (match_alt ps []) eqn:E; [| discriminate].
    destruct (match_alt_app _ _ _ b E) as [r' Hr']. simpl in Hr'.
    destruct b; simpl; now rewrite Hr'.
  - simpl in H. rewrite <- app_comm_cons. simpl.
    destruct (match_alt ps (c :: a)) eqn:E.
    + destruct (match_alt_app _ _ _ b E) as [r' Hr'].
      rewrite <- app_comm_cons in Hr'. now rewrite Hr'.
    + destruct (match_alt ps (c :: a ++ b)); auto.
Qed.

Lemma has_match_infix (ps : list pat) (a s b : list ascii) :
  has_match ps (a ++ s ++ b) = false -> has_match ps s = false.
Proof.
  intros H. destruct (has_match ps s) eqn:E; [| reflexivity].
  rewrite has_match_app_r in H; [discriminate |].
  now apply has_match_app_l.
Qed.

Lemma rej_head_alt (ps : list pat) (c : ascii) (s : list ascii) :
  rej_head ps c = true -> match_alt ps (c :: s) = None.
Proof.
  induction ps as [| p ps IH]; simpl; [reflexivity |].
  intros H. apply andb_true_iff in H. destruct H as [Hp Hps].
  destruct p as [| f p]; [discriminate |]. simpl.
  apply negb_true_iff in Hp. rewrite Hp. auto.
Qed.

Lemma rej_head_nil (ps : list pat) (c : ascii) :
  rej_head ps c = true -> match_alt ps [] = None.
Proof.
  induction ps as [| p ps IH]; simpl; [reflexivity |].
  intros H. apply andb_true_iff in H. destruct H as [Hp Hps].
  destruct p as [| f p]; [discriminate |]. simpl. auto.
Qed.

Lemma rej_rej_head (ps : list pat) (c : ascii) :
  rej ps c = true -> rej_head ps c = true.
Proof.
  induction ps as [| p ps IH]; simpl; [reflexivity |].
  intros H. apply andb_true_iff in H. destruct H as [Hp Hps].
  rewrite IH by assumption. destruct p as [| f p]; [discriminate |].
  simpl in Hp. apply andb_true_iff in Hp. destruct Hp as [Hf _].
  now rewrite Hf.
Qed.

Lemma has_match_rej_head (ps : list pat) (c : ascii) (s : list ascii) :
  rej_head ps c = true -> has_match ps (c :: s) = has_match ps s.
Proof. intros H. simpl. now rewrite rej_head_alt. Qed.

Lemma has_match_all_rej (ps : list pat) (s : list ascii) (c0 : ascii) :
  rej_head ps c0 = true ->
  Forall (fun c => rej_head ps c = true) s -> has_match ps s = false.
Proof.
  intros H0. induction 1 as [| c s Hc Hs IH].
  - simpl. now rewrite (rej_head_nil _ _ H0).
  - now rewrite has_match_rej_head.
Qed.

(** A unit that no test accepts cuts the text in two: a match lies on one
    side of it. *)
Lemma match_seq_cut (p : pat) (c : ascii) (a e : list ascii) :
  forallb (fun f => negb (f c)) p = true -> p <> [] ->
  match_seq p a = None -> match_seq p (a ++ c :: e) = None.
Proof.
  revert a. induction p as [| f p IH]; intros a Hr Hne H; [congruence |].
  simpl in Hr. apply andb_true_iff in Hr. destruct Hr as [Hf Hr].
  apply negb_true_iff in Hf.
  destruct a as [| x a]; simpl in *.
  - now rewrite Hf.
  - destruct (f x); [| reflexivity].
    destruct p as [| g p]; [discriminate |].
    apply IH; auto.
Qed.

Lemma match_alt_cut (ps : list pat) (c : ascii) (a e : list ascii) :
  rej ps c = true ->
  match_alt ps a = None -> match_alt ps (a ++ c :: e) = None.
Proof.
  induction ps as [| p ps IH]; simpl; [reflexivity |].
  intros Hr H. apply andb_true_iff in Hr. destruct Hr as [Hp Hps].
  destruct (match_seq p a) eqn:E; [discriminate |].
  destruct p as [| f p]; [discriminate |].
  rewrite match_seq_cut; auto.
Qed.

Lemma has_match_cut (ps : list pat) (c : ascii) (a e : list ascii) :
  rej ps c = true ->
  has_match ps (a ++ c :: e) = has_match ps a || has_match ps e.
Proof.
  intros Hr. induction a as [| x a IH].
  - simpl app. rewrite has_match_rej_head by now apply rej_rej_head.
    simpl. now rewrite (rej_head_nil _ _ (rej_rej_head _ _ Hr)).
  - rewrite <- app_comm_cons. simpl.
    destruct (match_alt ps (x :: a)) eqn:E.
    + destruct (match_alt_app _ _ _ (c :: e) E) as [r' Hr'].
      rewrite <- app_comm_cons in Hr'. now rewrite Hr'.
    + pose proof (match_alt_cut _ _ _ e Hr E) as Hc.
      rewrite <- app_comm_cons in Hc. now rewrite Hc.
Qed.

(** ** Replacements that keep the occurrences of a pattern *)

Lemma match_seq_collapse (cls : ascii -> bool) (r : ascii) (p : pat) :
  cls r = true ->
  (forall c, cls c = true -> forallb (fun f => negb (f c)) p = true) ->
  forall s, hit (match_seq p (collapse_runs cls r false s))
            = hit (match_seq p s).
Proof.
  intros Hr. induction p as [| f p IH]; intros Hp s; [reflexivity |].
  assert (Hf : forall c, cls c = true -> f c = false).
  { intros c Hc. specialize (Hp c Hc). simpl in Hp.
    apply andb_true_iff in Hp. now apply negb_true_iff. }
  assert (Hp' : forall c, cls c = true ->
                          forallb (fun f => negb (f c)) p = true).
  { intros c Hc. specialize (Hp c Hc). simpl in Hp.
    now apply andb_true_iff in Hp. }
  destruct s as [| c t]; [reflexivity |].
  simpl collapse_runs. destruct (cls c) eqn:Ec.
  - destruct t as [| d t'].
    + simpl. now rewrite (Hf c Ec).
    + destruct (cls d); simpl; rewrite ?(Hf c Ec), ?(Hf r Hr); reflexivity.
  - simpl. destruct (f c); [apply IH; assumption | reflexivity].
Qed.

Lemma match_alt_collapse (cls : ascii -> bool) (r : ascii) (ps : list pat) :
  cls r = true ->
  (forall c, cls c = true -> rej ps c = true) ->
  forall s, hit (match_alt ps (collapse_runs cls r false s))
            = hit (match_alt ps s).
Proof.
  intros Hr. induction ps as [| p ps IH]; intros Hp s; [reflexivity |].
  simpl.
  assert (H1 : forall c, cls c = true ->
                         forallb (fun f => negb (f c)) p = true).
  { intros c Hc. specialize (Hp c Hc). simpl in Hp.
    apply andb_true_iff in Hp. destruct Hp as [Hp _].
    destruct p; [discriminate | exact Hp]. }
  assert (H2 : forall c, cls c = true -> rej ps c = true).
  { intros c Hc. specialize (Hp c Hc). simpl in Hp.
    now apply andb_true_iff in Hp. }
  pose proof (match_seq_collapse cls r p Hr H1 s) as E.
  destruct (match_seq p (collapse_runs cls r false s)),
    (match_seq p s); simpl in E; try discriminate; auto.
Qed.

Lemma has_match_collapse (cls : ascii -> bool) (r : ascii) (ps : list pat) :
  cls r = true ->
  (forall c, cls c = true -> rej ps c = true) ->
  forall s b, has_match ps (collapse_runs cls r b s) = has_match ps s.
Proof.
  intros Hr Hp.
  assert (Hh : forall c, cls c = true -> rej_head ps c = true)
    by (intros; apply rej_rej_head; auto).
  induction s as [| c t IH]; intros b; [reflexivity |].
  simpl collapse_runs. destruct (cls c) eqn:Ec.
  - rewrite (has_match_rej_head ps c) by auto.
    destruct b; [apply IH |].
    destruct t as [| d t'].
    + rewrite has_match_rej_head by auto. reflexivity.
    + destruct (cls d) eqn:Ed.
      * rewrite has_match_rej_head by auto. apply IH.
      * rewrite has_match_rej_head by auto. apply IH.
  - pose proof (match_alt_collapse cls r ps Hr Hp (c :: t)) as E.
    simpl collapse_runs in E. rewrite Ec in E.
    simpl has_match.
    destruct (match_alt ps (c :: collapse_runs cls r false t)),
      (match_alt ps (c :: t)); simpl in E; try discriminate; auto.
Qed.

Lemma drop_while_split (f : ascii -> bool) (s : list ascii) :
  s = take_while f s ++ drop_while f s.
Proof.
  induction s as [| c t IH]; [reflexivity |]. simpl.
  destruct (f c); simpl; [now f_equal | reflexivity].
Qed.

Lemma take_while_all (f : ascii -> bool) (s : list ascii) :
  Forall (fun c => f c = true) (take_while f s).
Proof.
  induction s as [| c t IH]; simpl; [constructor |].
  destruct (f c) eqn:E; constructor; auto.
Qed.

Lemma trim_seps_infix (s : list ascii) :
  exists a b, s = a ++ trim_seps s ++ b
              /\ Forall (fun c => is_sep c = true) a
              /\ Forall (fun c => is_sep c = true) b.
Proof.
  unfold trim_seps.
  exists (take_while is_sep s),
         (rev (take_while is_sep (rev (drop_while is_sep s)))).
  split; [| split].
  - rewrite <- rev_app_distr, <- drop_while_split, rev_involutive.
    apply drop_while_split.
  - apply take_while_all.
  - apply Forall_rev. apply take_while_all.
Qed.

Lemma has_match_drop_prefix (ps : list pat) (a s : list ascii) :
  Forall (fun c => rej_head ps c = true) a ->
  has_match ps (a ++ s) = has_match ps s.
Proof.
  induction 1 as [| c a Hc Ha IH]; [reflexivity |].
  rewrite <- app_comm_cons, has_match_rej_head; auto.
Qed.

Lemma has_match_drop_suffix (ps : list pat) (s b : list ascii) :
  Forall (fun c => rej ps c = true) b ->
  has_match ps (s ++ b) = has_match ps s.
Proof.
  intros Hb. destruct Hb as [| c b Hc Hb].
  - now rewrite app_nil_r.
  - rewrite has_match_cut by assumption.
    rewrite (has_match_all_rej ps b c).
    + apply orb_false_r.
    + now apply rej_rej_head.
    + eapply Forall_impl; [exact Hb |].
    intros; now apply rej_rej_head.
Qed.

Lemma strip_tail_prefix (ps : list pat) (s : list ascii) :
  exists b, s = strip_tail ps s ++ b.
Proof.
  unfold strip_tail.
  destruct (match_alt (map (@rev _) ps) (rev s)) eqn:E.
  - destruct (match_alt_split _ _ _ E) as [m Hm].
    exists (rev m). rewrite <- rev_app_distr, <- Hm. now rewrite rev_involutive.
  - exists []. now rewrite app_nil_r.
Qed.

(** ** Brand tokens *)

Lemma sep_rej_brands (c : ascii) : is_sep c = true -> rej brands c = true.
Proof.
  intros H. destruct (is_sep_cases c H) as [-> | ->]; reflexivity.
Qed.

Lemma underscore_rej_brands (c : ascii) :
  is_underscore c = true -> rej brands c = true.
Proof. intros H. apply Ascii.eqb_eq in H. subst c. reflexivity. Qed.

Lemma digit_rej_brands (c : ascii) : is_digit c = true -> rej brands c = true.
Proof.
  intros H. each_ascii c; vm_compute in H; try discriminate H; reflexivity.
Qed.

Lemma has_brand_trim (s : list ascii) :
  has_brand (trim_seps s) = has_brand s.
Proof.
  destruct (trim_seps_infix s) as (a & b & Hs & Ha & Hb).
  unfold has_brand. rewrite Hs at 2.
  rewrite has_match_drop_prefix, has_match_drop_suffix; auto.
  - eapply Forall_impl; [exact Hb |].
    intros; now apply sep_rej_brands.
  - eapply Forall_impl; [exact Ha |].
    intros; now apply rej_rej_head, sep_rej_brands.
Qed.

Lemma has_brand_strip_num_suffix (s : list ascii) :
  has_brand (strip_num_suffix s) = has_brand s.
Proof.
  unfold strip_num_suffix.
  pose proof (drop_while_split is_digit (rev s)) as Hs.
  pose proof (take_while_all is_digit (rev s)) as Hd.
  destruct (take_while is_digit (rev s)) as [| d ds] eqn:Et; [reflexivity |].
  destruct (drop_while is_digit (rev s)) as [| c rest] eqn:Ed; [reflexivity |].
  destruct (is_underscore c) eqn:Ec; [| reflexivity].
  assert (Hs' : s = rev rest ++ c :: rev (d :: ds)).
  { rewrite <- (rev_involutive s), Hs, rev_app_distr.
    change (rev (c :: rest)) with (rev rest ++ [c]).
    now rewrite <- app_assoc. }
  unfold has_brand. rewrite Hs' at 1.
  rewrite has_match_cut by now apply underscore_rej_brands.
  rewrite (has_match_all_rej brands (rev (d :: ds)) c).
  - now rewrite orb_false_r.
  - now apply rej_rej_head, underscore_rej_brands.
  - apply Forall_rev. eapply Forall_impl; [exact Hd |].
    intros; now apply rej_rej_head, digit_rej_brands.
Qed.

Lemma rej_head_ci (x c : ascii) :
  ci_eq x c = true -> rej_head brands c = rej_head brands x.
Proof.
  intros H. unfold rej_head, brands, ci.
  cbn [lit list_ascii_of_string map forallb].
  now rewrite !(ci_eq_same x _ c H).
Qed.

Lemma rej_ci (x c : ascii) :
  ci_eq x c = true -> rej brands c = rej brands x.
Proof.
  intros H. unfold rej, brands, ci.
  cbn [lit list_ascii_of_string map forallb].
  now rewrite !(ci_eq_same x _ c H).
Qed.

Lemma has_brand_single (c : ascii) (s : list ascii) (d : ascii) :
  rej brands d = true -> has_brand (c :: d :: s) = has_brand s.
Proof.
  intros Hd. unfold has_brand.
  change (c :: d :: s) with ([c] ++ d :: s).
  rewrite has_match_cut by assumption.
  unfold brands, ci. cbn. now destruct (ci_eq "A" c).
Qed.

(** Peel one unit off a successful [match_seq]. *)
Ltac peel E :=
  match type of E with
  | match ?s with [] => None | _ :: _ => _ end = Some _ =>
      let c := fresh "c" in destruct s as [| c s]; [discriminate E |]
  end;
  match type of E with
  | (if ?b then _ else _) = Some _ =>
      let H := fresh "Hc" in destruct b eqn:H; [| discriminate E]
  end.

Ltac head_rej H :=
  rewrite has_match_rej_head
    by (rewrite (rej_head_ci _ _ H); reflexivity).

Lemma has_brand_after_arch (s r : list ascii) :
  match_seq (ci "Arch_") s = Some r -> has_brand s = has_brand r.
Proof.
  intros E. unfold ci in E. cbn [lit list_ascii_of_string map match_seq] in E.
  do 5 peel E. injection E as <-.
  rewrite has_brand_single by (rewrite (rej_ci _ _ Hc0); reflexivity).
  unfold has_brand. head_rej Hc1. head_rej Hc2. head_rej Hc3. reflexivity.
Qed.

Lemma has_brand_after_res (s r : list ascii) :
  match_seq (ci "Res_") s = Some r -> has_brand s = has_brand r.
Proof.
  intros E. unfold ci in E. cbn [lit list_ascii_of_string map match_seq] in E.
  do 4 peel E. injection E as <-.
  unfold has_brand. head_rej Hc. head_rej Hc0. head_rej Hc1. head_rej Hc2.
  reflexivity.
Qed.

Lemma has_brand_strip_title_prefix (s : list ascii) :
  has_brand (strip_head title_prefixes s) = has_brand s.
Proof.
  unfold strip_head, title_prefixes. cbn [match_alt].
  destruct (match_seq (ci "Arch_") s) eqn:E1.
  - symmetry. now apply has_brand_after_arch.
  - destruct (match_seq (ci "Res_") s) eqn:E2; [| reflexivity].
    symmetry. now apply has_brand_after_res.
Qed.

Lemma cleanTitle_keeps_brand (raw : list ascii) :
  has_brand (last_segment raw) = true -> has_brand (cleanTitle raw) = true.
Proof.
  intros H. unfold cleanTitle.
  set (s4 := trim_seps _).
  assert (H4 : has_brand s4 = true).
  { subst s4. rewrite has_brand_trim. unfold has_brand at 1.
    rewrite has_match_collapse.
    - fold (has_brand (strip_num_suffix
                         (strip_head title_prefixes (last_segment raw)))).
      now rewrite has_brand_strip_num_suffix, has_brand_strip_title_prefix.
    - reflexivity.
    - apply underscore_rej_brands. }
  destruct s4; [discriminate H4 | exact H4].
Qed.

(** ** The extension [path.extname] returns *)

Lemma ext_step_inv (p : list ascii) (i : nat) (c : ascii) (st : ext_state) :
  nth_error p i = Some c ->
  ext_inv p (S i) st -> ext_inv p i (ext_step i c st).
Proof.
  intros Hc [He Hd]. unfold ext_step.
  assert (Hlt : forall e, ext_end st = Some e -> i < e)
    by (intros e H; specialize (He e H); lia).
  destruct (stopped st); [split; auto |].
  destruct (is_slash c).
  { destruct (negb (matchedSlash st)); split; simpl; auto. }
  destruct (is_dot c) eqn:Edot.
  - apply Ascii.eqb_eq in Edot. subst c.
    destruct (startDot st) as [d0 |] eqn:Es; split; simpl.
    + intros e H. destruct (ext_end st) eqn:Ee; inversion H; subst;
        [apply Hlt; reflexivity | lia].
    + intros d [= <-]. destruct (Hd d0 eq_refl) as (Hn & e & Hee & Hde).
      split; [assumption |]. rewrite Hee. eauto.
    + intros e H. destruct (ext_end st) eqn:Ee; inversion H; subst;
        [apply Hlt; reflexivity | lia].
    + intros d [= <-]. split; [assumption |].
      destruct (ext_end st) as [e0 |] eqn:Ee.
      * exists e0. split; [reflexivity | now apply Hlt].
      * exists (i + 1). split; [reflexivity | lia].
  - destruct (startDot st) as [d0 |] eqn:Es; split; simpl.
    + intros e H. destruct (ext_end st) eqn:Ee; inversion H; subst;
        [apply Hlt; reflexivity | lia].
    + intros d [= <-]. destruct (Hd d0 eq_refl) as (Hn & e & Hee & Hde).
      split; [assumption |]. rewrite Hee. eauto.
    + intros e H. destruct (ext_end st) eqn:Ee; inversion H; subst;
        [apply Hlt; reflexivity | lia].
    + discriminate.
Qed.

Lemma ext_loop_inv (p : list ascii) :
  forall (pre suf : list ascii) (st : ext_state),
    p = pre ++ suf ->
    ext_inv p (length pre) st ->
    ext_inv p 0 (ext_loop (rev pre) st).
Proof.
  induction pre as [| c pre IH] using rev_ind; intros suf st Hp Hinv.
  - exact Hinv.
  - rewrite rev_app_distr. simpl. rewrite length_rev.
    apply (IH (c :: suf)).
    + now rewrite Hp, <- app_assoc.
    + apply ext_step_inv.
      * rewrite Hp, <- app_assoc. simpl.
        rewrite nth_error_app2 by lia. now rewrite Nat.sub_diag.
      * rewrite length_app in Hinv. simpl in Hinv.
        now rewrite Nat.add_1_r in Hinv.
Qed.

Lemma extname_shape (p : list ascii) :
  extname p = [] \/ exists e, extname p = "."%char :: e.
Proof.
  unfold extname.
  assert (Hinv : ext_inv p 0 (ext_loop (rev p) ext_init)).
  { apply (ext_loop_inv p p []).
    - now rewrite app_nil_r.
    - split; simpl; intros; discriminate. }
  destruct Hinv as [_ Hd].
  destruct (startDot (ext_loop (rev p) ext_init)) as [d |]; [| now left].
  destruct (Hd d eq_refl) as (Hn & e & -> & Hde).
  match goal with |- context [if ?b then _ else _] => destruct b end;
    [now left |].
  right. unfold slice.
  destruct (nth_error_split _ _ Hn) as (l1 & l2 & -> & <-).
  rewrite skipn_app, Nat.sub_diag, skipn_all.
  destruct (e - length l1) as [| k] eqn:Ek; [lia |].
  simpl. eauto.
Qed.

(** ** rename.js: [cleanName] *)

Lemma match_alt_nil (ps : list pat) :
  Forall (fun p => p <> []) ps -> match_alt ps [] = None.
Proof.
  induction 1 as [| p ps Hp _ IH]; [reflexivity |]. simpl.
  destruct p as [| f p]; [congruence | exact IH].
Qed.

Lemma match_width_alt (ps : list pat) (s : list ascii) :
  match match_width ps s with
  | Some w => match_alt ps s = Some (skipn w s)
              /\ exists p, In p ps /\ w = length p
  | None => match_alt ps s = None
  end.
Proof.
  induction ps as [| p ps IH]; simpl; [reflexivity |].
  destruct (match_seq p s) as [r |] eqn:E.
  - destruct (match_seq_split _ _ _ E) as (m & -> & Hl). split.
    + rewrite <- Hl. now rewrite drop_app_length.
    + exists p. auto.
  - destruct (match_width ps s) as [w |]; [| exact IH].
    destruct IH as [H (q & Hq & Hw)]. split; [exact H |].
    exists q. auto.
Qed.

Lemma delete_all_skip (ps : list pat) (s : list ascii) :
  forall n, delete_all ps n s = delete_all ps 0 (skipn n s).
Proof.
  induction s as [| c t IH]; intros [| n]; try reflexivity.
  simpl. apply IH.
Qed.

Lemma delimited_suffix (ps : list pat) (a b : list ascii) :
  delimited ps (a ++ b) = true -> delimited ps b = true.
Proof.
  induction a as [| c a IH]; [auto |]. simpl.
  intros H. apply andb_true_iff in H. tauto.
Qed.

(** Where every token is followed by a unit that is no part of a token,
    the deletion of the tokens joins no two pieces into a new token. *)
Lemma delete_all_delimited (ps : list pat) :
  Forall (fun p => p <> []) ps ->
  forall n s,
    length s <= n -> delimited ps s = true ->
    has_match ps (delete_all ps 0 s) = false
    /\ exists k u tail,
         s = k ++ u /\ delete_all ps 0 s = k ++ tail
         /\ (tail = [] \/ exists r e, tail = r :: e /\ rej ps r = true).
Proof.
  intros Hps. induction n as [| n IH]; intros s Hn Hd.
  - destruct s; [| simpl in Hn; lia]. simpl.
    rewrite (match_alt_nil ps Hps). split; [reflexivity |].
    exists [], [], []. auto.
  - destruct s as [| c t].
    + simpl. rewrite (match_alt_nil ps Hps). split; [reflexivity |].
      exists [], [], []. auto.
    + simpl in Hn. cbn [delimited] in Hd.
      apply andb_true_iff in Hd. destruct Hd as [Hhead Ht].
      pose proof (match_width_alt ps (c :: t)) as Hw.
      cbn [delete_all].
      destruct (match_width ps (c :: t)) as [[| w] |].
      * destruct Hw as [_ (p & Hp & Hl)].
        rewrite Forall_forall in Hps.
        apply list_elem_of_In in Hp. specialize (Hps p Hp).
        destruct p; [congruence | discriminate].
      * destruct Hw as [Hm _]. cbn [skipn] in Hm. rewrite Hm in Hhead.
        rewrite delete_all_skip.
        assert (Hb : delimited ps (skipn w t) = true).
        { apply (delimited_suffix ps (firstn w t)).
          now rewrite firstn_skipn. }
        assert (Hl : length (skipn w t) <= n)
          by (rewrite length_skipn; lia).
        destruct (IH _ Hl Hb) as [Hno _]. split; [exact Hno |].
        exists [], (c :: t), (delete_all ps 0 (skipn w t)).
        split; [reflexivity |]. split; [reflexivity |].
        destruct (skipn w t) as [| r b']; [now left |].
        right. cbn [delete_all].
        pose proof (match_width_alt ps (r :: b')) as Hr.
        rewrite (rej_head_alt ps r b' (rej_rej_head ps r Hhead)) in Hr.
        destruct (match_width ps (r :: b')) as [w' |].
        -- destruct Hr as [Hr _]. discriminate.
        -- eauto.
      * assert (Hl : length t <= n) by lia.
        destruct (IH _ Hl Ht) as [Hno (k & u & tail & Hk & Ho & Htail)].
        assert (Hck : match_alt ps (c :: k) = None).
        { destruct (match_alt ps (c :: k)) as [r |] eqn:E; [| reflexivity].
          destruct (match_alt_app ps (c :: k) r u E) as [r' Hr'].
          simpl in Hr'. rewrite <- Hk in Hr'. congruence. }
        assert (Hout : match_alt ps (c :: delete_all ps 0 t) = None).
        { rewrite Ho. destruct Htail as [-> | (r & e & -> & Hr)].
          - now rewrite app_nil_r.
          - apply (match_alt_cut ps r (c :: k) e Hr Hck). }
        split.
        -- simpl. now rewrite Hout.
        -- exists (c :: k), u, tail. rewrite Ho, Hk. auto.
Qed.

Lemma has_brand_delete (s : list ascii) :
  delimited brands s = true ->
  has_brand (delete_all brands 0 s) = false.
Proof.
  intros H. unfold has_brand.
  apply (delete_all_delimited brands) with (n := length s); auto.
  repeat constructor; discriminate.
Qed.

Lemma delimited_strip_head (ps qs : list pat) (s : list ascii) :
  delimited ps s = true -> delimited ps (strip_head qs s) = true.
Proof.
  unfold strip_head. destruct (match_alt qs s) as [r |] eqn:E; [| auto].
  destruct (match_alt_split _ _ _ E) as [m ->]. apply delimited_suffix.
Qed.

Lemma clean_base_no_brand (base : list ascii) :
  has_brand (delete_all brands 0 (strip_head name_prefixes base)) = false ->
  has_brand (clean_base base) = false.
Proof.
  intros H. unfold clean_base. rewrite has_brand_trim. unfold has_brand.
  rewrite has_match_collapse;
    [| reflexivity | exact sep_rej_brands].
  destruct (strip_tail_prefix name_sizes
              (delete_all brands 0 (strip_head name_prefixes base)))
    as [b Hb].
  apply (has_match_infix brands [] _ b). simpl. now rewrite <- Hb.
Qed.

(** C1 (defect of the code).  [cleanName] is not idempotent: each rule is
    applied once, so a prefix uncovered by the first application is only
    removed by the second.  The directory name "Arch_Res_Compute" becomes
    "Res_Compute", and that becomes "Compute". *)
Theorem cleanName_twice_differs :
  cleanName (lit "Arch_Res_Compute") false = lit "Res_Compute"
  /\ cleanName (cleanName (lit "Arch_Res_Compute") false) false
     = lit "Compute"
  /\ cleanName (cleanName (lit "Arch_Res_Compute") false) false
     <> cleanName (lit "Arch_Res_Compute") false.
Proof. vm_compute. repeat split; discriminate. Qed.

(** C2 (defect of the code).  For the file name "AWS.svg" the cleaned base
    is empty and the fallback [base = name] puts the whole name, extension
    included, in front of the extension: the result is "AWS.svg.svg", not
    the original name. *)
Theorem cleanName_fallback_doubles_extension :
  clean_base (name_base (lit "AWS.svg") true) = []
  /\ cleanName (lit "AWS.svg") true = lit "AWS.svg.svg"
  /\ cleanName (lit "AWS.svg") true <> lit "AWS.svg".
Proof. vm_compute. repeat split; discriminate. Qed.

(** C3, the claim as stated fails: the directory name "AWS" keeps its
    brand token under the filename rule (the fallback returns the name),
    "xAAWSWS" ends as a name that contains "AWS", "x.aws" keeps the token
    in its extension, and the title "AWS/x" loses the token under the
    title rule (only the last path segment is kept). *)
Lemma brand_rules_counterexample :
  (has_brand (lit "AWS") = true
   /\ has_brand (cleanName (lit "AWS") false) = true)
  /\ (has_brand (lit "xAAWSWS") = true
      /\ has_brand (cleanName (lit "xAAWSWS") false) = true)
  /\ (has_brand (lit "x.aws") = true
      /\ has_brand (cleanName (lit "x.aws") true) = true)
  /\ (has_brand (lit "AWS/x") = true
      /\ has_brand (cleanTitle (lit "AWS/x")) = false).
Proof. vm_compute. repeat split. Qed.

(** C3, amended.  The title rule keeps a brand token whenever the last
    path segment of the title has one.  The filename rule yields a name
    without brand token whenever the cleaned base is not empty, the
    extension has no brand token, and in the base of the name every brand
    token is followed by a unit that is no letter of a brand token (a
    separator, a digit, a dot) or by the end: then the deletion of the
    tokens joins no two pieces into a new token. *)
Theorem brand_rules (name : list ascii) (isFile : bool) :
  (has_brand (last_segment name) = true ->
   has_brand (cleanTitle name) = true)
  /\ (clean_base (name_base name isFile) <> [] ->
      has_brand (name_ext name isFile) = false ->
      delimited brands (name_base name isFile) = true ->
      has_brand (cleanName name isFile) = false).
Proof.
  split; [apply cleanTitle_keeps_brand |].
  intros Hne Hext Hdel.
  apply (delimited_strip_head brands name_prefixes) in Hdel.
  apply has_brand_delete, clean_base_no_brand in Hdel.
  unfold cleanName.
  destruct (clean_base (name_base name isFile)) as [| c b] eqn:Eb;
    [congruence |].
  destruct isFile; [| exact Hdel].
  unfold name_ext in *.
  destruct (extname_shape name) as [E | [e E]]; rewrite E in *.
  - now rewrite app_nil_r.
  - unfold has_brand in *. rewrite has_match_cut by reflexivity.
    rewrite Hdel. simpl.
    rewrite has_match_rej_head in Hext by reflexivity. exact Hext.
Qed.

Lemma brand_rules_witness :
  has_brand (cleanTitle (lit "Arch_Amazon-EC2_48.svg")) = true
  /\ has_brand (cleanName (lit "Arch_Amazon-EC2_48.svg") true) = false.
Proof.
  destruct (brand_rules (lit "Arch_Amazon-EC2_48.svg") true) as [Ht Hn].
  split.
  - apply Ht. vm_compute. reflexivity.
  - apply Hn; vm_compute; [discriminate | reflexivity | reflexivity].
Defined.

(** ** String tests *)

Lemma startsWith_spec (p s : list ascii) :
  startsWith p s = true <-> exists b, s = p ++ b.
Proof.
  revert s. induction p as [| a p IH]; intros s; simpl.
  - split; eauto.
  - destruct s as [| c s].
    + split; [discriminate | intros [b Hb]; discriminate].
    + rewrite andb_true_iff, Ascii.eqb_eq, IH. split.
      * intros [-> [b ->]]. eauto.
      * intros [b [= -> ->]]. eauto.
Qed.

Lemma endsWith_spec (p s : list ascii) :
  endsWith p s = true <-> has_suffix s p.
Proof.
  unfold endsWith, has_suffix. rewrite startsWith_spec. split.
  - intros [b Hb]. exists (rev b).
    rewrite <- (rev_involutive s), Hb, rev_app_distr.
    now rewrite rev_involutive.
  - intros [a ->]. exists (rev a). apply rev_app_distr.
Qed.

Lemma includes_spec (s p : list ascii) :
  includes s p = true <-> contains s p.
Proof.
  unfold contains. induction s as [| c s IH]; simpl.
  - rewrite orb_false_r, startsWith_spec. split.
    + intros [b Hb]. exists [], b. exact Hb.
    + intros (a & b & H). destruct a; [eauto |]. discriminate.
  - rewrite orb_true_iff, startsWith_spec, IH. split.
    + intros [[b Hb] | (a & b & ->)].
      * exists [], b. exact Hb.
      * exists (c :: a), b. reflexivity.
    + intros (a & b & H). destruct a as [| x a].
      * left. eauto.
      * right. injection H as -> ->. eauto.
Qed.

Lemma str_in_spec (x : list ascii) (l : list (list ascii)) :
  str_in x l = true <-> In x l.
Proof.
  unfold str_in. rewrite existsb_exists. split.
  - intros (y & Hy & E). apply str_eqb_true in E. now subst.
  - intros H. exists x. split; [assumption | apply str_eqb_refl].
Qed.

Lemma find_first {A} (f : A -> bool) (pre : list A) (x : A) (post : list A) :
  (forall y, In y pre -> f y = false) -> f x = true ->
  List.find f (pre ++ x :: post) = Some x.
Proof.
  induction pre as [| y pre IH]; intros Hpre Hx; simpl.
  - now rewrite Hx.
  - rewrite (Hpre y) by now left. apply IH; auto.
    intros z Hz. apply Hpre. now right.
Qed.

Lemma find_none_all {A} (f : A -> bool) (l : list A) :
  (forall y, In y l -> f y = false) -> List.find f l = None.
Proof.
  induction l as [| y l IH]; intros H; simpl; [reflexivity |].
  rewrite (H y) by now left. apply IH. intros z Hz. apply H. now right.
Qed.

(** ** restructure.js: the alias tables *)

Lemma related_test (x k : list ascii) :
  includes x k || includes k x = true <-> related x k.
Proof.
  unfold related. now rewrite orb_true_iff, !includes_spec.
Qed.

Lemma related_test_false (x k : list ascii) :
  ~ related x k -> includes x k || includes k x = false.
Proof.
  intros H. destruct (includes x k || includes k x) eqn:E; [| reflexivity].
  apply related_test in E. contradiction.
Qed.

Lemma autoAlias_step_lookup (resKeys : list (list ascii))
    (acc : gmap (list ascii) (list ascii)) (k0 k : list ascii) :
  autoAlias_step resKeys acc k0 !! k =
  if decide (k0 = k)
  then match inferred resKeys k with
       | Some v => Some v
       | None => acc !! k
       end
  else acc !! k.
Proof.
  unfold autoAlias_step, inferred. destruct (decide (k0 = k)) as [-> | Hne].
  - destruct (str_in k resKeys); [reflexivity |]. simpl.
    destruct (find_hit k resKeys) as [[| c h] |]; try reflexivity.
    apply lookup_insert_eq.
  - destruct (negb (str_in k0 resKeys)); [| reflexivity].
    destruct (find_hit k0 resKeys) as [[| c h] |]; try reflexivity.
    now apply lookup_insert_ne.
Qed.

Lemma autoAlias_fold_lookup (resKeys archKeys : list (list ascii))
    (acc : gmap (list ascii) (list ascii)) (k : list ascii) :
  fold_left (autoAlias_step resKeys) archKeys acc !! k =
  match inferred resKeys k with
  | Some v => if str_in k archKeys then Some v else acc !! k
  | None => acc !! k
  end.
Proof.
  revert acc. induction archKeys as [| k0 ks IH]; intros acc; simpl.
  - now destruct (inferred resKeys k).
  - rewrite IH, autoAlias_step_lookup. unfold str_eqb.
    destruct (decide (k = k0)) as [-> | Hne].
    + rewrite decide_True by reflexivity. simpl.
      destruct (inferred resKeys k0); [| reflexivity].
      now destruct (str_in k0 ks).
    + rewrite decide_False by congruence. reflexivity.
Qed.

Lemma autoAlias_lookup (archKeys resKeys : list (list ascii))
    (k : list ascii) :
  autoAlias archKeys resKeys !! k =
  if str_in k archKeys then inferred resKeys k else None.
Proof.
  unfold autoAlias. rewrite autoAlias_fold_lookup, lookup_empty.
  destruct (inferred resKeys k), (str_in k archKeys); reflexivity.
Qed.

(** C4.  A slug that has both an inferred alias and an entry of the manual
    table is mapped by [alias] to the target of the manual entry. *)
Theorem alias_manual_wins (archKeys resKeys : list (list ascii))
    (k a t : list ascii) :
  autoAlias archKeys resKeys !! k = Some a ->
  manualAlias !! k = Some t ->
  alias archKeys resKeys !! k = Some t.
Proof.
  intros _ Hm. unfold alias. now apply lookup_union_Some_l.
Qed.

Lemma alias_manual_wins_witness :
  let archKeys := map_keys (archCats [Dir (lit "Arch_IoT") []]) in
  let resKeys := map_keys (resCats [Dir (lit "Res_IoT-Things") []]) in
  autoAlias archKeys resKeys !! lit "iot" = Some (lit "iotthings")
  /\ alias archKeys resKeys !! lit "iot" = Some (lit "internetofthings").
Proof.
  intros archKeys resKeys.
  assert (Ha : autoAlias archKeys resKeys !! lit "iot"
               = Some (lit "iotthings")) by (vm_compute; reflexivity).
  split; [exact Ha |].
  apply (alias_manual_wins archKeys resKeys (lit "iot") (lit "iotthings")).
  - exact Ha.
  - vm_compute. reflexivity.
Defined.

(** C5, the claim as stated fails: with the resource directories "Res_-"
    and "Res_Compute-Services" the first resource slug that is related to
    the architecture slug "compute" is the empty slug of "Res_-"; the test
    [if (hit)] takes the empty string for no hit and nothing is recorded. *)
Lemma autoAlias_counterexample :
  let archKeys := map_keys (archCats [Dir (lit "Arch_Compute") []]) in
  let resKeys :=
    map_keys (resCats [Dir (lit "Res_-") [];
                       Dir (lit "Res_Compute-Services") []]) in
  archKeys = [lit "compute"]
  /\ resKeys = [[]; lit "computeservices"]
  /\ str_in (lit "compute") resKeys = false
  /\ includes (lit "compute") [] = true
  /\ autoAlias archKeys resKeys !! lit "compute" = None.
Proof. vm_compute. repeat split. Qed.

(** C5, amended.  For an architecture slug [k] that is no resource slug,
    [autoAlias] records the first resource slug, in the order of the map,
    that contains [k] or is contained in [k], provided that slug is not
    empty; it records nothing when that first slug is empty and when no
    resource slug is related to [k]. *)
Theorem autoAlias_first_match (archKeys resKeys : list (list ascii))
    (k : list ascii) :
  In k archKeys -> ~ In k resKeys ->
  (forall pre hit post,
      resKeys = pre ++ hit :: post ->
      (forall x, In x pre -> ~ related x k) ->
      related hit k ->
      autoAlias archKeys resKeys !! k
      = match hit with [] => None | _ => Some hit end)
  /\ ((forall x, In x resKeys -> ~ related x k) ->
      autoAlias archKeys resKeys !! k = None).
Proof.
  intros Hk Hnk.
  assert (Ha : str_in k archKeys = true) by now apply str_in_spec.
  assert (Hr : str_in k resKeys = false).
  { destruct (str_in k resKeys) eqn:E; [| reflexivity].
    apply str_in_spec in E. contradiction. }
  rewrite autoAlias_lookup, Ha. unfold inferred. rewrite Hr.
  split.
  - intros pre hit post -> Hpre Hhit. unfold find_hit.
    rewrite find_first.
    + now destruct hit.
    + intros y Hy. apply related_test_false. auto.
    + now apply related_test.
  - intros Hnone. unfold find_hit. rewrite find_none_all; [reflexivity |].
    intros y Hy. apply related_test_false. auto.
Qed.

Lemma autoAlias_first_match_witness :
  let archKeys := map_keys (archCats [Dir (lit "Arch_Database") []]) in
  let resKeys :=
    map_keys (resCats [Dir (lit "Res_Compute") [];
                       Dir (lit "Res_Databases") []]) in
  autoAlias archKeys resKeys !! lit "database" = Some (lit "databases").
Proof.
  intros archKeys resKeys.
  assert (Hk : In (lit "database") archKeys) by (vm_compute; auto).
  assert (Hn : ~ In (lit "database") resKeys).
  { intros H. apply str_in_spec in H. vm_compute in H. discriminate H. }
  destruct (autoAlias_first_match archKeys resKeys (lit "database") Hk Hn)
    as [Hfirst _].
  apply (Hfirst [lit "compute"] (lit "databases") []).
  - vm_compute. reflexivity.
  - intros x [<- | []] Hx. apply related_test in Hx. vm_compute in Hx.
    discriminate Hx.
  - apply related_test. vm_compute. reflexivity.
Defined.

(** ** restructure.js: [matchesSize] *)

Lemma split_on_after (sep : ascii -> bool) (a : list ascii) (c : ascii)
    (b : list ascii) :
  sep c = true ->
  exists h l, split_on sep (a ++ c :: b) = h :: l ++ split_on sep b.
Proof.
  intros Hc. induction a as [| y a (h & l & IH)]; simpl.
  - rewrite Hc. exists [], []. reflexivity.
  - rewrite IH. destruct (sep y).
    + exists [], (h :: l). reflexivity.
    + exists (y :: h), l. reflexivity.
Qed.

Lemma split_on_head (sep : ascii -> bool) (x : list ascii) (c : ascii)
    (b : list ascii) :
  Forall (fun y => sep y = false) x -> sep c = true ->
  split_on sep (x ++ c :: b) = x :: split_on sep b.
Proof.
  intros Hx Hc. induction Hx as [| y x Hy Hx IH]; simpl.
  - now rewrite Hc.
  - now rewrite Hy, IH.
Qed.

(** C10.  For a path whose lower-cased extension is an allowed format,
    [matchesSize] accepts exactly when the lower-cased base name ends with
    "_<size>.<ext>" or a component of the path is the size label; so a
    file below a directory named by the size label is accepted whatever
    its base name. *)
Theorem matchesSize_disjunction (cfg : config) (fp : list ascii) :
  In (toLowerCase (skipn 1 (extname fp))) (formats cfg) ->
  (matchesSize cfg fp = true <->
     has_suffix (toLowerCase (basename fp))
       (lit "_" ++ size cfg ++ lit "."
          ++ toLowerCase (skipn 1 (extname fp)))
     \/ In (size cfg) (split_on is_slash fp))
  /\ (forall dir rest,
        Forall (fun c => is_slash c = false) (size cfg) ->
        fp = dir ++ lit "/" ++ size cfg ++ lit "/" ++ rest ->
        matchesSize cfg fp = true).
Proof.
  intros Hext. apply str_in_spec in Hext.
  assert (Hiff : matchesSize cfg fp = true <->
     has_suffix (toLowerCase (basename fp))
       (lit "_" ++ size cfg ++ lit "."
          ++ toLowerCase (skipn 1 (extname fp)))
     \/ In (size cfg) (split_on is_slash fp)).
  { unfold matchesSize. rewrite Hext. simpl negb. cbv iota.
    rewrite <- endsWith_spec, <- str_in_spec.
    destruct (endsWith _ _); [| destruct (str_in _ _)]; intuition congruence. }
  split; [exact Hiff |].
  intros dir rest Hsize ->. apply Hiff. right.
  change (lit "/" ++ size cfg ++ lit "/" ++ rest)
    with ("/"%char :: size cfg ++ "/"%char :: rest).
  destruct (split_on_after is_slash dir "/"
              (size cfg ++ "/"%char :: rest) eq_refl) as (h & l & ->).
  rewrite split_on_head by (auto; reflexivity).
  right. apply in_or_app. right. now left.
Qed.

Lemma matchesSize_disjunction_witness :
  let cfg := {| dryRun := false; size := lit "48"; formats := [lit "svg"];
                concurrency := 4; allowUnmatched := false;
                dest := lit "/out" |} in
  matchesSize cfg (lit "/raw/Arch_Compute/48/EC2.svg") = true.
Proof.
  intros cfg.
  assert (Hext : In (toLowerCase
                       (skipn 1 (extname (lit "/raw/Arch_Compute/48/EC2.svg"))))
                    (formats cfg)) by (vm_compute; auto).
  destruct (matchesSize_disjunction cfg
              (lit "/raw/Arch_Compute/48/EC2.svg") Hext) as [_ Hdir].
  apply (Hdir (lit "/raw/Arch_Compute") (lit "EC2.svg")).
  - vm_compute. repeat constructor.
  - vm_compute. reflexivity.
Defined.

(** ** svg-title.js: the title element *)

Lemma match_seq_exact (p : pat) (s r : list ascii) :
  match_seq p s = Some r ->
  exists o, s = o ++ r /\ length o = length p /\ matches p o.
Proof.
  unfold matches. revert s. induction p as [| f p IH]; intros s H; simpl in H.
  - exists []. inversion H. auto.
  - destruct s as [| c s]; [discriminate |].
    destruct (f c) eqn:Ef; [| discriminate].
    destruct (IH _ H) as (o & -> & Hl & Ho).
    exists (c :: o). simpl. rewrite Ef. auto.
Qed.

Lemma find_seq_some (p : pat) (s b a : list ascii) :
  find_seq p s = Some (b, a) ->
  exists o, s = b ++ o ++ a /\ length o = length p /\ matches p o.
Proof.
  revert b. induction s as [| c s IH]; intros b; simpl.
  - destruct (match_seq p []) eqn:E; [| discriminate].
    intros [= <- <-]. destruct (match_seq_exact _ _ _ E) as (o & Ho & Hl & Hm).
    exists o. auto.
  - destruct (match_seq p (c :: s)) eqn:E.
    + intros [= <- <-].
      destruct (match_seq_exact _ _ _ E) as (o & Ho & Hl & Hm).
      exists o. auto.
    + destruct (find_seq p s) as [[b' a'] |] eqn:Ef; [| discriminate].
      intros [= <- <-]. destruct (IH b' eq_refl) as (o & -> & Hl & Hm).
      exists o. auto.
Qed.

Lemma find_seq_first (p : pat) (s : list ascii) :
  forall a o z, s = a ++ o ++ z -> matches p o ->
  exists b r, find_seq p s = Some (b, r) /\ length b <= length a.
Proof.
  unfold matches. induction s as [| c s IH]; intros a o z Hs Ho.
  - destruct a; [| discriminate]. simpl in Hs.
    symmetry in Hs. apply app_eq_nil in Hs. destruct Hs as [-> ->].
    simpl. rewrite Ho. exists [], []. auto.
  - simpl. destruct (match_seq p (c :: s)) eqn:E.
    + exists [], l. split; [reflexivity | simpl; lia].
    + destruct a as [| x a].
      * simpl in Hs. rewrite Hs, (match_seq_app _ _ _ z Ho) in E.
        discriminate.
      * injection Hs as -> Hs.
        destruct (IH a o z Hs Ho) as (b & r & -> & Hle).
        exists (x :: b), r. split; [reflexivity | simpl; lia].
Qed.

Lemma app_suffix_of {A} (l1 r1 l2 r2 : list A) :
  l1 ++ r1 = l2 ++ r2 -> length l1 <= length l2 ->
  exists x, r1 = x ++ r2.
Proof.
  revert l2. induction l1 as [| a l1 IH]; intros l2 H Hle.
  - exists l2. exact H.
  - destruct l2 as [| b l2]; [simpl in Hle; lia |].
    injection H as -> H. apply (IH l2 H). simpl in Hle. lia.
Qed.

Lemma match_title_sound (data : list ascii) (m : title_match) :
  match_title data = Some m ->
  data = tm_before m ++ tm_matched m ++ tm_after m
  /\ exists o c, tm_matched m = o ++ tm_inner m ++ c
                 /\ matches (ci "<title>") o /\ matches (ci "</title>") c.
Proof.
  unfold match_title.
  destruct (find_seq (ci "<title>") data) as [[pre rest] |] eqn:E1;
    [| discriminate].
  destruct (find_seq (ci "</title>") rest) as [[inner post] |] eqn:E2;
    [| discriminate].
  intros [= <-]. simpl.
  destruct (find_seq_some _ _ _ _ E1) as (o & Hd & _ & Ho).
  destruct (find_seq_some _ _ _ _ E2) as (c & Hr & _ & Hc).
  assert (Hm : slice (length pre) (length data - length post) data
               = o ++ inner ++ c).
  { unfold slice. rewrite Hd, Hr, drop_app_length.
    replace (length (pre ++ o ++ (inner ++ c ++ post)) - length post
             - length pre)
      with (length (o ++ inner ++ c)) by (rewrite !length_app; lia).
    replace (o ++ (inner ++ c ++ post)) with ((o ++ inner ++ c) ++ post)
      by now rewrite <- !app_assoc.
    apply take_app_length. }
  rewrite Hm. split.
  - rewrite Hd, Hr. now rewrite <- !app_assoc.
  - exists o, c. auto.
Qed.

Lemma match_title_none (data : list ascii) :
  match_title data = None <-> ~ has_title_element data.
Proof.
  split.
  - intros Hn (a & o & i & c & z & Hd & Ho & Hc).
    unfold match_title in Hn.
    destruct (find_seq_first _ _ a o (i ++ c ++ z) Hd Ho)
      as (pre & rest & E1 & Hle).
    rewrite E1 in Hn.
    destruct (find_seq_some _ _ _ _ E1) as (o' & Hd' & Hl' & _).
    assert (Hlo : length o = length (ci "<title>")).
    { destruct (match_seq_exact _ _ _ Ho) as (o2 & Ho2 & Hl2 & _).
      rewrite app_nil_r in Ho2. now subst o2. }
    assert (Hx : exists x, rest = x ++ c ++ z).
    { destruct (app_suffix_of (pre ++ o') rest (a ++ o ++ i) (c ++ z))
        as [x Hx].
      - rewrite <- !app_assoc. now rewrite <- Hd', <- Hd.
      - rewrite !length_app. lia.
      - eauto. }
    destruct Hx as [x Hx].
    destruct (find_seq_first _ _ x c z Hx Hc) as (b & r & E2 & _).
    rewrite E2 in Hn. discriminate.
  - intros Hn. destruct (match_title data) as [m |] eqn:E; [| reflexivity].
    exfalso. apply Hn.
    destruct (match_title_sound _ _ E) as (Hd & o & c & Hm & Ho & Hc).
    exists (tm_before m), o, (tm_inner m), c, (tm_after m).
    split; [| auto]. rewrite Hd, Hm. now rewrite <- !app_assoc.
Qed.

(** ** svg-title.js: [processSvg] *)

(** C7, the claim as stated fails: in a dry run a file whose title differs
    from its cleaned form is logged and not rewritten. *)
Lemma processSvg_counterexample :
  let data := lit "<svg><title>Arch_EC2</title></svg>" in
  let fs : gmap (list ascii) (list ascii) := {[ lit "a.svg" := data ]} in
  title_differs data = true
  /\ processSvg true (fun _ => true) (lit "a.svg") fs
     = Some (fs, DryLogged (lit "Arch_EC2") (lit "EC2")).
Proof. vm_compute. split; reflexivity. Qed.

(** C7, amended.  [processSvg] on a file that can be read rejects in one
    case only: in a live run, when the title differs from its cleaned form
    and the file cannot be written.  When it completes: in a live run the
    file is rewritten exactly when it has a title (the first match of the
    title pattern) whose trimmed text differs from its cleaned form, and
    then the first title element is what is replaced; a dry run rewrites
    nothing.  A file that is not rewritten is left as it is: so is a file
    with no title element, and a file whose trimmed title is its cleaned
    form. *)
Theorem processSvg_conditional_rewrite (dry : bool)
    (writable : list ascii -> bool) (fp : list ascii)
    (fs : gmap (list ascii) (list ascii)) (data : list ascii) :
  fs !! fp = Some data ->
  (processSvg dry writable fp fs = None <->
   dry = false /\ title_differs data = true /\ writable fp = false)
  /\ (forall fs' o,
        processSvg dry writable fp fs = Some (fs', o) ->
        (dry = false -> (rewritten o = true <-> title_differs data = true))
        /\ (dry = true -> rewritten o = false)
        /\ (rewritten o = false -> fs' = fs)
        /\ (~ has_title_element data -> o = NoTitle /\ fs' = fs)
        /\ (forall m, match_title data = Some m ->
              js_trim (tm_inner m) = cleanTitle (js_trim (tm_inner m)) ->
              o = AlreadyClean /\ fs' = fs)
        /\ (rewritten o = true ->
              exists m, match_title data = Some m
                /\ fs' = <[fp := replace_title m
                                   (lit "<title>"
                                      ++ cleanTitle (js_trim (tm_inner m))
                                      ++ lit "</title>")]> fs)).
Proof.
  intros Hfp. unfold processSvg, title_differs. rewrite Hfp.
  destruct (match_title data) as [m |] eqn:Em.
  - assert (Hno : ~ has_title_element data -> False).
    { intros Hn. apply match_title_none in Hn. congruence. }
    destruct (str_eqb (js_trim (tm_inner m))
                (cleanTitle (js_trim (tm_inner m)))) eqn:Eq.
    + split; [split; [discriminate | intros (_ & H & _); discriminate] |].
      intros fs' o [= <- <-]. simpl.
      repeat split; auto; try discriminate; try (exfalso; auto; fail).
    + apply str_eqb_false in Eq.
      assert (Hcl : forall m' : title_match, Some m = Some m' ->
                js_trim (tm_inner m') = cleanTitle (js_trim (tm_inner m')) ->
                False).
      { intros m' [= <-] Hc. contradiction. }
      destruct dry.
      * split; [split; [discriminate | intros (H & _); discriminate] |].
        intros fs' o [= <- <-]. simpl.
        repeat split; auto; try discriminate;
          try (exfalso; eauto; fail).
      * destruct (writable fp) eqn:Ew.
        -- split; [split; [discriminate | intros (_ & _ & H); discriminate] |].
           intros fs' o [= <- <-]. simpl.
           repeat split; auto; try discriminate;
             try (exfalso; eauto; fail).
           exists m. auto.
        -- split; [split; auto | discriminate].
  - split; [split; [discriminate | intros (_ & H & _); discriminate] |].
    intros fs' o [= <- <-]. simpl. repeat split; auto; try discriminate.
Qed.

Lemma processSvg_conditional_rewrite_witness :
  let data := lit "<svg><title>Amazon-EC2_48</title></svg>" in
  let fs : gmap (list ascii) (list ascii) := {[ lit "a.svg" := data ]} in
  exists fs' o,
    processSvg false (fun _ => true) (lit "a.svg") fs = Some (fs', o)
    /\ rewritten o = true
    /\ fs' !! lit "a.svg" = Some (lit "<svg><title>Amazon-EC2</title></svg>").
Proof.
  intros data fs.
  destruct (processSvg_conditional_rewrite false (fun _ => true)
              (lit "a.svg") fs data) as [Hnone Hsome].
  - vm_compute. reflexivity.
  - destruct (processSvg false (fun _ => true) (lit "a.svg") fs)
      as [[fs' o] |] eqn:E.
    + destruct (Hsome fs' o eq_refl) as (Hlive & _ & _ & _ & _ & Hnew).
      exists fs', o. split; [reflexivity |].
      assert (Hr : rewritten o = true).
      { apply Hlive; [reflexivity |]. vm_compute. reflexivity. }
      split; [exact Hr |].
      destruct (Hnew Hr) as (m & Hm & ->).
      rewrite lookup_insert_eq. f_equal.
      vm_compute in Hm. injection Hm as <-. vm_compute. reflexivity.
    + destruct Hnone as [Hn _]. destruct (Hn eq_refl) as (_ & _ & Hw).
      discriminate Hw.
Defined.

(** ** rename.js: the order of the walk *)

Lemma node_induction (P : node -> Prop) :
  (forall nm, P (File nm)) ->
  (forall nm ch, Forall P ch -> P (Dir nm ch)) ->
  forall n, P n.
Proof.
  intros HF HD. fix IH 1. intros [nm | nm ch]; [apply HF | apply HD].
  induction ch as [| x ch IHch]; constructor; [apply IH | exact IHch].
Qed.

Lemma wf_listing_inv (ch : list node) :
  wf_listing ch = true ->
  NoDup (map node_name ch) /\ Forall (fun x => wf_node x = true) ch.
Proof.
  unfold wf_listing. intros H. apply andb_true_iff in H.
  destruct H as [Hn Hf]. split.
  - now apply bool_decide_eq_true in Hn.
  - apply Forall_forall. intros x Hx. rewrite forallb_forall in Hf.
    apply Hf. now apply list_elem_of_In.
Qed.

Lemma process_entries_paths (dry : bool)
    (rec : list (list ascii) -> node -> node * list rename_event)
    (dir : list (list ascii)) (todo : list node) :
  Forall (fun x => forall full,
            map ev_path (snd (rec full x)) = post_paths full x) todo ->
  forall done,
    map ev_path (snd (process_entries dry rec dir done todo))
    = post_listing dir todo.
Proof.
  induction 1 as [| x todo Hx Hrest IH]; intros done; [reflexivity |].
  simpl. specialize (Hx (dir ++ [node_name x])).
  destruct (rec (dir ++ [node_name x]) x) as [entry1 ev1].
  match goal with
  | |- context [process_entries dry rec dir ?d todo] =>
      specialize (IH d); destruct (process_entries dry rec dir d todo)
        as [out ev3]
  end.
  simpl in *. rewrite map_app. simpl. unfold ev_path at 2. simpl.
  rewrite Hx, IH. unfold post_listing. now rewrite <- app_assoc.
Qed.

Lemma process_node_paths (dry : bool) (n : node) :
  forall full,
    map ev_path (snd (process_node dry full n)) = post_paths full n.
Proof.
  induction n as [nm | nm ch IH] using node_induction; intros full;
    [reflexivity |].
  simpl.
  pose proof (process_entries_paths dry (process_node dry) full ch IH [])
    as H.
  destruct (process_entries dry (process_node dry) full [] ch) as [ch' ev].
  exact H.
Qed.

Lemma processDir_paths (dry : bool) (dir : list (list ascii))
    (entries : list node) :
  map ev_path (snd (processDir dry dir entries)) = post_listing dir entries.
Proof.
  unfold processDir. apply process_entries_paths.
  apply Forall_forall. intros x _. apply process_node_paths.
Qed.

Lemma beneath_trans (a b c : list (list ascii)) :
  beneath a b -> beneath b c -> beneath a c.
Proof.
  intros (r1 & H1 & ->) (r2 & H2 & ->). exists (r2 ++ r1). split.
  - destruct r2; [congruence | discriminate].
  - now rewrite app_assoc.
Qed.

Lemma beneath_longer (q p : list (list ascii)) :
  beneath q p -> length p < length q.
Proof.
  intros (r & Hr & ->). rewrite length_app.
  destruct r; [congruence | simpl; lia].
Qed.

Lemma post_paths_beneath (n : node) :
  forall full q, In q (post_paths full n) -> beneath q full.
Proof.
  induction n as [nm | nm ch IH] using node_induction; intros full q;
    [intros [] |].
  simpl. rewrite in_flat_map. intros (x & Hx & Hq).
  assert (Hself : beneath (full ++ [node_name x]) full)
    by (exists [node_name x]; split; [discriminate | reflexivity]).
  apply in_app_or in Hq. destruct Hq as [Hq | [<- | []]]; [| exact Hself].
  rewrite Forall_forall in IH.
  apply (beneath_trans _ (full ++ [node_name x])); [| exact Hself].
  apply (IH x); [now apply list_elem_of_In | exact Hq].
Qed.

Lemma post_listing_shape (dir : list (list ascii)) (ch : list node)
    (q : list (list ascii)) :
  In q (post_listing dir ch) ->
  exists x, In x ch
    /\ (beneath q (dir ++ [node_name x]) \/ q = dir ++ [node_name x]).
Proof.
  unfold post_listing. rewrite in_flat_map. intros (x & Hx & Hq).
  exists x. split; [exact Hx |].
  apply in_app_or in Hq. destruct Hq as [Hq | [<- | []]]; [| now right].
  left. now apply (post_paths_beneath x).
Qed.

Lemma beneath_names (q dir : list (list ascii)) (nx : list ascii) :
  beneath q (dir ++ [nx]) \/ q = dir ++ [nx] ->
  exists t, q = dir ++ nx :: t.
Proof.
  intros [(t & _ & ->) | ->].
  - exists t. now rewrite <- app_assoc.
  - exists []. reflexivity.
Qed.

Lemma app_cons_split {A} (l1 : list A) (p : A) (l2 a b : list A) :
  l1 ++ p :: l2 = a ++ b ->
  (exists a2, a = l1 ++ p :: a2 /\ l2 = a2 ++ b)
  \/ (exists b1, b = b1 ++ p :: l2 /\ l1 = a ++ b1).
Proof.
  revert a. induction l1 as [| x l1 IH]; intros a H.
  - destruct a as [| y a].
    + right. exists []. simpl in *. auto.
    + left. injection H as -> ->. exists a. auto.
  - destruct a as [| y a].
    + right. exists (x :: l1). simpl in *. auto.
    + injection H as -> H.
      destruct (IH a H) as [(a2 & -> & ->) | (b1 & -> & ->)].
      * left. exists a2. auto.
      * right. exists b1. auto.
Qed.

Lemma post_listing_later_free (dir : list (list ascii)) (ch : list node) :
  NoDup (map node_name ch) ->
  Forall (fun x => forall full, later_free (post_paths full x)) ch ->
  later_free (post_listing dir ch).
Proof.
  intros Hnd Hch. induction Hch as [| x rest Hx Hrest IH].
  - intros l1 p l2 H. destruct l1; discriminate.
  - apply NoDup_cons in Hnd. destruct Hnd as [Hfresh Hnd].
    specialize (IH Hnd).
    assert (Hother : forall q p,
               In q (post_listing dir rest) ->
               beneath p (dir ++ [node_name x]) \/ p = dir ++ [node_name x] ->
               ~ beneath q p).
    { intros q p Hq Hp Hb.
      destruct (post_listing_shape _ _ _ Hq) as (y & Hy & Hqy).
      destruct (beneath_names _ _ _ Hqy) as [t Ht].
      destruct (beneath_names _ _ _ Hp) as [u Hu].
      destruct Hb as (r & _ & Hr). rewrite Ht, Hu, <- app_assoc in Hr.
      apply app_inv_head in Hr. injection Hr as Hn _.
      apply Hfresh. rewrite <- Hn. apply list_elem_of_In.
      now apply in_map. }
    intros l1 p l2 H q Hq.
    change (post_listing dir (x :: rest))
      with ((post_paths (dir ++ [node_name x]) x ++ [dir ++ [node_name x]])
              ++ post_listing dir rest) in H.
    symmetry in H.
    destruct (app_cons_split _ _ _ _ _ H)
      as [(a2 & Ha & ->) | (b1 & Hb & _)].
    + symmetry in Ha.
      destruct (app_cons_split _ _ _ _ _ Ha)
        as [(s2 & Hs & ->) | (b1 & Hb & _)].
      * (* p among the contents of x *)
        assert (Hp : beneath p (dir ++ [node_name x])).
        { apply (post_paths_beneath x). rewrite Hs.
          apply in_or_app. right. now left. }
        apply in_app_or in Hq. destruct Hq as [Hq | Hq].
        -- apply in_app_or in Hq. destruct Hq as [Hq | [<- | []]].
           ++ exact (Hx _ _ _ _ Hs q Hq).
           ++ intros Hb. apply beneath_longer in Hp, Hb. lia.
        -- apply Hother; auto.
      * (* p is x itself *)
        destruct b1 as [| y b1].
        -- injection Hb as <- <-. simpl in Hq. apply Hother; auto.
        -- injection Hb as _ Hb. destruct b1; discriminate.
    + exact (IH _ _ _ Hb q Hq).
Qed.

Lemma post_paths_later_free (n : node) :
  wf_node n = true -> forall full, later_free (post_paths full n).
Proof.
  induction n as [nm | nm ch IH] using node_induction; intros Hwf full.
  - intros l1 p l2 H. destruct l1; discriminate.
  - destruct (wf_listing_inv ch Hwf) as [Hnd Hall].
    apply (post_listing_later_free full ch Hnd).
    rewrite Forall_forall in *. intros x Hx. apply IH; auto.
Qed.

Lemma paths_same (n : node) :
  forall full q, In q (entry_paths full n) <-> In q (post_paths full n).
Proof.
  induction n as [nm | nm ch IH] using node_induction; intros full q;
    [reflexivity |].
  simpl. rewrite !in_flat_map. rewrite Forall_forall in IH.
  split; intros (x & Hx & Hq); exists x; (split; [exact Hx |]).
  - destruct Hq as [<- | Hq].
    + apply in_or_app. right. now left.
    + apply in_or_app. left. apply IH; [now apply list_elem_of_In | exact Hq].
  - apply in_app_or in Hq. destruct Hq as [Hq | [<- | []]].
    + right. apply IH; [now apply list_elem_of_In | exact Hq].
    + now left.
Qed.

Lemma listing_paths_same (dir : list (list ascii)) (ch : list node)
    (q : list (list ascii)) :
  In q (listing_paths dir ch) <-> In q (post_listing dir ch).
Proof. apply (paths_same (Dir [] ch) dir q). Qed.

(** C9.  In the sequence of the calls of [renameSafe] that [processDir]
    makes on a tree, every entry below a directory has had its call before
    the call that renames the directory, and no call after it is about an
    entry below it. *)
Theorem processDir_children_first (dry : bool) (dir : list (list ascii))
    (entries : list node) (t1 t2 : list rename_event) (e : rename_event) :
  wf_listing entries = true ->
  snd (processDir dry dir entries) = t1 ++ e :: t2 ->
  (forall q, In q (listing_paths dir entries) ->
             beneath q (ev_path e) -> In q (map ev_path t1))
  /\ (forall e', In e' t2 -> ~ beneath (ev_path e') (ev_path e)).
Proof.
  intros Hwf Htr.
  pose proof (processDir_paths dry dir entries) as Hp.
  rewrite Htr, map_app in Hp. simpl in Hp. symmetry in Hp.
  assert (Hfree : later_free (post_listing dir entries))
    by (apply (post_paths_later_free (Dir [] entries)); exact Hwf).
  split.
  - intros q Hq Hb. apply listing_paths_same in Hq. rewrite Hp in Hq.
    apply in_app_or in Hq. destruct Hq as [Hq | [<- | Hq]].
    + exact Hq.
    + apply beneath_longer in Hb. lia.
    + exfalso. exact (Hfree _ _ _ Hp q Hq Hb).
  - intros e' He'. apply (Hfree _ _ _ Hp). now apply in_map.
Qed.

Lemma processDir_children_first_witness :
  let entries :=
    [ Dir (lit "Arch_Compute")
        [ File (lit "Arch_Amazon-EC2_48.svg");
          Dir (lit "Res_Sub") [ File (lit "AWS-X.svg") ] ];
      File (lit "readme.txt") ] in
  let tr := snd (processDir false [] entries) in
  exists e,
    nth_error tr 3 = Some e
    /\ ev_old e = lit "Arch_Compute" /\ ev_result e = Renamed
    /\ In [lit "Arch_Compute"; lit "Res_Sub"; lit "AWS-X.svg"]
          (map ev_path (firstn 3 tr)).
Proof.
  intros entries tr.
  set (d := {| ev_parent := []; ev_old := []; ev_new := [];
               ev_result := Unchanged |}).
  exists (nth 3 tr d).
  split; [vm_compute; reflexivity |].
  split; [vm_compute; reflexivity |].
  split; [vm_compute; reflexivity |].
  assert (Hwf : wf_listing entries = true) by (vm_compute; reflexivity).
  assert (Htr : snd (processDir false [] entries)
                = firstn 3 tr ++ nth 3 tr d :: skipn 4 tr)
    by (vm_compute; reflexivity).
  destruct (processDir_children_first false [] entries
              (firstn 3 tr) (skipn 4 tr) (nth 3 tr d) Hwf Htr)
    as [Hbefore _].
  apply Hbefore.
  - vm_compute. tauto.
  - exists [lit "Res_Sub"; lit "AWS-X.svg"]. split; [discriminate |].
    vm_compute. reflexivity.
Defined.

(** ** restructure.js: the copies *)

Lemma path_exists_same (a b : dest_state) (p : list ascii) :
  same_dest a b -> path_exists a p = path_exists b p.
Proof. intros (Hf & Hd & _). unfold path_exists. now rewrite Hf, Hd. Qed.

Lemma same_dest_refl (a : dest_state) : same_dest a a.
Proof. repeat split. Qed.

Lemma same_dest_trans (a b c : dest_state) :
  same_dest a b -> same_dest b c -> same_dest a c.
Proof.
  intros (H1 & H2 & H3) (H4 & H5 & H6). repeat split; congruence.
Qed.

Lemma next_sched_same (d : dest_state) : same_dest (next_sched d) d.
Proof. repeat split. Qed.

Lemma path_exists_file (d : dest_state) (p v : list ascii) :
  files d !! p = Some v -> path_exists d p = true.
Proof.
  intros H. unfold path_exists. rewrite bool_decide_eq_true_2; [reflexivity |].
  eauto.
Qed.

Lemma copy_step_live (cfg : config) (j : job) (st : dest_state * stats) :
  dryRun cfg = false ->
  copy_step cfg j st =
  if path_exists (fst st) (job_dst j)
     || refused (fst st) (job_src j) (job_dst j)
  then (fst st, add_skipped (snd st))
  else (with_file (job_dst j) (job_src j) (fst st), add_copied (snd st)).
Proof.
  intros H. unfold copy_step, copyFileExcl. rewrite H.
  now destruct (path_exists (fst st) (job_dst j)
                || refused (fst st) (job_src j) (job_dst j)).
Qed.

Lemma copy_step_same (cfg : config) (j : job) (a b : dest_state * stats) :
  same_dest (fst a) (fst b) -> snd a = snd b ->
  same_dest (fst (copy_step cfg j a)) (fst (copy_step cfg j b))
  /\ snd (copy_step cfg j a) = snd (copy_step cfg j b).
Proof.
  intros Hs Hn. unfold copy_step, copyFileExcl.
  destruct (dryRun cfg); simpl; [now rewrite Hn |].
  rewrite (path_exists_same _ _ _ Hs).
  destruct Hs as (Hf & Hd & Hr). rewrite Hr, Hn.
  destruct (path_exists (fst b) (job_dst j)
            || refused (fst b) (job_src j) (job_dst j)); simpl.
  - repeat split; assumption.
  - repeat split; simpl; congruence.
Qed.

Lemma worker_same (cfg : config) (jobs : list job) :
  forall a b,
    same_dest (fst a) (fst b) -> snd a = snd b ->
    same_dest (fst (worker cfg jobs a)) (fst (worker cfg jobs b))
    /\ snd (worker cfg jobs a) = snd (worker cfg jobs b).
Proof.
  induction jobs as [| j jobs IH]; intros a b Hs Hn; simpl; [auto |].
  destruct (copy_step_same cfg j a b Hs Hn) as [H1 H2]. now apply IH.
Qed.

Lemma nth_split_at {A} (k : nat) (l : list A) (d : A) :
  k < length l -> l = firstn k l ++ nth k l d :: skipn (S k) l.
Proof.
  revert l. induction k as [| k IH]; intros [| x l] H; simpl in *;
    try lia; [reflexivity |].
  f_equal. apply IH. lia.
Qed.

(** The workers of a live run visit every job once: what they leave is
    what one worker leaves that takes the jobs in the order in which the
    system completed the copies. *)
Lemma flight_loop_perm (cfg : config) :
  forall fuel flight queue st,
    length flight + length queue <= fuel ->
    (flight = [] -> queue = []) ->
    exists js,
      Permutation js (flight ++ queue)
      /\ same_dest (fst (flight_loop cfg fuel flight queue st))
                   (fst (worker cfg js st))
      /\ snd (flight_loop cfg fuel flight queue st)
         = snd (worker cfg js st).
Proof.
  induction fuel as [| fuel IH]; intros flight queue st Hl Hq.
  - destruct flight; [| simpl in Hl; lia]. rewrite (Hq eq_refl).
    exists []. simpl. repeat split. constructor.
  - destruct flight as [| j0 fl].
    + rewrite (Hq eq_refl). exists []. simpl. repeat split. constructor.
    + cbn [flight_loop].
      set (flight := j0 :: fl) in *.
      set (k := hd 0 (sched (fst st)) mod length flight).
      assert (Hk : k < length flight)
        by (apply Nat.mod_upper_bound; discriminate).
      set (j := nth k flight j0).
      set (st1 := copy_step cfg j (next_sched (fst st), snd st)).
      pose proof (nth_split_at k flight j0 Hk) as Hsplit. fold j in Hsplit.
      assert (Hlen : length flight
                     = S (length (firstn k flight ++ skipn (S k) flight))).
      { rewrite Hsplit at 1. rewrite !length_app. simpl. lia. }
      destruct (IH (firstn k flight ++ skipn (S k) flight ++ firstn 1 queue)
                  (skipn 1 queue) st1) as (js & Hp & Hs & Hn).
      * rewrite length_app in Hlen. rewrite !length_app.
        clearbody flight k j st1.
        destruct queue as [| q queue]; simpl in *; rewrite ?drop_0; lia.
      * intros H. apply app_eq_nil in H. destruct H as [_ H].
        apply app_eq_nil in H. destruct H as [_ H].
        destruct queue; [reflexivity | discriminate].
      * exists (j :: js). split; [| split].
        -- rewrite Hsplit at 1. rewrite <- app_assoc. simpl.
           apply Permutation_cons_app.
           rewrite Hp. rewrite <- !app_assoc.
           now rewrite (firstn_skipn 1 queue).
        -- change (worker cfg (j :: js) st)
             with (worker cfg js (copy_step cfg j st)).
           eapply same_dest_trans; [exact Hs |].
           apply worker_same;
             apply (copy_step_same cfg j (next_sched (fst st), snd st) st
                      (next_sched_same _) eq_refl).
        -- change (worker cfg (j :: js) st)
             with (worker cfg js (copy_step cfg j st)).
           rewrite Hn.
           apply worker_same;
             apply (copy_step_same cfg j (next_sched (fst st), snd st) st
                      (next_sched_same _) eq_refl).
Qed.

Lemma pool_none (cfg : config) (jobs : list job) (st : dest_state * stats) :
  pool cfg 0 jobs st = st.
Proof.
  unfold pool. destruct (dryRun cfg); [reflexivity |].
  now destruct (length jobs).
Qed.

Lemma pool_perm (cfg : config) (n : nat) (jobs : list job)
    (st : dest_state * stats) :
  0 < n ->
  exists js,
    Permutation js jobs
    /\ same_dest (fst (pool cfg n jobs st)) (fst (worker cfg js st))
    /\ snd (pool cfg n jobs st) = snd (worker cfg js st).
Proof.
  intros Hn. unfold pool. destruct (dryRun cfg).
  - destruct n; [lia |]. exists jobs. repeat split. reflexivity.
  - destruct (flight_loop_perm cfg (length jobs) (firstn n jobs)
                (skipn n jobs) st) as (js & Hp & H).
    + rewrite <- length_app, firstn_skipn. lia.
    + destruct jobs as [| j jobs]; [now rewrite skipn_nil |].
      destruct n; [lia | discriminate].
    + exists js. split; [| exact H]. now rewrite firstn_skipn in Hp.
Qed.

(** With one worker the jobs are taken in the order of the list. *)
Lemma flight_loop_single (cfg : config) :
  forall fuel j queue st,
    length queue < fuel ->
    same_dest (fst (flight_loop cfg fuel [j] queue st))
              (fst (worker cfg (j :: queue) st))
    /\ snd (flight_loop cfg fuel [j] queue st)
       = snd (worker cfg (j :: queue) st).
Proof.
  induction fuel as [| fuel IH]; intros j queue st Hl; [lia |].
  cbn [flight_loop length]. rewrite Nat.mod_1_r. cbn [nth firstn skipn app].
  assert (H1 : same_dest
                 (fst (copy_step cfg j (next_sched (fst st), snd st)))
                 (fst (copy_step cfg j st))
               /\ snd (copy_step cfg j (next_sched (fst st), snd st))
                  = snd (copy_step cfg j st))
    by (apply (copy_step_same cfg j (next_sched (fst st), snd st) st
                 (next_sched_same _) eq_refl)).
  destruct queue as [| q queue].
  - simpl. destruct fuel; exact H1.
  - change (firstn 1 (q :: queue)) with [q].
    change (skipn 1 (q :: queue)) with queue.
    destruct (IH q queue (copy_step cfg j (next_sched (fst st), snd st)))
      as [Hs Hn]; [simpl in Hl; lia |].
    destruct (worker_same cfg (q :: queue) _ _ (proj1 H1) (proj2 H1))
      as [Hs' Hn'].
    split.
    + eapply same_dest_trans; [exact Hs | exact Hs'].
    + now rewrite Hn.
Qed.

Lemma pool_single (cfg : config) (jobs : list job)
    (st : dest_state * stats) :
  same_dest (fst (pool cfg 1 jobs st)) (fst (worker cfg jobs st))
  /\ snd (pool cfg 1 jobs st) = snd (worker cfg jobs st).
Proof.
  unfold pool. destruct (dryRun cfg); [repeat split |].
  destruct jobs as [| j jobs]; [repeat split |].
  cbn [firstn skipn length]. apply flight_loop_single. lia.
Qed.

(** What a worker leaves, whatever the order of the jobs: no file the
    destination held is touched, and every job is counted once, as copied
    or as skipped. *)
Lemma copy_step_keeps (cfg : config) (j : job) (st : dest_state * stats) :
  (forall p v, files (fst st) !! p = Some v ->
               files (fst (copy_step cfg j st)) !! p = Some v)
  /\ dirs (fst (copy_step cfg j st)) = dirs (fst st).
Proof.
  unfold copy_step, copyFileExcl. destruct (dryRun cfg); [auto |].
  destruct (path_exists (fst st) (job_dst j)) eqn:E; simpl; [auto |].
  destruct (refused (fst st) (job_src j) (job_dst j)); simpl; [auto |].
  split; [| reflexivity]. intros p v Hp.
  rewrite lookup_insert_ne; [exact Hp |].
  intros <-. rewrite (path_exists_file _ _ _ Hp) in E. discriminate.
Qed.

Lemma worker_keeps (cfg : config) (jobs : list job) :
  forall st,
    (forall p v, files (fst st) !! p = Some v ->
                 files (fst (worker cfg jobs st)) !! p = Some v)
    /\ dirs (fst (worker cfg jobs st)) = dirs (fst st).
Proof.
  induction jobs as [| j jobs IH]; intros st; simpl; [auto |].
  destruct (IH (copy_step cfg j st)) as [Hk Hd].
  destruct (copy_step_keeps cfg j st) as [Hk1 Hd1].
  split; [auto | congruence].
Qed.

Lemma worker_live (cfg : config) (jobs : list job) :
  dryRun cfg = false ->
  forall st,
    copied (snd (worker cfg jobs st)) + skipped (snd (worker cfg jobs st))
    = copied (snd st) + skipped (snd st) + length jobs
    /\ merged (snd (worker cfg jobs st)) = merged (snd st)
    /\ archOnly (snd (worker cfg jobs st)) = archOnly (snd st)
    /\ unmatched (snd (worker cfg jobs st)) = unmatched (snd st).
Proof.
  intros Hlive. induction jobs as [| j jobs IH]; intros st; simpl.
  - repeat split. lia.
  - destruct (IH (copy_step cfg j st)) as (Hc & Hm & Ha & Hu).
    rewrite Hc, Hm, Ha, Hu. rewrite copy_step_live by assumption.
    destruct (path_exists (fst st) (job_dst j)
              || refused (fst st) (job_src j) (job_dst j)); simpl;
      repeat split; lia.
Qed.

Lemma worker_dry (cfg : config) (jobs : list job) :
  dryRun cfg = true ->
  forall st,
    fst (worker cfg jobs st) = fst st
    /\ copied (snd (worker cfg jobs st)) = copied (snd st) + length jobs
    /\ skipped (snd (worker cfg jobs st)) = skipped (snd st)
    /\ merged (snd (worker cfg jobs st)) = merged (snd st)
    /\ archOnly (snd (worker cfg jobs st)) = archOnly (snd st)
    /\ unmatched (snd (worker cfg jobs st)) = unmatched (snd st).
Proof.
  intros Hdry. induction jobs as [| j jobs IH]; intros st; simpl.
  - repeat split. lia.
  - destruct (IH (copy_step cfg j st)) as (Hf & Hc & Hs & Hm & Ha & Hu).
    rewrite Hf, Hc, Hs, Hm, Ha, Hu. unfold copy_step. rewrite Hdry. simpl.
    repeat split. lia.
Qed.

(** ** restructure.js: the dry run and the live run *)

Lemma pool_sim (cfg : config) (F0 : gmap (list ascii) (list ascii))
    (n : nat) (jobs : list job) (stL stD : dest_state * stats) :
  dry_sim F0 stL stD ->
  dry_sim F0 (pool (with_dryRun false cfg) n jobs stL)
             (pool (with_dryRun true cfg) n jobs stD).
Proof.
  intros (Hf & Hk & Hm & Ha & Hu & Hc & Hs).
  destruct n as [| n]; [rewrite !pool_none; repeat split; assumption |].
  destruct (pool_perm (with_dryRun false cfg) (S n) jobs stL)
    as (js & Hp & (HfL & _) & HsL); [lia |].
  destruct (worker_keeps (with_dryRun false cfg) js stL) as [HkL _].
  destruct (worker_live (with_dryRun false cfg) js eq_refl stL)
    as (HcL & HmL & HaL & HuL).
  destruct (worker_dry (with_dryRun true cfg) jobs eq_refl stD)
    as (HfD & HcD & HsD & HmD & HaD & HuD).
  change (pool (with_dryRun true cfg) (S n) jobs stD)
    with (worker (with_dryRun true cfg) jobs stD).
  apply Permutation_length in Hp.
  unfold dry_sim, stats_sim. rewrite HfD, HfL, HsL.
  repeat split; try congruence; try lia; auto.
Qed.

Lemma ensureDir_files (p : list ascii) (d d' : dest_state) :
  ensureDir p d = Some d' ->
  files d' = files d /\ dirs d ⊆ dirs d'
  /\ refused d' = refused d /\ sched d' = sched d.
Proof.
  unfold ensureDir. destruct (existsb _ _); [discriminate |].
  intros [= <-]. simpl. repeat split. set_solver.
Qed.

(** A directory that can be made with more files in place can be made
    with fewer. *)
Lemma ensureDir_fewer (p : list ascii) (dL dD dL' : dest_state) :
  (forall q v, files dD !! q = Some v -> files dL !! q = Some v) ->
  ensureDir p dL = Some dL' ->
  exists dD', ensureDir p dD = Some dD' /\ files dD' = files dD.
Proof.
  intros Hk. unfold ensureDir.
  destruct (existsb _ (dir_chain p)) eqn:EL; [discriminate |]. intros _.
  destruct (existsb (fun a => bool_decide (is_Some (files dD !! a)))
              (dir_chain p)) eqn:ED.
  - apply existsb_exists in ED. destruct ED as (a & Ha & Hs).
    apply bool_decide_eq_true in Hs. destruct Hs as [v Hv].
    assert (existsb (fun a => bool_decide (is_Some (files dL !! a)))
              (dir_chain p) = true); [| congruence].
    apply existsb_exists. exists a. split; [exact Ha |].
    apply bool_decide_eq_true. eauto.
  - eexists. split; reflexivity.
Qed.

Lemma ensureDir_sim (F0 : gmap (list ascii) (list ascii)) (p : list ascii)
    (stL stD : dest_state * stats) (dL' : dest_state) :
  dry_sim F0 stL stD ->
  ensureDir p (fst stL) = Some dL' ->
  exists dD', ensureDir p (fst stD) = Some dD'
              /\ dry_sim F0 (dL', snd stL) (dD', snd stD).
Proof.
  intros (Hf & Hk & Hs) E.
  destruct (ensureDir_fewer p (fst stL) (fst stD) dL') as (dD' & ED & HfD);
    [intros q v; rewrite Hf; apply Hk | exact E |].
  exists dD'. split; [exact ED |].
  destruct (ensureDir_files _ _ _ E) as (HfL & _).
  unfold dry_sim. simpl. rewrite HfD, HfL. auto.
Qed.

Lemma ingest_dry (cfg : config) (fs : list (list ascii)) (d : dest_state) :
  ingest (with_dryRun true cfg) fs d = Some d.
Proof.
  induction fs as [| f fs IH]; [reflexivity |]. simpl.
  match goal with |- context [if ?b then _ else _] => destruct b end;
    exact IH.
Qed.

Lemma copyFileExcl_keeps (src dst : list ascii) (d d' : dest_state) :
  copyFileExcl src dst d = Some d' ->
  (forall p v, files d !! p = Some v -> files d' !! p = Some v)
  /\ dirs d' = dirs d.
Proof.
  unfold copyFileExcl. destruct (path_exists d dst) eqn:E; [discriminate |].
  destruct (refused d src dst); [discriminate |].
  intros [= <-]. simpl. split; [| reflexivity].
  intros p v Hp. rewrite lookup_insert_ne; [exact Hp |].
  intros <-. rewrite (path_exists_file _ _ _ Hp) in E. discriminate.
Qed.

Lemma ingest_keeps (cfg : config) (fs : list (list ascii)) :
  forall d d',
    ingest cfg fs d = Some d' ->
    (forall p v, files d !! p = Some v -> files d' !! p = Some v)
    /\ dirs d' = dirs d.
Proof.
  induction fs as [| f fs IH]; intros d d'; simpl.
  - intros [= <-]. auto.
  - destruct (negb _); [apply IH |].
    destruct (dryRun cfg); [apply IH |].
    match goal with
    | |- context [copyFileExcl ?s ?o d] =>
        destruct (copyFileExcl s o d) as [d1 |] eqn:E
    end; [| discriminate].
    intros H. destruct (copyFileExcl_keeps _ _ _ _ E) as [H1 H2].
    destruct (IH _ _ H) as [H3 H4]. split; [auto | congruence].
Qed.

Lemma processGeneral_sim (cfg : config)
    (F0 : gmap (list ascii) (list ascii)) (af : list (list ascii))
    (rf : option (list (list ascii))) (stL stD : dest_state * stats)
    (dL' : dest_state) :
  dry_sim F0 stL stD ->
  processGeneral (with_dryRun false cfg) af rf (fst stL) = Some dL' ->
  exists dD',
    processGeneral (with_dryRun true cfg) af rf (fst stD) = Some dD'
    /\ dry_sim F0 (dL', snd stL) (dD', snd stD).
Proof.
  intros Hsim. unfold processGeneral.
  change (dest (with_dryRun false cfg)) with (dest cfg).
  change (dest (with_dryRun true cfg)) with (dest cfg).
  destruct (ensureDir _ (fst stL)) as [dL0 |] eqn:E0; [| discriminate].
  destruct (ensureDir_sim F0 _ stL stD dL0 Hsim E0) as (dD0 & -> & H0).
  destruct (ensureDir _ dL0) as [dL1 |] eqn:E1; [| discriminate].
  destruct (ensureDir_sim F0 _ (dL0, snd stL) (dD0, snd stD) dL1 H0 E1)
    as (dD1 & ED1 & H1).
  cbn [fst] in ED1, E1. rewrite ED1. rewrite ingest_dry.
  destruct (ingest (with_dryRun false cfg) af dL1) as [dL2 |] eqn:E2;
    [| discriminate].
  destruct (ingest_keeps _ _ _ _ E2) as [K2 _].
  destruct H1 as (Hf & Hk & Hs). simpl in Hf, Hk, Hs.
  destruct rf as [fs |].
  - rewrite ingest_dry. intros E3.
    destruct (ingest_keeps _ _ _ _ E3) as [K3 _].
    exists dD1. split; [reflexivity |].
    split; [exact Hf |]. split; [| exact Hs].
    intros p v Hp. apply K3, K2, Hk, Hp.
  - intros [= <-]. exists dD1. split; [reflexivity |].
    split; [exact Hf |]. split; [| exact Hs].
    intros p v Hp. apply K2, Hk, Hp.
Qed.

Lemma res_jobs_sim (cfg : config) (archDirName dstDir : list ascii)
    (fs : list (list ascii)) :
  forall jobs sL sD,
    stats_sim sL sD ->
    fst (res_jobs (with_dryRun false cfg) archDirName dstDir fs jobs sL)
    = fst (res_jobs (with_dryRun true cfg) archDirName dstDir fs jobs sD)
    /\ stats_sim
         (snd (res_jobs (with_dryRun false cfg) archDirName dstDir fs jobs sL))
         (snd (res_jobs (with_dryRun true cfg) archDirName dstDir fs jobs sD)).
Proof.
  induction fs as [| f fs IH]; intros jobs sL sD H; simpl; [auto |].
  change (matchesSize (with_dryRun true cfg) f)
    with (matchesSize (with_dryRun false cfg) f).
  destruct (matchesSize (with_dryRun false cfg) f); apply IH; [exact H |].
  unfold stats_sim in *. simpl. destruct H as (Hm & Ha & Hu & Hc & Hs).
  repeat split; auto; congruence.
Qed.

Lemma mergeCat_sim (cfg : config) (archRoot resRoot : list ascii)
    (archListing resListing : list node)
    (F0 : gmap (list ascii) (list ascii)) (slugCat archDirName : list ascii)
    (stL stD stL' : dest_state * stats) :
  dry_sim F0 stL stD ->
  mergeCat (with_dryRun false cfg) archRoot resRoot archListing resListing
    slugCat archDirName stL = Some stL' ->
  exists stD',
    mergeCat (with_dryRun true cfg) archRoot resRoot archListing resListing
      slugCat archDirName stD = Some stD'
    /\ dry_sim F0 stL' stD'.
Proof.
  intros Hsim. unfold mergeCat.
  destruct (str_eqb archDirName (lit "Arch_General-Icons")).
  - destruct (walk_dir archRoot archListing archDirName) as [af |];
      [| discriminate].
    match goal with
    | |- context [processGeneral (with_dryRun false cfg) af ?rf (fst stL)] =>
        destruct (processGeneral (with_dryRun false cfg) af rf (fst stL))
          as [dL' |] eqn:E; [| discriminate];
        destruct (processGeneral_sim cfg F0 af rf stL stD dL' Hsim E)
          as (dD' & -> & Hd')
    end.
    intros [= <-]. eexists. split; [reflexivity |].
    destruct Hd' as (Hf & Hk & Hm & Ha & Hu & Hc & Hs).
    unfold dry_sim, stats_sim. simpl in *. repeat split; auto; congruence.
  - change (size (with_dryRun false cfg)) with (size cfg).
    change (size (with_dryRun true cfg)) with (size cfg).
    change (dest (with_dryRun false cfg)) with (dest cfg).
    change (dest (with_dryRun true cfg)) with (dest cfg).
    change (concurrency (with_dryRun false cfg)) with (concurrency cfg).
    change (concurrency (with_dryRun true cfg)) with (concurrency cfg).
    set (dstDir := path_join (dest cfg) archDirName).
    destruct (ensureDir dstDir (fst stL)) as [dL1 |] eqn:E1; [| discriminate].
    destruct (ensureDir_sim F0 _ stL stD dL1 Hsim E1) as (dD1 & -> & Hd1).
    destruct (find_dir archDirName archListing) as [cat |]; [| discriminate].
    destruct (find_dir (size cfg) cat) as [sized |]; [| discriminate].
    change (matchesSize (with_dryRun true cfg))
      with (matchesSize (with_dryRun false cfg)).
    set (jobs1 := map _ _).
    destruct (resolve (the_alias archListing resListing)
                (resCats resListing) slugCat) as [r |].
    + destruct (walk_dir resRoot resListing r) as [fs |].
      * destruct Hd1 as (Hf & Hk & Hs). simpl in Hf, Hk, Hs.
        destruct (res_jobs_sim cfg archDirName dstDir fs jobs1 _ _ Hs)
          as [Hj Hs'].
        destruct (res_jobs (with_dryRun false cfg) archDirName dstDir fs
                    jobs1 (snd stL)) as [jobsL sL1].
        destruct (res_jobs (with_dryRun true cfg) archDirName dstDir fs
                    jobs1 (snd stD)) as [jobsD sD1].
        simpl in Hj, Hs'. subst jobsD.
        assert (Hp : dry_sim F0 (dL1, sL1) (dD1, sD1))
          by (split; [exact Hf | split; [exact Hk | exact Hs']]).
        apply (pool_sim cfg F0 (concurrency cfg) jobsL) in Hp.
        destruct (pool (with_dryRun false cfg) _ jobsL _) as [d2L s2L].
        destruct (pool (with_dryRun true cfg) _ jobsL _) as [d2D s2D].
        intros [= <-]. eexists. split; [reflexivity |].
        destruct Hp as (Hf' & Hk' & Hm & Ha & Hu & Hc & Hsk).
        unfold dry_sim, stats_sim. simpl in *. repeat split; auto; congruence.
      * apply (pool_sim cfg F0 (concurrency cfg) jobs1) in Hd1.
        destruct (pool (with_dryRun false cfg) _ jobs1 _) as [d2L s2L].
        destruct (pool (with_dryRun true cfg) _ jobs1 _) as [d2D s2D].
        intros [= <-]. eexists. split; [reflexivity |].
        destruct Hd1 as (Hf' & Hk' & Hm & Ha & Hu & Hc & Hsk).
        unfold dry_sim, stats_sim. simpl in *. repeat split; auto; congruence.
    + apply (pool_sim cfg F0 (concurrency cfg) jobs1) in Hd1.
      destruct (pool (with_dryRun false cfg) _ jobs1 _) as [d2L s2L].
      destruct (pool (with_dryRun true cfg) _ jobs1 _) as [d2D s2D].
      intros [= <-]. eexists. split; [reflexivity |]. exact Hd1.
Qed.

Lemma merge_loop_sim (cfg : config) (archRoot resRoot : list ascii)
    (archListing resListing : list node)
    (F0 : gmap (list ascii) (list ascii))
    (cats : list (list ascii * list ascii)) :
  forall stL stD stL',
    dry_sim F0 stL stD ->
    merge_loop (with_dryRun false cfg) archRoot resRoot archListing
      resListing cats stL = Some stL' ->
    exists stD',
      merge_loop (with_dryRun true cfg) archRoot resRoot archListing
        resListing cats stD = Some stD'
      /\ dry_sim F0 stL' stD'.
Proof.
  induction cats as [| [s d] cats IH]; intros stL stD stL' Hsim; simpl.
  - intros [= <-]. eauto.
  - destruct (mergeCat (with_dryRun false cfg) archRoot resRoot archListing
                resListing s d stL) as [st1 |] eqn:E; [| discriminate].
    destruct (mergeCat_sim _ _ _ _ _ _ _ _ _ _ _ Hsim E) as (st1' & -> & H1).
    now apply IH.
Qed.

(** C6, the claim as stated fails.  The architecture category and its
    resource category both hold a file "EC2_48.svg".  On an empty
    destination the live run copies the first and skips the second, which
    collides with it; the dry run counts both as copied. *)
Lemma dry_run_counterexample :
  let cfg := {| dryRun := false; size := lit "48"; formats := [lit "svg"];
                concurrency := 2; allowUnmatched := false;
                dest := lit "/out" |} in
  let archListing :=
    [ Dir (lit "Arch_Compute")
        [ Dir (lit "48") [ File (lit "EC2_48.svg") ] ] ] in
  let resListing := [ Dir (lit "Res_Compute") [ File (lit "EC2_48.svg") ] ] in
  let clean := {| files := ∅; dirs := ∅; refused := fun _ _ => false;
                  sched := [] |} in
  let counts (r : option (dest_state * stats)) :=
    match r with
    | Some (_, s) => Some (copied s, skipped s)
    | None => None
    end in
  counts (merge (with_dryRun false cfg) (lit "/raw/A") (lit "/raw/R")
            archListing resListing clean) = Some (1, 1)
  /\ counts (merge (with_dryRun true cfg) (lit "/raw/A") (lit "/raw/R")
               archListing resListing clean) = Some (2, 0).
Proof. vm_compute. split; reflexivity. Qed.

(** C6, amended.  When the live run of the merge completes, the run with
    the dry-run flag on the same trees, configuration and destination
    completes too and copies no file; it reports the same merged,
    architecture-only and unmatched statistics as the live run, counts as
    copied every job the live run copied or skipped, and counts none as
    skipped. *)
Theorem dry_run_statistics (cfg : config) (archRoot resRoot : list ascii)
    (archListing resListing : list node) (d dL : dest_state) (sL : stats) :
  merge (with_dryRun false cfg) archRoot resRoot archListing resListing d
    = Some (dL, sL) ->
  exists dD sD,
    merge (with_dryRun true cfg) archRoot resRoot archListing resListing d
      = Some (dD, sD)
    /\ files dD = files d
    /\ merged sD = merged sL
    /\ archOnly sD = archOnly sL
    /\ unmatched sD = unmatched sL
    /\ copied sD = copied sL + skipped sL
    /\ skipped sD = 0.
Proof.
  unfold merge.
  change (dest (with_dryRun false cfg)) with (dest cfg).
  change (dest (with_dryRun true cfg)) with (dest cfg).
  destruct (ensureDir (dest cfg) d) as [d0 |] eqn:E0; [| discriminate].
  intros H.
  assert (H0 : dry_sim (files d) (d, sum0) (d, sum0)).
  { unfold dry_sim, stats_sim. simpl. repeat split; auto. }
  destruct (ensureDir_sim (files d) (dest cfg) (d, sum0) (d, sum0) d0 H0 E0)
    as (d0' & E0' & H1).
  cbn [fst] in E0'. rewrite E0 in E0'. injection E0' as <-.
  destruct (merge_loop_sim _ _ _ _ _ _ _ _ _ _ H1 H)
    as ([dD sD] & E & Hf & _ & Hs).
  exists dD, sD. split; [exact E |]. split; [exact Hf | exact Hs].
Qed.

Lemma dry_run_statistics_witness :
  let cfg := {| dryRun := false; size := lit "48"; formats := [lit "svg"];
                concurrency := 2; allowUnmatched := false;
                dest := lit "/out" |} in
  let archListing :=
    [ Dir (lit "Arch_Compute")
        [ Dir (lit "48") [ File (lit "Arch_Amazon-EC2_48.svg") ] ] ] in
  let resListing := [ Dir (lit "Res_Compute") [ File (lit "EC2_48.svg") ] ] in
  let clean := {| files := ∅; dirs := ∅; refused := fun _ _ => false;
                  sched := [] |} in
  exists dD sD,
    merge (with_dryRun true cfg) (lit "/raw/A") (lit "/raw/R")
      archListing resListing clean = Some (dD, sD)
    /\ files dD = ∅ /\ copied sD = 2 /\ skipped sD = 0 /\ merged sD = 1.
Proof.
  intros cfg archListing resListing clean.
  assert (E : exists dL,
             merge (with_dryRun false cfg) (lit "/raw/A") (lit "/raw/R")
               archListing resListing clean
             = Some (dL, {| copied := 2; skipped := 0; merged := 1;
                            archOnly := 0; unmatched := [] |}))
    by (eexists; vm_compute; reflexivity).
  destruct E as [dL E].
  destruct (dry_run_statistics cfg (lit "/raw/A") (lit "/raw/R")
              archListing resListing clean dL _ E)
    as (dD & sD & ED & Hf & Hm & _ & _ & Hc & Hs).
  exists dD, sD. split; [exact ED |]. split; [exact Hf |].
  simpl in Hm, Hc. repeat split; assumption.
Defined.

(** ** restructure.js: collisions *)

Lemma mergeCat_completes (cfg : config) (archRoot resRoot : list ascii)
    (archListing resListing : list node) (slugCat archDirName : list ascii)
    (st : dest_state * stats) :
  archDirName <> lit "Arch_General-Icons" ->
  is_Some (mergeCat cfg archRoot resRoot archListing resListing
             slugCat archDirName st)
  <-> is_Some (ensureDir (path_join (dest cfg) archDirName) (fst st))
      /\ exists cat sized,
           find_dir archDirName archListing = Some cat
           /\ find_dir (size cfg) cat = Some sized.
Proof.
  intros Hne. unfold mergeCat.
  apply str_eqb_false in Hne. rewrite Hne.
  destruct (ensureDir (path_join (dest cfg) archDirName) (fst st))
    as [d1 |].
  - destruct (find_dir archDirName archListing) as [cat |].
    + destruct (find_dir (size cfg) cat) as [sized |] eqn:E2.
      * split; [intros _; split; eauto |]. intros _.
        repeat match goal with
               | |- context [let '(_, _) := ?x in _] => destruct x
               end.
        eauto.
      * split; [intros [x Hx]; discriminate |].
        intros [_ (c & s & Hc & Hs)]. injection Hc as <-. congruence.
    + split; [intros [x Hx]; discriminate |].
      intros [_ (c & s & Hc & _)]. discriminate.
  - split; [intros [x Hx]; discriminate |].
    intros [[x Hx] _]. discriminate.
Qed.

(** C8, the claim as stated fails: in a dry run a job whose destination
    exists is counted as copied, not as skipped, and no copy is tried. *)
Lemma worker_counterexample :
  let cfg := {| dryRun := true; size := lit "48"; formats := [lit "svg"];
                concurrency := 2; allowUnmatched := false;
                dest := lit "/out" |} in
  let d := {| files := {[ lit "/out/Arch_Compute/EC2_48.svg"
                          := lit "/old/EC2_48.svg" ]};
              dirs := ∅; refused := fun _ _ => false; sched := [] |} in
  let j := {| job_src := lit "/raw/A/Arch_Compute/48/EC2_48.svg";
              job_dst := lit "/out/Arch_Compute/EC2_48.svg" |} in
  path_exists d (job_dst j) = true
  /\ worker cfg [j] (d, sum0) = (d, add_copied sum0)
  /\ skipped (snd (worker cfg [j] (d, sum0))) = 0.
Proof. vm_compute. repeat split. Qed.

(** C8, amended.  In a live run: a job whose destination exists leaves the
    destination as it is and adds one to [skipped]; every job either makes
    its destination, which did not exist, from its source and adds one to
    [copied], or leaves the destination as it is and adds one to
    [skipped]; the workers, one at least, visit every job once (what they
    leave is what [copy_step] leaves, taken over the jobs in the order in
    which their copies complete), so that no file the destination held is
    overwritten and every job is counted once; and [mergeCat] completes
    for a category with copy jobs exactly when the directory of the
    category can be made and the directories of the source are found: no
    collision and no copy that fails makes it reject.  In a dry run a job
    leaves the destination as it is and adds one to [copied]. *)
Theorem worker_collisions (cfg : config) :
  (dryRun cfg = false ->
   (forall j st,
       path_exists (fst st) (job_dst j) = true ->
       copy_step cfg j st = (fst st, add_skipped (snd st)))
   /\ (forall j st,
         (path_exists (fst st) (job_dst j) = false
          /\ copy_step cfg j st
             = (with_file (job_dst j) (job_src j) (fst st),
                add_copied (snd st)))
         \/ copy_step cfg j st = (fst st, add_skipped (snd st)))
   /\ (forall jobs st,
         0 < concurrency cfg ->
         exists js,
           Permutation js jobs
           /\ same_dest (fst (pool cfg (concurrency cfg) jobs st))
                        (fst (worker cfg js st))
           /\ snd (pool cfg (concurrency cfg) jobs st)
              = snd (worker cfg js st))
   /\ (forall jobs st,
         0 < concurrency cfg ->
         let st' := pool cfg (concurrency cfg) jobs st in
         (forall p v, files (fst st) !! p = Some v ->
                      files (fst st') !! p = Some v)
         /\ copied (snd st') + skipped (snd st')
            = copied (snd st) + skipped (snd st) + length jobs)
   /\ (forall archRoot resRoot archListing resListing slugCat archDirName
              st,
         archDirName <> lit "Arch_General-Icons" ->
         is_Some (mergeCat cfg archRoot resRoot archListing resListing
                    slugCat archDirName st)
         <-> is_Some (ensureDir (path_join (dest cfg) archDirName) (fst st))
             /\ exists cat sized,
                  find_dir archDirName archListing = Some cat
                  /\ find_dir (size cfg) cat = Some sized))
  /\ (dryRun cfg = true ->
      forall j st, copy_step cfg j st = (fst st, add_copied (snd st))).
Proof.
  split.
  - intros Hlive. split; [| split; [| split; [| split]]].
    + intros j st H. rewrite copy_step_live by assumption. now rewrite H.
    + intros j st. rewrite copy_step_live by assumption.
      destruct (path_exists (fst st) (job_dst j)); [now right |].
      destruct (refused (fst st) (job_src j) (job_dst j)); [now right |].
      left. auto.
    + intros jobs st Hn. now apply pool_perm.
    + intros jobs st Hn st'.
      destruct (pool_perm cfg (concurrency cfg) jobs st Hn)
        as (js & Hp & (Hf & _) & Hs).
      destruct (worker_keeps cfg js st) as [Hk _].
      destruct (worker_live cfg js Hlive st) as (Hc & _).
      subst st'. rewrite Hf, Hs, Hc.
      rewrite (Permutation_length Hp). auto.
    + intros. now apply mergeCat_completes.
  - intros Hdry j st. unfold copy_step. now rewrite Hdry.
Qed.

Lemma worker_collisions_witness :
  let cfg := {| dryRun := false; size := lit "48"; formats := [lit "svg"];
                concurrency := 2; allowUnmatched := false;
                dest := lit "/out" |} in
  let d := {| files := {[ lit "/out/Arch_Compute/EC2_48.svg"
                          := lit "/old/EC2_48.svg" ]};
              dirs := ∅; refused := fun _ _ => false; sched := [1] |} in
  let j := {| job_src := lit "/raw/A/Arch_Compute/48/EC2_48.svg";
              job_dst := lit "/out/Arch_Compute/EC2_48.svg" |} in
  let j' := {| job_src := lit "/raw/R/Res_Compute/EC2_48.svg";
               job_dst := lit "/out/Arch_Compute/EC2_48.svg" |} in
  copy_step cfg j (d, sum0) = (d, add_skipped sum0)
  /\ files (fst (pool cfg 2 [j; j'] (d, sum0)))
       !! lit "/out/Arch_Compute/EC2_48.svg"
     = Some (lit "/old/EC2_48.svg")
  /\ skipped (snd (pool cfg 2 [j; j'] (d, sum0))) = 2.
Proof.
  intros cfg d j j'.
  destruct (worker_collisions cfg) as [Hlive _].
  destruct (Hlive eq_refl) as (Hcol & _ & _ & Hall & _).
  split; [| split].
  - apply (Hcol j (d, sum0)). vm_compute. reflexivity.
  - destruct (Hall [j; j'] (d, sum0)) as [Hkeep _].
    + vm_compute. lia.
    + apply Hkeep. vm_compute. reflexivity.
  - vm_compute. reflexivity.
Defined.

(** * Further properties of the scripts *)

(** ** Names in normal form *)

Lemma no_double_cons (cls : ascii -> bool) (a : ascii) (l : list ascii) :
  no_double cls (a :: l)
  = (negb (cls a) || head_free cls l) && no_double cls l.
Proof.
  simpl. destruct l as [| b l]; simpl.
  - now rewrite orb_true_r.
  - now rewrite negb_andb.
Qed.

Lemma collapse_runs_normal (cls : ascii -> bool) (r : ascii) :
  cls r = true ->
  forall s b,
    no_double cls (collapse_runs cls r b s) = true
    /\ (b = true -> head_free cls (collapse_runs cls r b s) = true).
Proof.
  intros Hr. induction s as [| c t IH]; intros b; [split; reflexivity |].
  simpl collapse_runs. destruct (cls c) eqn:Ec.
  - destruct b; [apply IH |].
    split; [| discriminate].
    destruct t as [| d t']; [reflexivity |].
    destruct (cls d) eqn:Ed.
    + rewrite no_double_cons. destruct (IH true) as [H1 H2].
      rewrite H1, H2 by reflexivity. now rewrite orb_true_r.
    + rewrite no_double_cons. destruct (IH false) as [H1 _].
      rewrite H1. simpl collapse_runs. rewrite Ed. simpl. rewrite Ed.
      now rewrite orb_true_r.
  - rewrite no_double_cons, Ec. destruct (IH false) as [H1 _].
    rewrite H1. split; [reflexivity |]. intros _. simpl. now rewrite Ec.
Qed.

Lemma no_double_app (cls : ascii -> bool) (a b : list ascii) :
  no_double cls (a ++ b) = true ->
  no_double cls a = true /\ no_double cls b = true.
Proof.
  induction a as [| x a IH]; intros H; [split; [reflexivity | exact H] |].
  rewrite <- app_comm_cons, no_double_cons in H.
  apply andb_true_iff in H. destruct H as [Hx H].
  destruct (IH H) as [Ha Hb]. split; [| exact Hb].
  rewrite no_double_cons, Ha, andb_true_r.
  destruct a; [now rewrite orb_true_r | exact Hx].
Qed.

Lemma drop_while_head (f : ascii -> bool) (s : list ascii) :
  head_free f (drop_while f s) = true.
Proof.
  induction s as [| c t IH]; [reflexivity |]. simpl.
  destruct (f c) eqn:E; [exact IH |]. simpl. now rewrite E.
Qed.

Lemma trim_seps_trimmed (s : list ascii) : trimmed (trim_seps s) = true.
Proof.
  unfold trimmed, trim_seps. rewrite rev_involutive, drop_while_head.
  rewrite andb_true_r.
  pose proof (drop_while_head is_sep s) as Hy.
  pose proof (drop_while_split is_sep (rev (drop_while is_sep s))) as Hs.
  pose proof (drop_while_head is_sep (rev (drop_while is_sep s))) as Hz.
  destruct (drop_while is_sep (rev (drop_while is_sep s))) as [| c z] eqn:Ez;
    [reflexivity |].
  apply (f_equal (@rev ascii)) in Hs.
  rewrite rev_involutive, rev_app_distr in Hs.
  rewrite Hs in Hy. destruct (rev (c :: z)) as [| x y] eqn:Er.
  - apply (f_equal (@length ascii)) in Er. rewrite length_rev in Er.
    discriminate.
  - exact Hy.
Qed.

(** X1.  The cleaned base that [cleanName] computes has no two neighbouring
    separators and neither starts nor ends with one; when it is not empty
    the result is that base followed by the extension, and the result for
    a name that is not empty is never empty. *)
Theorem cleanName_normal_form (name : list ascii) (isFile : bool) :
  no_double is_sep (clean_base (name_base name isFile)) = true
  /\ trimmed (clean_base (name_base name isFile)) = true
  /\ (clean_base (name_base name isFile) <> [] ->
      cleanName name isFile
      = clean_base (name_base name isFile) ++ name_ext name isFile)
  /\ (name <> [] -> cleanName name isFile <> []).
Proof.
  split; [| split; [| split]].
  - unfold clean_base.
    match goal with
    | |- no_double _ (trim_seps ?x) = true =>
        destruct (trim_seps_infix x) as (a & b & Hx & _);
        assert (Hn : no_double is_sep x = true)
          by (apply (collapse_runs_normal is_sep "_" eq_refl));
        rewrite Hx in Hn; apply no_double_app in Hn;
        destruct Hn as [_ Hn]; apply no_double_app in Hn; tauto
    end.
  - apply trim_seps_trimmed.
  - intros Hne. unfold cleanName.
    destruct (clean_base (name_base name isFile)); [congruence |].
    destruct isFile; [reflexivity |]. unfold name_ext.
    now rewrite app_nil_r.
  - intros Hne. unfold cleanName.
    destruct (clean_base (name_base name isFile)) as [| c b];
      destruct isFile, name; try congruence; discriminate.
Qed.

Lemma split_on_components (sep : ascii -> bool) (s : list ascii) :
  Forall (Forall (fun c => sep c = false)) (split_on sep s).
Proof.
  induction s as [| c t IH]; simpl; [repeat constructor |].
  destruct (sep c) eqn:E; [constructor; [constructor | exact IH] |].
  destruct (split_on sep t) as [| h r]; [repeat constructor; exact E |].
  inversion IH; subst. constructor; [constructor; assumption | assumption].
Qed.

Lemma includes_unit_false (s : list ascii) (c0 : ascii) :
  includes s [c0] = false -> Forall (fun c => Ascii.eqb c c0 = false) s.
Proof.
  induction s as [| c t IH]; intros H; [constructor |].
  simpl in H. apply orb_false_iff in H. destruct H as [H1 H2].
  constructor; [| auto].
  rewrite andb_true_r in H1. rewrite Ascii.eqb_sym. exact H1.
Qed.

Lemma last_is_member {A} (l : list A) (d : A) :
  l <> [] -> In (List.last l d) l.
Proof.
  induction l as [| x l IH]; [congruence |]. intros _.
  destruct l as [| y l]; [now left |]. right. apply IH. discriminate.
Qed.

Lemma last_segment_no_slash (raw : list ascii) :
  Forall (fun c => is_slash c = false) (last_segment raw).
Proof.
  unfold last_segment. destruct (includes raw (lit "/")) eqn:E.
  - pose proof (split_on_components is_slash raw) as H.
    rewrite Forall_forall in H.
    destruct (split_on is_slash raw) as [| h r] eqn:Es; [constructor |].
    apply H. apply list_elem_of_In.
    apply last_is_member. discriminate.
  - now apply includes_unit_false.
Qed.

Lemma collapse_runs_all (P : ascii -> Prop) (cls : ascii -> bool) (r : ascii) :
  P r -> forall s b, Forall P s -> Forall P (collapse_runs cls r b s).
Proof.
  intros Hr. induction s as [| c t IH]; intros b H; [constructor |].
  inversion H as [| ? ? Hc Ht]; subst. simpl.
  destruct (cls c).
  - destruct b; [auto |]. destruct t as [| d t']; [auto |].
    destruct (cls d); constructor; auto.
  - constructor; auto.
Qed.

Lemma strip_num_suffix_prefix (s : list ascii) :
  exists b, s = strip_num_suffix s ++ b.
Proof.
  unfold strip_num_suffix.
  pose proof (drop_while_split is_digit (rev s)) as Hs.
  destruct (take_while is_digit (rev s)) as [| d ds];
    [exists []; now rewrite app_nil_r |].
  destruct (drop_while is_digit (rev s)) as [| c rest];
    [exists []; now rewrite app_nil_r |].
  destruct (is_underscore c); [| exists []; now rewrite app_nil_r].
  exists (c :: rev (d :: ds)).
  rewrite <- (rev_involutive s), Hs, rev_app_distr.
  change (rev (c :: rest)) with (rev rest ++ [c]).
  now rewrite <- app_assoc.
Qed.

Lemma strip_head_suffix (ps : list pat) (s : list ascii) :
  exists a, s = a ++ strip_head ps s.
Proof.
  unfold strip_head. destruct (match_alt ps s) eqn:E.
  - exact (match_alt_split _ _ _ E).
  - exists []. reflexivity.
Qed.

(** X2.  [cleanTitle] returns a title that is not empty for a title that is
    not empty.  Unless it falls back to the title as it was, what it
    returns holds no "/", no two neighbouring underscores, and neither
    starts nor ends with a hyphen or an underscore. *)
Theorem cleanTitle_normal_form (raw : list ascii) :
  (raw <> [] -> cleanTitle raw <> [])
  /\ (cleanTitle raw = raw
      \/ (Forall (fun c => is_slash c = false) (cleanTitle raw)
          /\ no_double is_underscore (cleanTitle raw) = true
          /\ trimmed (cleanTitle raw) = true)).
Proof.
  unfold cleanTitle.
  set (s2 := strip_num_suffix (strip_head title_prefixes (last_segment raw))).
  set (s3 := collapse_runs is_underscore "_" false s2).
  destruct (trim_seps s3) as [| c t] eqn:E.
  - split; [auto | now left].
  - split; [discriminate |]. right. rewrite <- E.
    destruct (trim_seps_infix s3) as (a & b & H3 & _).
    split; [| split].
    + assert (H : Forall (fun c => is_slash c = false) s3).
      { apply collapse_runs_all; [reflexivity |]. subst s2.
        destruct (strip_num_suffix_prefix
                    (strip_head title_prefixes (last_segment raw)))
          as [x Hx].
        destruct (strip_head_suffix title_prefixes (last_segment raw))
          as [y Hy].
        pose proof (last_segment_no_slash raw) as Hl.
        rewrite Hy in Hl. apply Forall_app in Hl. destruct Hl as [_ Hl].
        rewrite Hx in Hl. apply Forall_app in Hl. tauto. }
      rewrite H3 in H. apply Forall_app in H. destruct H as [_ H].
      apply Forall_app in H. tauto.
    + assert (H : no_double is_underscore s3 = true)
        by (apply (collapse_runs_normal is_underscore "_" eq_refl)).
      rewrite H3 in H. apply no_double_app in H. destruct H as [_ H].
      apply no_double_app in H. tauto.
    + apply trim_seps_trimmed.
Qed.

(** ** rename.js: the calls of a pass *)

Lemma renameSafe_call_ok (dry : bool) (dir : list (list ascii))
    (names : list (list ascii)) (old : list ascii) (isFile : bool) :
  call_ok dry {| ev_parent := dir; ev_old := old;
                 ev_new := cleanName old isFile;
                 ev_result := renameSafe dry names old
                                (cleanName old isFile) |}.
Proof.
  unfold call_ok, renameSafe, dst_exists.
  cbn [ev_new ev_old ev_result].
  split; [destruct isFile; auto |].
  destruct (str_eqb old (cleanName old isFile)) eqn:E.
  - apply str_eqb_true in E. repeat split; try discriminate; auto.
  - apply str_eqb_false in E.
    assert (E' : cleanName old isFile <> old) by congruence.
    destruct dry; [repeat split; try discriminate; intros; congruence |].
    destruct (str_eqb (cleanName old isFile) (lit ".")) eqn:E1;
      [repeat split; try discriminate; intros; congruence |].
    destruct (str_eqb (cleanName old isFile) (lit "..")) eqn:E2;
      [repeat split; try discriminate; intros; congruence |].
    apply str_eqb_false in E1, E2. cbn [orb].
    destruct (existsb _ names);
      repeat split; try discriminate; intros; try congruence.
Qed.

Lemma process_entries_calls (dry : bool)
    (rec : list (list ascii) -> node -> node * list rename_event)
    (dir : list (list ascii)) (todo : list node) :
  Forall (fun x => forall full, Forall (call_ok dry) (snd (rec full x)))
    todo ->
  forall done,
    Forall (call_ok dry) (snd (process_entries dry rec dir done todo)).
Proof.
  induction 1 as [| x todo Hx Hrest IH]; intros done; [constructor |].
  simpl. specialize (Hx (dir ++ [node_name x])).
  destruct (rec (dir ++ [node_name x]) x) as [entry1 ev1].
  match goal with
  | |- context [process_entries dry rec dir ?d todo] =>
      specialize (IH d); destruct (process_entries dry rec dir d todo)
        as [out ev3]
  end.
  simpl in *. apply Forall_app. split; [exact Hx |].
  constructor; [apply renameSafe_call_ok | exact IH].
Qed.

Lemma process_node_calls (dry : bool) (n : node) :
  forall full, Forall (call_ok dry) (snd (process_node dry full n)).
Proof.
  induction n as [nm | nm ch IH] using node_induction; intros full;
    [constructor |].
  simpl.
  pose proof (process_entries_calls dry (process_node dry) full ch IH [])
    as H.
  destruct (process_entries dry (process_node dry) full [] ch) as [ch' ev].
  exact H.
Qed.



Lemma process_entries_dry
    (rec : list (list ascii) -> node -> node * list rename_event)
    (dir : list (list ascii)) (todo : list node) :
  Forall (fun x => forall full, fst (rec full x) = x) todo ->
  forall done,
    fst (process_entries true rec dir done todo) = done ++ todo.
Proof.
  induction 1 as [| x todo Hx Hrest IH]; intros done.
  - simpl. now rewrite app_nil_r.
  - simpl. specialize (Hx (dir ++ [node_name x])).
    destruct (rec (dir ++ [node_name x]) x) as [entry1 ev1].
    simpl in Hx. subst entry1.
    assert (Hr : forall names old new,
               renameSafe true names old new <> Renamed).
    { intros names old new. unfold renameSafe.
      destruct (str_eqb old new); discriminate. }
    match goal with
    | |- context [process_entries true rec dir (done ++ [?e2]) todo] =>
        assert (He : e2 = x)
    end.
    { match goal with
      | |- context [renameSafe true ?n ?o ?w] =>
          specialize (Hr n o w); destruct (renameSafe true n o w)
      end; congruence. }
    rewrite He. specialize (IH (done ++ [x])).
    destruct (process_entries true rec dir (done ++ [x]) todo) as [res ev3].
    simpl in *. now rewrite IH, <- app_assoc.
Qed.

Lemma process_node_dry (n : node) :
  forall full, fst (process_node true full n) = n.
Proof.
  induction n as [nm | nm ch IH] using node_induction; intros full;
    [reflexivity |].
  simpl.
  pose proof (process_entries_dry (process_node true) full ch IH []) as H.
  destruct (process_entries true (process_node true) full [] ch) as [ch' ev].
  simpl in *. now subst.
Qed.

(** X5.  With [--dry-run] a rename pass leaves the tree as it is, and every
    call either finds the name clean or prints its DRY line. *)
Theorem processDir_dry_run (dir : list (list ascii)) (entries : list node) :
  fst (processDir true dir entries) = entries
  /\ Forall (fun e => ev_result e = Unchanged \/ ev_result e = DryRun)
       (snd (processDir true dir entries)).
Proof.
  split.
  - unfold processDir.
    apply (process_entries_dry (process_node true) dir entries).
    apply Forall_forall. intros x _. apply process_node_dry.
  - assert (H : Forall (call_ok true) (snd (processDir true dir entries))).
    { unfold processDir. apply process_entries_calls.
      apply Forall_forall. intros x _. apply process_node_calls. }
    eapply Forall_impl; [exact H |]. intros e (_ & _ & _ & He & Hr).
    destruct (ev_result e); auto.
    + specialize (He eq_refl). discriminate.
    + destruct (Hr eq_refl). discriminate.
Qed.

(** ** restructure.js: slugs, categories and aliases *)

Lemma lower_char_fixed (c : ascii) :
  is_lower c || is_digit c = true -> lower_char c = c.
Proof.
  intros H. each_ascii c; vm_compute in H; try discriminate H; reflexivity.
Qed.

Lemma lower_char_idem (c : ascii) : lower_char (lower_char c) = lower_char c.
Proof. each_ascii c; reflexivity. Qed.

Lemma filter_fixed (f : ascii -> bool) (s : list ascii) :
  Forall (fun c => f c = true) s -> List.filter f s = s.
Proof.
  induction 1 as [| c s Hc Hs IH]; [reflexivity |]. simpl.
  now rewrite Hc, IH.
Qed.

Lemma map_fixed (f : ascii -> ascii) (s : list ascii) :
  Forall (fun c => f c = c) s -> map f s = s.
Proof.
  induction 1 as [| c s Hc Hs IH]; [reflexivity |]. simpl.
  now rewrite Hc, IH.
Qed.

Lemma slug_units (s : list ascii) :
  Forall (fun c => is_lower c || is_digit c = true) (slug s).
Proof.
  unfold slug. apply Forall_forall. intros c Hc.
  apply list_elem_of_In, filter_In in Hc. tauto.
Qed.

(** X6.  A slug holds lower-case letters and digits only.  [slug] leaves a
    slug as it is, does not depend on the case of its argument, and the
    slug of two strings put together is the two slugs put together. *)
Theorem slug_properties (s t : list ascii) :
  Forall (fun c => is_lower c || is_digit c = true) (slug s)
  /\ slug (slug s) = slug s
  /\ slug (toLowerCase s) = slug s
  /\ slug (s ++ t) = slug s ++ slug t.
Proof.
  split; [apply slug_units |]. split; [| split].
  - pose proof (slug_units s) as H. unfold slug at 1. unfold toLowerCase.
    rewrite map_fixed.
    + now apply filter_fixed.
    + eapply Forall_impl; [exact H |]. intros c Hc.
      now apply lower_char_fixed.
  - unfold slug, toLowerCase. rewrite map_map. f_equal.
    apply map_ext. intros c. apply lower_char_idem.
  - unfold slug, toLowerCase. now rewrite map_app, List.filter_app.
Qed.

Lemma map_get_set_same (k v : list ascii)
    (m : list (list ascii * list ascii)) :
  map_get k (map_set k v m) = Some v.
Proof.
  induction m as [| [k' v'] m IH]; simpl.
  - now rewrite str_eqb_refl.
  - destruct (str_eqb k' k) eqn:E; simpl.
    + now rewrite str_eqb_refl.
    + now rewrite E.
Qed.

Lemma map_get_set_other (k k0 v : list ascii)
    (m : list (list ascii * list ascii)) :
  k0 <> k -> map_get k0 (map_set k v m) = map_get k0 m.
Proof.
  intros Hne. induction m as [| [k' v'] m IH]; simpl.
  - apply str_eqb_false in Hne.
    destruct (str_eqb k k0) eqn:E; [| reflexivity].
    apply str_eqb_true in E. apply str_eqb_false in Hne. congruence.
  - destruct (str_eqb k' k) eqn:E; simpl.
    + apply str_eqb_true in E. subst k'.
      destruct (str_eqb k k0) eqn:E'; [| reflexivity].
      apply str_eqb_true in E'. congruence.
    + now rewrite IH.
Qed.

Lemma map_keys_set (k v : list ascii) (m : list (list ascii * list ascii)) :
  map_keys (map_set k v m)
  = if str_in k (map_keys m) then map_keys m else map_keys m ++ [k].
Proof.
  unfold map_keys, str_in. induction m as [| [k' v'] m IH]; [reflexivity |].
  simpl. destruct (str_eqb k' k) eqn:E.
  - apply str_eqb_true in E. subst k'. simpl. now rewrite str_eqb_refl.
  - simpl. rewrite IH.
    assert (E' : str_eqb k k' = false).
    { apply str_eqb_false. apply str_eqb_false in E. congruence. }
    rewrite E'. simpl. now destruct (existsb (str_eqb k) (map fst m)).
Qed.

Lemma map_set_NoDup (k v : list ascii) (m : list (list ascii * list ascii)) :
  NoDup (map_keys m) -> NoDup (map_keys (map_set k v m)).
Proof.
  intros H. rewrite map_keys_set. destruct (str_in k (map_keys m)) eqn:E;
    [exact H |].
  apply NoDup_app. split; [exact H |]. split.
  - intros x Hx Hx'. apply list_elem_of_singleton in Hx'. subst x.
    apply list_elem_of_In, str_in_spec in Hx. congruence.
  - apply NoDup_singleton.
Qed.

Lemma map_get_In (k v : list ascii) (m : list (list ascii * list ascii)) :
  map_get k m = Some v -> In (k, v) m.
Proof.
  induction m as [| [k' v'] m IH]; simpl; [discriminate |].
  destruct (str_eqb k' k) eqn:E.
  - apply str_eqb_true in E. intros [= ->]. subst. now left.
  - intros H. right. auto.
Qed.

Lemma categories_fold_get (pfx : list ascii)
    (P : list ascii -> list ascii -> Prop) (l : list node) :
  (forall e, In e l -> isDirectory e = true ->
             startsWith pfx (node_name e) = true ->
             P (slug (skipn (length pfx) (node_name e))) (node_name e)) ->
  forall m,
    (forall k v, map_get k m = Some v -> P k v) ->
    forall k v,
      map_get k
        (fold_left
           (fun m e =>
              if isDirectory e && startsWith pfx (node_name e)
              then map_set (slug (skipn (length pfx) (node_name e)))
                     (node_name e) m
              else m) l m) = Some v ->
      P k v.
Proof.
  induction l as [| e l IH]; intros Hl m Hm k v; simpl; [apply Hm |].
  apply IH.
  - intros e' He'. apply Hl. now right.
  - intros k' v'.
    destruct (isDirectory e && startsWith pfx (node_name e)) eqn:E;
      [| apply Hm].
    apply andb_true_iff in E. destruct E as [Ed Ep].
    destruct (decide (k' = slug (skipn (length pfx) (node_name e))))
      as [-> | Hne].
    + rewrite map_get_set_same. intros [= <-]. apply Hl; auto. now left.
    + rewrite map_get_set_other by exact Hne. apply Hm.
Qed.

Lemma categories_fold_keep (pfx : list ascii) (k : list ascii)
    (l : list node) :
  (forall e, In e l -> isDirectory e = true ->
             startsWith pfx (node_name e) = true ->
             slug (skipn (length pfx) (node_name e)) <> k) ->
  forall m,
    map_get k
      (fold_left
         (fun m e =>
            if isDirectory e && startsWith pfx (node_name e)
            then map_set (slug (skipn (length pfx) (node_name e)))
                   (node_name e) m
            else m) l m) = map_get k m.
Proof.
  induction l as [| e l IH]; intros Hl m; simpl; [reflexivity |].
  rewrite IH by (intros e' He'; apply Hl; now right).
  destruct (isDirectory e && startsWith pfx (node_name e)) eqn:E;
    [| reflexivity].
  apply andb_true_iff in E. destruct E as [Ed Ep].
  apply map_get_set_other. intros ->. eapply Hl; eauto. now left.
Qed.

Lemma categories_fold_NoDup (pfx : list ascii) (l : list node) :
  forall m,
    NoDup (map_keys m) ->
    NoDup (map_keys
             (fold_left
                (fun m e =>
                   if isDirectory e && startsWith pfx (node_name e)
                   then map_set (slug (skipn (length pfx) (node_name e)))
                          (node_name e) m
                   else m) l m)).
Proof.
  induction l as [| e l IH]; intros m H; simpl; [exact H |].
  apply IH. destruct (isDirectory e && startsWith pfx (node_name e));
    [now apply map_set_NoDup | exact H].
Qed.

Lemma categories_sound (pfx : list ascii) (listing : list node)
    (k v : list ascii) :
  map_get k (categories pfx listing) = Some v ->
  exists e, In e listing /\ isDirectory e = true /\ node_name e = v
            /\ startsWith pfx v = true
            /\ k = slug (skipn (length pfx) v).
Proof.
  unfold categories.
  apply (categories_fold_get pfx
           (fun k v => exists e, In e listing /\ isDirectory e = true
                                 /\ node_name e = v
                                 /\ startsWith pfx v = true
                                 /\ k = slug (skipn (length pfx) v))).
  - intros e He Hd Hp. exists e. auto.
  - discriminate.
Qed.

(** X7.  The map of the categories of a listing has one entry per slug.
    Every entry is a directory of the listing whose name starts with the
    prefix, under the slug of the rest of its name; and the last directory
    of the listing with a given slug is the one the map holds for it. *)
Theorem categories_spec (pfx : list ascii) (listing : list node) :
  NoDup (map_keys (categories pfx listing))
  /\ (forall k v,
        map_get k (categories pfx listing) = Some v ->
        exists e, In e listing /\ isDirectory e = true /\ node_name e = v
                  /\ startsWith pfx v = true
                  /\ k = slug (skipn (length pfx) v))
  /\ (forall l1 e l2,
        listing = l1 ++ e :: l2 ->
        isDirectory e = true ->
        startsWith pfx (node_name e) = true ->
        (forall e', In e' l2 -> isDirectory e' = true ->
                    startsWith pfx (node_name e') = true ->
                    slug (skipn (length pfx) (node_name e'))
                    <> slug (skipn (length pfx) (node_name e))) ->
        map_get (slug (skipn (length pfx) (node_name e)))
          (categories pfx listing) = Some (node_name e)).
Proof.
  split; [| split].
  - apply categories_fold_NoDup. constructor.
  - apply categories_sound.
  - intros l1 e l2 -> Hd Hp Hlast. unfold categories.
    rewrite fold_left_app. simpl. rewrite Hd, Hp. simpl.
    rewrite categories_fold_keep by exact Hlast.
    apply map_get_set_same.
Qed.

Lemma categories_spec_witness :
  let listing :=
    [ Dir (lit "Res_App-Integration") []; File (lit "Res_Notes");
      Dir (lit "Res_App_Integration") []; Dir (lit "Other") [] ] in
  map_get (lit "appintegration") (resCats listing)
  = Some (lit "Res_App_Integration").
Proof.
  intros listing.
  destruct (categories_spec (lit "Res_") listing) as (_ & _ & Hlast).
  apply (Hlast [Dir (lit "Res_App-Integration") []; File (lit "Res_Notes")]
           (Dir (lit "Res_App_Integration") []) [Dir (lit "Other") []]);
    try reflexivity.
  intros e' [<- | []] _ Hp. vm_compute in Hp. discriminate Hp.
Defined.

(** X8.  An inferred alias is never recorded for a slug that is a resource
    slug itself, and what is recorded is a resource slug, not empty, that
    contains the architecture slug or is contained in it. *)
Theorem autoAlias_sound (archKeys resKeys : list (list ascii))
    (k h : list ascii) :
  autoAlias archKeys resKeys !! k = Some h ->
  In k archKeys /\ ~ In k resKeys /\ In h resKeys /\ h <> []
  /\ related h k.
Proof.
  rewrite autoAlias_lookup. destruct (str_in k archKeys) eqn:Ea;
    [| discriminate].
  unfold inferred. destruct (str_in k resKeys) eqn:Er; [discriminate |].
  destruct (find_hit k resKeys) as [[| c t] |] eqn:Ef; try discriminate.
  intros [= <-]. unfold find_hit in Ef. apply find_some in Ef.
  destruct Ef as [Hin Hrel].
  split; [now apply str_in_spec |]. split.
  - intros H. apply str_in_spec in H. congruence.
  - split; [exact Hin |]. split; [discriminate | now apply related_test].
Qed.

Lemma autoAlias_sound_witness :
  let archKeys := map_keys (archCats [Dir (lit "Arch_Database") []]) in
  let resKeys := map_keys (resCats [Dir (lit "Res_Databases") []]) in
  In (lit "databases") resKeys /\ related (lit "databases") (lit "database").
Proof.
  intros archKeys resKeys.
  destruct (autoAlias_sound archKeys resKeys (lit "database")
              (lit "databases")) as (_ & _ & H1 & _ & H2).
  - vm_compute. reflexivity.
  - split; assumption.
Defined.

Lemma find_dir_unique (l : list node) (nm : list ascii) (ch : list node) :
  NoDup (map node_name l) -> In (Dir nm ch) l -> find_dir nm l = Some ch.
Proof.
  induction l as [| e l IH]; intros Hnd Hin; [destruct Hin |].
  simpl in Hnd. apply NoDup_cons in Hnd. destruct Hnd as [Hfresh Hnd].
  destruct Hin as [-> | Hin].
  - simpl. now rewrite str_eqb_refl.
  - assert (Hne : node_name e <> nm).
    { intros E. apply Hfresh. rewrite E. apply list_elem_of_In.
      change nm with (node_name (Dir nm ch)). now apply in_map. }
    apply str_eqb_false in Hne.
    destruct e as [n | n c]; simpl in *; rewrite Hne; auto.
Qed.

(** X9.  What [mergeCat] resolves as the resource directory of a category,
    through the alias table or by the slug itself, is always a directory of
    the resource listing whose name starts with "Res_": the walk of it
    cannot fail. *)
Theorem resolve_finds_directory
    (al : gmap (list ascii) (list ascii)) (resRoot : list ascii)
    (resListing : list node) (slugCat r : list ascii) :
  wf_listing resListing = true ->
  resolve al (resCats resListing) slugCat = Some r ->
  startsWith (lit "Res_") r = true
  /\ exists ch,
       In (Dir r ch) resListing
       /\ walk_dir resRoot resListing r
          = Some (walk (path_join resRoot r) ch).
Proof.
  intros Hwf Hr.
  assert (Hget : exists k, map_get k (resCats resListing) = Some r).
  { unfold resolve in Hr. destruct (al !! slugCat); [eauto |].
    destruct (str_eqb slugCat (lit "constructor")); [discriminate | eauto]. }
  destruct Hget as [k Hk]. apply categories_sound in Hk.
  destruct Hk as (e & He & Hd & Hn & Hp & _).
  split; [exact Hp |].
  destruct e as [nm | nm ch]; [discriminate |]. simpl in Hn. subst nm.
  exists ch. split; [exact He |].
  unfold walk_dir. destruct (wf_listing_inv _ Hwf) as [Hnd _].
  now rewrite (find_dir_unique _ _ _ Hnd He).
Qed.

Lemma resolve_finds_directory_witness :
  let archListing := [ Dir (lit "Arch_IoT") [] ] in
  let resListing :=
    [ Dir (lit "Res_Internet-of-Things") [ File (lit "Thing_48.svg") ] ] in
  walk_dir (lit "/raw/R") resListing (lit "Res_Internet-of-Things")
  = Some [ lit "/raw/R/Res_Internet-of-Things/Thing_48.svg" ].
Proof.
  intros archListing resListing.
  destruct (resolve_finds_directory (the_alias archListing resListing)
              (lit "/raw/R") resListing (lit "iot")
              (lit "Res_Internet-of-Things"))
    as (_ & ch & Hin & Hw).
  - vm_compute. reflexivity.
  - vm_compute. reflexivity.
  - rewrite Hw. destruct Hin as [[= <-] | []]. vm_compute. reflexivity.
Defined.

(** ** restructure.js: the newest root *)

Lemma localeCompare_opp (a : list ascii) :
  forall b, localeCompare b a = CompOpp (localeCompare a b).
Proof.
  induction a as [| x a IH]; intros [| y b]; simpl; try reflexivity.
  rewrite (Nat.compare_antisym (code x) (code y)).
  destruct (code x ?= code y); simpl; auto.
Qed.

Lemma localeCompare_trans (a : list ascii) :
  forall b c,
    localeCompare a b <> Gt -> localeCompare b c <> Gt ->
    localeCompare a c <> Gt.
Proof.
  induction a as [| x a IH]; intros [| y b] [| z c]; simpl; try congruence.
  destruct (Nat.compare_spec (code x) (code y)),
    (Nat.compare_spec (code y) (code z)),
    (Nat.compare_spec (code x) (code z));
    try lia; try congruence; eauto.
Qed.

Section Sorting.

Context {A : Type} (cmp : A -> A -> comparison).
Hypothesis cmp_opp : forall a b, cmp b a = CompOpp (cmp a b).
Hypothesis cmp_trans :
  forall a b c, cmp a b <> Gt -> cmp b c <> Gt -> cmp a c <> Gt.

Lemma cmp_refl (a : A) : cmp a a <> Gt.
Proof.
  intros H. pose proof (cmp_opp a a) as E. rewrite H in E. discriminate.
Qed.

Lemma sort_insert_In (x z : A) (l : list A) :
  In z (sort_insert cmp x l) <-> z = x \/ In z l.
Proof.
  induction l as [| y t IH]; simpl; [intuition |].
  destruct (cmp x y); simpl; try rewrite IH; intuition.
Qed.

Lemma js_sort_In (z : A) (l : list A) : In z (js_sort cmp l) <-> In z l.
Proof.
  induction l as [| x t IH]; simpl; [reflexivity |].
  rewrite sort_insert_In, IH. intuition.
Qed.

(** The head of the list is put before every element by [cmp]. *)
Lemma sort_insert_head (x : A) (l : list A) :
  (forall h t, l = h :: t -> forall y, In y l -> cmp h y <> Gt) ->
  forall h t, sort_insert cmp x l = h :: t ->
  forall y, In y (sort_insert cmp x l) -> cmp h y <> Gt.
Proof.
  intros Hl h t E y Hy. destruct l as [| y0 l0].
  - simpl in *. injection E as <- <-. destruct Hy as [<- | []].
    apply cmp_refl.
  - specialize (Hl y0 l0 eq_refl). simpl in E, Hy.
    destruct (cmp x y0) eqn:Ec.
    + injection E as <- <-. destruct Hy as [<- | Hy]; [apply cmp_refl |].
      apply (cmp_trans x y0 y); [congruence | now apply Hl].
    + injection E as <- <-. destruct Hy as [<- | Hy]; [apply cmp_refl |].
      apply (cmp_trans x y0 y); [congruence | now apply Hl].
    + injection E as <- <-. destruct Hy as [<- | Hy]; [apply cmp_refl |].
      apply sort_insert_In in Hy. destruct Hy as [-> | Hy].
      * rewrite cmp_opp, Ec. discriminate.
      * apply Hl. now right.
Qed.

Lemma js_sort_head (l : list A) :
  forall h t, js_sort cmp l = h :: t ->
  forall y, In y l -> cmp h y <> Gt.
Proof.
  induction l as [| x l IH]; intros h t E y Hy; [destruct Hy |].
  simpl in E.
  apply (sort_insert_head x (js_sort cmp l)) with (t := t); auto.
  - intros h' t' E' y' Hy'. apply (IH h' t' E'). now apply js_sort_In.
  - apply sort_insert_In. destruct Hy as [-> | Hy]; [now left |].
    right. now apply js_sort_In.
Qed.

End Sorting.

Lemma newer_first_opp (a b : node) :
  newer_first b a = CompOpp (newer_first a b).
Proof. unfold newer_first. apply localeCompare_opp. Qed.

Lemma newer_first_trans (a b c : node) :
  newer_first a b <> Gt -> newer_first b c <> Gt -> newer_first a c <> Gt.
Proof.
  unfold newer_first. intros H1 H2.
  apply (localeCompare_trans _ (date_key (node_name b))); assumption.
Qed.

Lemma digits_value_app (s : list ascii) :
  forall acc,
    fold_left (fun a c => 10 * a + (code c - 48)) s acc
    = acc * 10 ^ length s + digits_value s.
Proof.
  unfold digits_value.
  induction s as [| c s IH]; intros acc; [cbn; lia |].
  cbn [fold_left length].
  rewrite (IH (10 * acc + (code c - 48))), (IH (10 * 0 + (code c - 48))).
  rewrite Nat.pow_succ_r'. nia.
Qed.

Lemma digits_value_bound (s : list ascii) :
  Forall (fun c => is_digit c = true) s -> digits_value s < 10 ^ length s.
Proof.
  induction 1 as [| c s Hc Hs IH]; [cbn; lia |].
  unfold digits_value. cbn [fold_left length].
  rewrite digits_value_app, Nat.pow_succ_r'.
  unfold is_digit, between in Hc. apply andb_true_iff in Hc.
  destruct Hc as [H1 H2]. apply Nat.leb_le in H1, H2. nia.
Qed.

(** On strings of digits of one length the order of the code units is the
    order of the numbers. *)
Lemma localeCompare_digits (a : list ascii) :
  forall b,
    length a = length b ->
    Forall (fun c => is_digit c = true) a ->
    Forall (fun c => is_digit c = true) b ->
    localeCompare a b <> Gt -> digits_value a <= digits_value b.
Proof.
  induction a as [| x a IH]; intros [| y b] Hl Ha Hb Hc;
    try discriminate; [reflexivity |].
  inversion Ha as [| ? ? Hx Ha']; inversion Hb as [| ? ? Hy Hb']; subst.
  injection Hl as Hl. cbn [localeCompare] in Hc.
  unfold digits_value. cbn [fold_left].
  rewrite !digits_value_app, <- Hl.
  pose proof (digits_value_bound a Ha') as Bx.
  unfold is_digit, between in Hx, Hy.
  apply andb_true_iff in Hx, Hy. destruct Hx as [X1 X2], Hy as [Y1 Y2].
  apply Nat.leb_le in X1, X2, Y1, Y2.
  destruct (Nat.compare_spec (code x) (code y)) as [E | E | E].
  - rewrite E. specialize (IH b Hl Ha' Hb' Hc). lia.
  - nia.
  - congruence.
Qed.

Lemma date_key_digits (name : list ascii) :
  Forall (fun c => is_digit c = true) (date_key name).
Proof.
  unfold date_key, date_stamp.
  match goal with
  | |- context [if ?b then _ else _] => destruct b eqn:E8
  end.
  - apply andb_true_iff in E8. destruct E8 as [E8 _].
    apply andb_true_iff in E8. destruct E8 as [_ E8].
    apply Forall_rev. apply Forall_forall. intros c Hc.
    rewrite forallb_forall in E8. apply E8. now apply list_elem_of_In.
  - match goal with
    | |- context [if ?b then _ else _] => destruct b eqn:E6
    end; [| constructor].
    apply andb_true_iff in E6. destruct E6 as [E6 _].
    apply andb_true_iff in E6. destruct E6 as [_ E6].
    apply Forall_rev. apply Forall_forall. intros c Hc.
    rewrite forallb_forall in E6. apply E6. now apply list_elem_of_In.
Qed.

(** X10.  [newest] fails exactly when the listing has no directory whose
    name starts with the prefix.  Otherwise it returns the path of such a
    directory, and [localeCompare] puts the stamp of no such directory
    after its stamp (the stamp is the eight or else six digits that end
    the name after an underscore, the empty string without them; the
    order is that of the code units, a proper prefix first).  This is the
    order of the numbers among stamps of one width, and so the order of
    the dates for stamps that are all written year first with one width;
    it is not the order of the dates otherwise. *)
Theorem newest_spec (root : list ascii) (listing : list node)
    (pfx : list ascii) :
  (newest root listing pfx = None <->
   forall e, In e listing ->
             isDirectory e && startsWith pfx (node_name e) = false)
  /\ (forall p, newest root listing pfx = Some p ->
      exists e,
        In e listing /\ isDirectory e = true
        /\ startsWith pfx (node_name e) = true
        /\ p = path_join root (node_name e)
        /\ forall e', In e' listing -> isDirectory e' = true ->
                      startsWith pfx (node_name e') = true ->
                      localeCompare (date_key (node_name e'))
                        (date_key (node_name e)) <> Gt
                      /\ (length (date_key (node_name e'))
                          = length (date_key (node_name e)) ->
                          digits_value (date_key (node_name e'))
                          <= digits_value (date_key (node_name e)))).
Proof.
  unfold newest.
  set (f := fun e => isDirectory e && startsWith pfx (node_name e)).
  assert (Hmax : forall d, In d (List.filter f listing) ->
            (forall y, In y (List.filter f listing) ->
                       newer_first d y <> Gt) ->
            In d listing /\ isDirectory d = true
            /\ startsWith pfx (node_name d) = true
            /\ forall e', In e' listing -> isDirectory e' = true ->
                 startsWith pfx (node_name e') = true ->
                 localeCompare (date_key (node_name e'))
                   (date_key (node_name d)) <> Gt
                 /\ (length (date_key (node_name e'))
                     = length (date_key (node_name d)) ->
                     digits_value (date_key (node_name e'))
                     <= digits_value (date_key (node_name d)))).
  { intros d Hd Hy. apply filter_In in Hd. destruct Hd as [Hin Hf].
    unfold f in Hf. apply andb_true_iff in Hf. destruct Hf as [H1 H2].
    split; [exact Hin |]. split; [exact H1 |]. split; [exact H2 |].
    intros e' He' Hd' Hp'.
    assert (Hc : localeCompare (date_key (node_name e'))
                   (date_key (node_name d)) <> Gt).
    { apply (Hy e'). apply filter_In. split; [exact He' |].
      unfold f. now rewrite Hd', Hp'. }
    split; [exact Hc |]. intros Hl.
    apply localeCompare_digits; auto using date_key_digits. }
  destruct (List.filter f listing) as [| d [| d2 rest]] eqn:Ef.
  - split.
    + split; [| reflexivity]. intros _ e He.
      destruct (f e) eqn:E; [| exact E].
      assert (In e (List.filter f listing))
        by (apply filter_In; split; assumption).
      rewrite Ef in H. destruct H.
    + discriminate.
  - split.
    + split; [discriminate |]. intros H.
      assert (Hd : In d (List.filter f listing)) by (rewrite Ef; now left).
      apply filter_In in Hd. destruct Hd as [Hin Hf].
      unfold f in Hf. rewrite (H d Hin) in Hf. discriminate.
    + intros p [= <-]. exists d.
      destruct (Hmax d) as (H1 & H2 & H3 & H4); [now left | |].
      * intros y [<- | []]. apply cmp_refl. apply newer_first_opp.
      * split; [exact H1 |]. split; [exact H2 |]. split; [exact H3 |].
        split; [reflexivity | exact H4].
  - assert (Hne : js_sort newer_first (d :: d2 :: rest) <> []).
    { intros E.
      assert (Hd : In d (js_sort newer_first (d :: d2 :: rest)))
        by (apply js_sort_In; now left).
      rewrite E in Hd. destruct Hd. }
    destruct (js_sort newer_first (d :: d2 :: rest)) as [| h t] eqn:Es;
      [congruence |].
    split.
    + split; [discriminate |]. intros H.
      assert (Hd : In d (List.filter f listing)) by (rewrite Ef; now left).
      apply filter_In in Hd. destruct Hd as [Hin Hf].
      unfold f in Hf. rewrite (H d Hin) in Hf. discriminate.
    + intros p [= <-]. exists h.
      destruct (Hmax h) as (H1 & H2 & H3 & H4).
      * apply (js_sort_In newer_first). rewrite Es. now left.
      * intros y Hy.
        apply (js_sort_head newer_first newer_first_opp newer_first_trans
                 _ h t Es y Hy).
      * split; [exact H1 |]. split; [exact H2 |]. split; [exact H3 |].
        split; [reflexivity | exact H4].
Qed.

(** ** restructure.js: what the copies do to the destination *)

Lemma extends_refl (d : dest_state) : extends d d.
Proof. split; [auto | set_solver]. Qed.

Lemma extends_trans (a b c : dest_state) :
  extends a b -> extends b c -> extends a c.
Proof. intros [H1 H2] [H3 H4]. split; [auto | set_solver]. Qed.

Lemma ensureDir_extends (p : list ascii) (d d' : dest_state) :
  ensureDir p d = Some d' -> extends d d'.
Proof.
  intros H. destruct (ensureDir_files _ _ _ H) as (Hf & Hd & _).
  split; [intros q v; now rewrite Hf | exact Hd].
Qed.

Lemma keeps_extends (d d' : dest_state) :
  (forall p v, files d !! p = Some v -> files d' !! p = Some v)
  /\ dirs d' = dirs d ->
  extends d d'.
Proof. intros [H1 H2]. split; [exact H1 | now rewrite H2]. Qed.

Lemma processGeneral_extends (cfg : config) (a : list (list ascii))
    (r : option (list (list ascii))) (d d' : dest_state) :
  processGeneral cfg a r d = Some d' -> extends d d'.
Proof.
  unfold processGeneral.
  destruct (ensureDir _ d) as [d0 |] eqn:E0; [| discriminate].
  destruct (ensureDir _ d0) as [d1 |] eqn:E1; [| discriminate].
  destruct (ingest cfg a d1) as [d2 |] eqn:E2; [| discriminate].
  intros H.
  eapply extends_trans; [eapply ensureDir_extends, E0 |].
  eapply extends_trans; [eapply ensureDir_extends, E1 |].
  eapply extends_trans; [eapply keeps_extends, ingest_keeps, E2 |].
  destruct r as [fs |].
  - eapply keeps_extends, ingest_keeps, H.
  - injection H as <-. apply extends_refl.
Qed.

Lemma pool_extends (cfg : config) (n : nat) (jobs : list job)
    (st : dest_state * stats) :
  extends (fst st) (fst (pool cfg n jobs st)).
Proof.
  destruct n as [| n]; [rewrite pool_none; apply extends_refl |].
  destruct (pool_perm cfg (S n) jobs st) as (js & _ & (Hf & Hd & _) & _);
    [lia |].
  destruct (worker_keeps cfg js st) as [Hk Hdk].
  split; [rewrite Hf; exact Hk | rewrite Hd, Hdk; reflexivity].
Qed.

Lemma mergeCat_extends (cfg : config) (archRoot resRoot : list ascii)
    (archListing resListing : list node) (slugCat archDirName : list ascii)
    (st st' : dest_state * stats) :
  mergeCat cfg archRoot resRoot archListing resListing slugCat archDirName st
  = Some st' ->
  extends (fst st) (fst st').
Proof.
  unfold mergeCat.
  destruct (str_eqb archDirName (lit "Arch_General-Icons")).
  - destruct (walk_dir archRoot archListing archDirName); [| discriminate].
    destruct (processGeneral _ _ _ _) as [d' |] eqn:E; [| discriminate].
    intros [= <-]. simpl. eapply processGeneral_extends, E.
  - destruct (ensureDir _ (fst st)) as [d1 |] eqn:E1; [| discriminate].
    destruct (find_dir archDirName archListing); [| discriminate].
    destruct (find_dir (size cfg) l); [| discriminate].
    match goal with
    | |- context [let '(_, _) := ?x in _] => destruct x as [jobs s1]
    end.
    match goal with
    | |- context [pool cfg ?n ?js ?s] =>
        pose proof (pool_extends cfg n js s) as H;
        destruct (pool cfg n js s) as [d2 s2]
    end.
    intros [= <-]. simpl in *.
    eapply extends_trans; [eapply ensureDir_extends, E1 | exact H].
Qed.

Lemma merge_loop_extends (cfg : config) (archRoot resRoot : list ascii)
    (archListing resListing : list node)
    (cats : list (list ascii * list ascii)) :
  forall st st',
    merge_loop cfg archRoot resRoot archListing resListing cats st
    = Some st' ->
    extends (fst st) (fst st').
Proof.
  induction cats as [| [s d] cats IH]; intros st st'; simpl.
  - intros [= <-]. apply extends_refl.
  - destruct (mergeCat _ _ _ _ _ _ _ _) as [st1 |] eqn:E; [| discriminate].
    intros H. eapply extends_trans; [eapply mergeCat_extends, E |].
    now apply IH.
Qed.

(** X11.  A merge that completes, live or dry, leaves every file the
    destination held with the bytes it had, and removes no directory:
    the copies are exclusive and nothing is deleted. *)
Theorem merge_keeps_destination (cfg : config)
    (archRoot resRoot : list ascii) (archListing resListing : list node)
    (d d' : dest_state) (s : stats) :
  merge cfg archRoot resRoot archListing resListing d = Some (d', s) ->
  extends d d'.
Proof.
  unfold merge.
  destruct (ensureDir (dest cfg) d) as [d0 |] eqn:E0; [| discriminate].
  intros H.
  eapply extends_trans; [eapply ensureDir_extends, E0 |].
  apply (merge_loop_extends _ _ _ _ _ _ _ _ H).
Qed.

Lemma merge_keeps_destination_witness :
  let cfg := {| dryRun := false; size := lit "48"; formats := [lit "svg"];
                concurrency := 1; allowUnmatched := false;
                dest := lit "/o" |} in
  let archListing :=
    [ Dir (lit "Arch_C") [ Dir (lit "48") [ File (lit "E.svg") ] ] ] in
  let d := {| files := {[ lit "/o/Arch_C/E.svg" := lit "/old/E.svg" ]};
              dirs := ∅; refused := fun _ _ => false; sched := [] |} in
  exists d' s,
    merge cfg (lit "/a") (lit "/r") archListing [] d = Some (d', s)
    /\ files d' !! lit "/o/Arch_C/E.svg" = Some (lit "/old/E.svg").
Proof.
  intros cfg archListing d.
  assert (E : exists r,
             merge cfg (lit "/a") (lit "/r") archListing [] d = Some r)
    by (eexists; vm_compute; reflexivity).
  destruct E as [[d' s] E]. exists d', s. split; [exact E |].
  destruct (merge_keeps_destination _ _ _ _ _ _ _ _ E) as [Hk _].
  apply Hk. vm_compute. reflexivity.
Defined.

(** ** restructure.js: the statistics of a category *)

Lemma copy_step_books (cfg : config) (j : job) (st : dest_state * stats) :
  merged (snd (copy_step cfg j st)) = merged (snd st)
  /\ archOnly (snd (copy_step cfg j st)) = archOnly (snd st)
  /\ unmatched (snd (copy_step cfg j st)) = unmatched (snd st).
Proof.
  unfold copy_step. destruct (dryRun cfg); [now simpl |].
  destruct (copyFileExcl _ _ _); now simpl.
Qed.

Lemma worker_books (cfg : config) (jobs : list job) :
  forall st,
    merged (snd (worker cfg jobs st)) = merged (snd st)
    /\ archOnly (snd (worker cfg jobs st)) = archOnly (snd st)
    /\ unmatched (snd (worker cfg jobs st)) = unmatched (snd st).
Proof.
  induction jobs as [| j jobs IH]; intros st; simpl; [auto |].
  destruct (IH (copy_step cfg j st)) as (-> & -> & ->).
  apply copy_step_books.
Qed.

Lemma pool_books (cfg : config) (n : nat) (jobs : list job)
    (st : dest_state * stats) :
  merged (snd (pool cfg n jobs st)) = merged (snd st)
  /\ archOnly (snd (pool cfg n jobs st)) = archOnly (snd st)
  /\ unmatched (snd (pool cfg n jobs st)) = unmatched (snd st).
Proof.
  destruct n as [| n]; [rewrite pool_none; auto |].
  destruct (pool_perm cfg (S n) jobs st) as (js & _ & _ & ->); [lia |].
  apply worker_books.
Qed.

Lemma res_jobs_books (cfg : config) (a dd : list ascii)
    (fs : list (list ascii)) :
  forall jobs s,
    let n := count_failing (matchesSize cfg) fs in
    fst (res_jobs cfg a dd fs jobs s)
    = jobs ++ map (fun f => {| job_src := f;
                               job_dst := path_join dd (basename f) |})
                  (List.filter (matchesSize cfg) fs)
    /\ merged (snd (res_jobs cfg a dd fs jobs s)) = merged s
    /\ archOnly (snd (res_jobs cfg a dd fs jobs s)) = archOnly s + n
    /\ unmatched (snd (res_jobs cfg a dd fs jobs s))
       = unmatched s ++ repeat a n.
Proof.
  unfold count_failing.
  induction fs as [| f fs IH]; intros jobs s; simpl.
  - rewrite !app_nil_r. auto.
  - destruct (matchesSize cfg f); simpl.
    + destruct (IH (jobs ++ [{| job_src := f;
                                job_dst := path_join dd (basename f) |}]) s)
        as (-> & -> & -> & ->).
      rewrite <- app_assoc. auto.
    + destruct (IH jobs (push_unmatched a (add_archOnly s)))
        as (-> & -> & -> & ->).
      simpl. rewrite <- app_assoc. repeat split; auto. lia.
Qed.

(** X12.  The statistics of a category other than the general icons, as
    the [else] of [mergeCat] is parsed.  With no resource directory for
    the category nothing is added to [merged], [archOnly] or [unmatched].
    With one, [merged] grows by one, and every file of the resource
    directory that fails [matchesSize] adds one to [archOnly] and the
    category name to [unmatched]. *)
Theorem mergeCat_statistics (cfg : config) (archRoot resRoot : list ascii)
    (archListing resListing : list node) (slugCat archDirName : list ascii)
    (st st' : dest_state * stats) :
  str_eqb archDirName (lit "Arch_General-Icons") = false ->
  mergeCat cfg archRoot resRoot archListing resListing slugCat archDirName st
  = Some st' ->
  match resolve (the_alias archListing resListing) (resCats resListing)
          slugCat with
  | None =>
      merged (snd st') = merged (snd st)
      /\ archOnly (snd st') = archOnly (snd st)
      /\ unmatched (snd st') = unmatched (snd st)
  | Some r =>
      forall fs, walk_dir resRoot resListing r = Some fs ->
        let n := count_failing (matchesSize cfg) fs in
        merged (snd st') = merged (snd st) + 1
        /\ archOnly (snd st') = archOnly (snd st) + n
        /\ unmatched (snd st') = unmatched (snd st) ++ repeat archDirName n
  end.
Proof.
  intros Hg. unfold mergeCat. rewrite Hg.
  destruct (ensureDir _ (fst st)) as [d1 |]; [| discriminate].
  destruct (find_dir archDirName archListing) as [cat |]; [| discriminate].
  destruct (find_dir (size cfg) cat) as [sized |]; [| discriminate].
  destruct (resolve _ _ slugCat) as [r |].
  - destruct (walk_dir resRoot resListing r) as [fs |].
    + match goal with
      | |- context [res_jobs cfg ?a ?dd fs ?jobs ?s] =>
          pose proof (res_jobs_books cfg a dd fs jobs s) as Hb;
          destruct (res_jobs cfg a dd fs jobs s) as [jobs' s1]
      end.
      match goal with
      | |- context [pool cfg ?n ?js ?s] =>
          pose proof (pool_books cfg n js s) as Hp;
          destruct (pool cfg n js s) as [d2 s2]
      end.
      intros [= <-] fs' [= <-]. simpl in *.
      destruct Hb as (_ & Hb1 & Hb2 & Hb3). destruct Hp as (-> & -> & ->).
      rewrite Hb1, Hb2, Hb3. auto.
    + intros _ fs' Hfs. discriminate.
  - match goal with
    | |- context [pool cfg ?n ?js ?s] =>
        pose proof (pool_books cfg n js s) as Hp;
        destruct (pool cfg n js s) as [d2 s2]
    end.
    intros [= <-]. simpl in *. exact Hp.
Qed.

Lemma mergeCat_statistics_witness :
  let cfg := {| dryRun := true; size := lit "48"; formats := [lit "svg"];
                concurrency := 1; allowUnmatched := false;
                dest := lit "/o" |} in
  let archListing :=
    [ Dir (lit "Arch_C") [ Dir (lit "48") [ File (lit "E.svg") ] ];
      Dir (lit "Arch_S") [ Dir (lit "48") [ File (lit "B.svg") ] ] ] in
  let resListing :=
    [ Dir (lit "Res_C")
        [ File (lit "I_48.svg"); File (lit "I_48.png"); File (lit "R.txt") ] ]
  in
  let st := ({| files := ∅; dirs := ∅; refused := fun _ _ => false;
                sched := [] |}, sum0) in
  (exists st',
     mergeCat cfg (lit "/a") (lit "/r") archListing resListing
       (lit "c") (lit "Arch_C") st = Some st'
     /\ merged (snd st') = 1 /\ archOnly (snd st') = 2
     /\ unmatched (snd st') = [lit "Arch_C"; lit "Arch_C"])
  /\ (exists st',
     mergeCat cfg (lit "/a") (lit "/r") archListing resListing
       (lit "s") (lit "Arch_S") st = Some st'
     /\ merged (snd st') = 0 /\ archOnly (snd st') = 0
     /\ unmatched (snd st') = []).
Proof.
  intros cfg archListing resListing st. split.
  - assert (E : exists r,
               mergeCat cfg (lit "/a") (lit "/r") archListing resListing
                 (lit "c") (lit "Arch_C") st = Some r)
      by (eexists; vm_compute; reflexivity).
    destruct E as [st' E]. exists st'. split; [exact E |].
    assert (Hg : str_eqb (lit "Arch_C") (lit "Arch_General-Icons") = false)
      by (vm_compute; reflexivity).
    pose proof (mergeCat_statistics _ _ _ _ _ _ _ _ _ Hg E) as H.
    assert (Hr : resolve (the_alias archListing resListing)
                   (resCats resListing) (lit "c") = Some (lit "Res_C"))
      by (vm_compute; reflexivity).
    rewrite Hr in H. apply (H (walk (lit "/r/Res_C")
                                 [ File (lit "I_48.svg");
                                   File (lit "I_48.png");
                                   File (lit "R.txt") ])).
    vm_compute. reflexivity.
  - assert (E : exists r,
               mergeCat cfg (lit "/a") (lit "/r") archListing resListing
                 (lit "s") (lit "Arch_S") st = Some r)
      by (eexists; vm_compute; reflexivity).
    destruct E as [st' E]. exists st'. split; [exact E |].
    assert (Hg : str_eqb (lit "Arch_S") (lit "Arch_General-Icons") = false)
      by (vm_compute; reflexivity).
    pose proof (mergeCat_statistics _ _ _ _ _ _ _ _ _ Hg E) as H.
    assert (Hr : resolve (the_alias archListing resListing)
                   (resCats resListing) (lit "s") = None)
      by (vm_compute; reflexivity).
    rewrite Hr in H. exact H.
Defined.

(** ** restructure.js: the jobs of a category *)





(** ** restructure.js: collisions of the unguarded copies *)

Lemma path_exists_with_file (d : dest_state) (o s p : list ascii) :
  path_exists (with_file o s d) p = bool_decide (p = o) || path_exists d p.
Proof.
  unfold path_exists. simpl. destruct (decide (p = o)) as [-> | Hne].
  - rewrite lookup_insert_eq. rewrite bool_decide_eq_true_2 by eauto.
    now rewrite (bool_decide_eq_true_2 (o = o)).
  - rewrite lookup_insert_ne by congruence.
    now rewrite (bool_decide_eq_false_2 (p = o)).
Qed.

Lemma path_exists_absent (d : dest_state) (p : list ascii) :
  path_exists d p = false -> files d !! p = None.
Proof.
  intros H. destruct (files d !! p) eqn:E; [| reflexivity].
  rewrite (path_exists_file _ _ _ E) in H. discriminate.
Qed.

Lemma copyFileExcl_eq (src dst : list ascii) (d : dest_state) :
  copyFileExcl src dst d
  = if path_exists d dst || refused d src dst then None
    else Some (with_file dst src d).
Proof. reflexivity. Qed.

Lemma fresh_after_copy (d : dest_state) (o s : list ascii)
    (outs : list (list ascii)) :
  Forall (fun p => path_exists (with_file o s d) p = false) outs
  <-> ~ In o outs /\ Forall (fun p => path_exists d p = false) outs.
Proof.
  induction outs as [| p outs IH].
  - split; [intros _; split; [intros [] | constructor] | constructor].
  - rewrite !Forall_cons_iff, IH, path_exists_with_file. simpl.
    destruct (decide (p = o)) as [-> | Hne].
    + rewrite (bool_decide_eq_true_2 (o = o)) by reflexivity. simpl.
      split; [intros [? _]; discriminate | intros [Hn _]; tauto].
    + rewrite (bool_decide_eq_false_2 (p = o)) by assumption. simpl.
      split.
      * intros (Hp & Hn & Hf). repeat split; auto.
        intros [E | Hin]; [congruence | tauto].
      * intros (Hn & Hp & Hf). repeat split; auto.
Qed.

Lemma ingest_cons (cfg : config) (f : list ascii) (fs : list (list ascii))
    (d : dest_state) :
  ingest cfg (f :: fs) d
  = if negb (svg_ext f) then ingest cfg fs d
    else if dryRun cfg then ingest cfg fs d
    else match copyFileExcl f (general_out cfg f) d with
         | Some d' => ingest cfg fs d'
         | None => None
         end.
Proof. reflexivity. Qed.

Lemma ingest_live_spec (cfg : config) (fs : list (list ascii)) :
  dryRun cfg = false ->
  forall d,
    let svgs := List.filter svg_ext fs in
    let outs := map (general_out cfg) svgs in
    (is_Some (ingest cfg fs d) <->
     List.NoDup outs /\ Forall (fun o => path_exists d o = false) outs
     /\ Forall (fun f => refused d f (general_out cfg f) = false) svgs)
    /\ (forall d', ingest cfg fs d = Some d' ->
        forall f, In f fs -> svg_ext f = true ->
                  files d' !! general_out cfg f = Some f).
Proof.
  intros Hlive. induction fs as [| f fs IH]; intros d.
  - split; [| intros d' _ f []].
    split; [intros _; repeat split; constructor | simpl; eauto].
  - rewrite ingest_cons. cbn [List.filter map].
    destruct (svg_ext f) eqn:Esvg; cbn [negb map].
    + rewrite Hlive, copyFileExcl_eq.
      destruct (path_exists d (general_out cfg f)) eqn:Ex; cbn [orb].
      * split.
        -- split; [intros [x Hx]; discriminate |].
           intros (_ & Hf & _). inversion Hf as [| ? ? Hh _]; subst.
           congruence.
        -- discriminate.
      * destruct (refused d f (general_out cfg f)) eqn:Er.
        -- split.
           ++ split; [intros [x Hx]; discriminate |].
              intros (_ & _ & Hf). inversion Hf as [| ? ? Hh _]; subst.
              congruence.
           ++ discriminate.
        -- set (d1 := with_file (general_out cfg f) f d).
           destruct (IH d1) as [IH1 IH2]. split.
           ++ rewrite IH1. unfold d1 at 1. rewrite fresh_after_copy.
              rewrite List.NoDup_cons_iff, !Forall_cons_iff.
              change (refused d1) with (refused d). tauto.
           ++ intros d' Hd' g [<- | Hg] Hs; [| eauto].
              destruct (ingest_keeps cfg fs d1 d' Hd') as [Hk _].
              apply Hk. unfold d1. simpl. apply lookup_insert_eq.
    + destruct (IH d) as [IH1 IH2]. split; [exact IH1 |].
      intros d' Hd' g [<- | Hg] Hs; [congruence | eauto].
Qed.

(** X13.  In a live run [ingest] completes exactly when the output paths
    of the SVG files of the walk are pairwise distinct, none of them
    exists in the destination, and the system refuses none of the copies:
    a collision or a copy that fails, which a worker would count as
    skipped, is fatal here.  When it completes, every SVG file of the walk
    is at its output path. *)
Theorem ingest_collisions_fatal (cfg : config) (fs : list (list ascii))
    (d : dest_state) :
  dryRun cfg = false ->
  let svgs := List.filter svg_ext fs in
  let outs := map (general_out cfg) svgs in
  (is_Some (ingest cfg fs d) <->
   List.NoDup outs /\ Forall (fun o => path_exists d o = false) outs
   /\ Forall (fun f => refused d f (general_out cfg f) = false) svgs)
  /\ (forall d', ingest cfg fs d = Some d' ->
      forall f, In f fs -> svg_ext f = true ->
                files d' !! general_out cfg f = Some f).
Proof. intros Hlive. apply (ingest_live_spec cfg fs Hlive d). Qed.

Lemma ingest_collisions_fatal_witness :
  let cfg := {| dryRun := false; size := lit "48"; formats := [lit "svg"];
                concurrency := 1; allowUnmatched := false;
                dest := lit "/o" |} in
  ingest cfg [ lit "/a/G/48/U.svg"; lit "/r/G/U.svg" ]
    {| files := ∅; dirs := ∅; refused := fun _ _ => false; sched := [] |}
  = None.
Proof.
  intros cfg.
  destruct (ingest_collisions_fatal cfg
              [ lit "/a/G/48/U.svg"; lit "/r/G/U.svg" ]
              {| files := ∅; dirs := ∅; refused := fun _ _ => false;
                 sched := [] |} eq_refl) as [[Hnd _] _].
  destruct (ingest cfg _ _) as [d' |]; [| reflexivity].
  destruct (Hnd (mk_is_Some _ _ eq_refl)) as [Hn _].
  exfalso. vm_compute in Hn.
  inversion Hn as [| ? ? Hnot _]. apply Hnot. now left.
Defined.

Lemma copyCats_loop_dry (cfg : config) (dst : list ascii)
    (fs : list (list ascii)) :
  dryRun cfg = true ->
  forall seen d, copyCats_loop cfg dst fs seen d = Some d.
Proof.
  intros Hdry. induction fs as [| f fs IH]; intros seen d; simpl; auto.
  destruct (matchesSize cfg f); auto.
  destruct (bool_decide _); auto. rewrite Hdry. auto.
Qed.

Lemma copyCats_loop_cons (cfg : config) (dst f : list ascii)
    (fs : list (list ascii)) (seen : gset (list ascii)) (d : dest_state) :
  copyCats_loop cfg dst (f :: fs) seen d
  = if matchesSize cfg f then
      if bool_decide (base_in dst f ∈ seen)
      then copyCats_loop cfg dst fs seen d
      else if dryRun cfg
      then copyCats_loop cfg dst fs ({[ base_in dst f ]} ∪ seen) d
      else
        match copyFileExcl f (base_in dst f) d with
        | Some d' =>
            copyCats_loop cfg dst fs ({[ base_in dst f ]} ∪ seen) d'
        | None => None
        end
    else copyCats_loop cfg dst fs seen d.
Proof. reflexivity. Qed.

(** What the loop of [copyCats] needs to complete in a live run. *)
Lemma copyCats_loop_live (cfg : config) (dst : list ascii)
    (fs : list (list ascii)) :
  dryRun cfg = false ->
  forall (seen : gset (list ascii)) d,
    is_Some (copyCats_loop cfg dst fs seen d) <->
    Forall (fun f => base_in dst f ∈ seen
                     \/ path_exists d (base_in dst f) = false)
      (List.filter (matchesSize cfg) fs)
    /\ (forall l1 f l2,
          List.filter (matchesSize cfg) fs = l1 ++ f :: l2 ->
          base_in dst f ∉ seen ->
          (forall g, In g l1 -> base_in dst g <> base_in dst f) ->
          refused d f (base_in dst f) = false).
Proof.
  intros Hlive. induction fs as [| f fs IH]; intros seen d.
  - split; [| simpl; eauto]. intros _. split; [constructor |].
    intros l1 g l2 H. destruct l1; discriminate.
  - rewrite copyCats_loop_cons. cbn [List.filter].
    destruct (matchesSize cfg f); [| apply IH].
    set (acc := List.filter (matchesSize cfg) fs) in *.
    rewrite Forall_cons_iff.
    destruct (decide (base_in dst f ∈ seen)) as [Hin | Hnin].
    + rewrite bool_decide_eq_true_2 by assumption. rewrite IH. split.
      * intros [HF HR]. split; [split; [now left | exact HF] |].
        intros l1 g l2 E Hg Hl. destruct l1 as [| x l1].
        -- injection E as -> _. contradiction.
        -- injection E as <- E.
           apply (HR l1 g l2 E Hg). intros h Hh. apply Hl. now right.
      * intros [[_ HF] HR]. split; [exact HF |].
        intros l1 g l2 E Hg Hl.
        apply (HR (f :: l1) g l2); [now rewrite E | exact Hg |].
        intros h [<- | Hh]; [| now apply Hl].
        intros Heq. apply Hg. rewrite <- Heq. exact Hin.
    + rewrite bool_decide_eq_false_2 by assumption.
      rewrite Hlive, copyFileExcl_eq.
      destruct (path_exists d (base_in dst f)) eqn:Ex; cbn [orb].
      * split; [intros [x Hx]; discriminate |].
        intros [[[? | ?] _] _]; [contradiction | discriminate].
      * destruct (refused d f (base_in dst f)) eqn:Er.
        -- split; [intros [x Hx]; discriminate |].
           intros [_ HR].
           rewrite (HR [] f acc eq_refl Hnin) in Er; [discriminate |].
           intros g [].
        -- rewrite IH.
           change (refused (with_file (base_in dst f) f d))
             with (refused d).
           split.
           ++ intros [HF HR]. split; [split; [now right |] |].
              ** eapply Forall_impl; [exact HF |]. intros g Hg. simpl in Hg.
                 rewrite path_exists_with_file in Hg.
                 destruct Hg as [Hg | Hg].
                 --- apply elem_of_union in Hg.
                     destruct Hg as [Hg | Hg]; [| now left].
                     apply elem_of_singleton in Hg. rewrite Hg. now right.
                 --- apply orb_false_iff in Hg. tauto.
              ** intros l1 g l2 E Hg Hl. destruct l1 as [| x l1].
                 --- injection E as -> _. exact Er.
                 --- injection E as <- E.
                     apply (HR l1 g l2 E).
                     +++ intros Hu. apply elem_of_union in Hu.
                         destruct Hu as [Hu | Hu]; [| contradiction].
                         apply elem_of_singleton in Hu.
                         apply (Hl f); [now left | now symmetry].
                     +++ intros h Hh. apply Hl. now right.
           ++ intros [[_ HF] HR]. split.
              ** eapply Forall_impl; [exact HF |]. intros g Hg. simpl in Hg.
                 rewrite path_exists_with_file.
                 destruct (decide (base_in dst g = base_in dst f))
                   as [E | Hne].
                 --- left. rewrite E. apply elem_of_union. left.
                     now apply elem_of_singleton.
                 --- destruct Hg as [Hg | Hg];
                       [left; apply elem_of_union; now right |].
                     right. rewrite Hg.
                     now rewrite bool_decide_eq_false_2 by assumption.
              ** intros l1 g l2 E Hg Hl.
                 apply (HR (f :: l1) g l2); [now rewrite E | |].
                 --- intros Hs. apply Hg. apply elem_of_union. now right.
                 --- intros h [<- | Hh]; [| now apply Hl].
                     intros Heq. apply Hg. apply elem_of_union. left.
                     apply elem_of_singleton. now symmetry.
Qed.

(** X14.  [copyCats] in a dry run makes the directory "Categories" and
    nothing else: it rejects only when the directory cannot be made.  In a
    live run it completes exactly when the directory can be made, no file
    of the walk that passes [matchesSize] has its output path in the
    destination already, and the system refuses no copy of a file that is
    the first of the walk with its base name: a second file with the base
    name of an earlier one is skipped through the set [seen], it is not a
    collision. *)
Theorem copyCats_collisions (cfg : config) (catDir : list ascii)
    (catListing : list node) (d : dest_state) :
  let dst := path_join (dest cfg) (lit "Categories") in
  let acc := List.filter (matchesSize cfg) (walk catDir catListing) in
  (dryRun cfg = true -> copyCats cfg catDir catListing d = ensureDir dst d)
  /\ (dryRun cfg = false ->
      (is_Some (copyCats cfg catDir catListing d) <->
       exists d1,
         ensureDir dst d = Some d1
         /\ Forall (fun f => path_exists d1 (cat_out cfg f) = false) acc
         /\ (forall l1 f l2,
               acc = l1 ++ f :: l2 ->
               (forall g, In g l1 -> cat_out cfg g <> cat_out cfg f) ->
               refused d1 f (cat_out cfg f) = false))).
Proof.
  intros dst acc. unfold copyCats. fold dst. split.
  - intros Hdry. destruct (ensureDir dst d) as [d1 |]; [| reflexivity].
    now apply copyCats_loop_dry.
  - intros Hlive. destruct (ensureDir dst d) as [d1 |].
    + rewrite (copyCats_loop_live cfg dst _ Hlive ∅ d1). fold acc.
      change (fun f => cat_out cfg f) with (base_in dst).
      unfold cat_out. fold dst. fold (base_in dst). split.
      * intros [HF HR]. exists d1. split; [reflexivity |]. split.
        -- eapply Forall_impl; [exact HF |]. simpl.
           intros g [Hg | Hg]; [set_solver | exact Hg].
        -- intros l1 f l2 E Hl. apply (HR l1 f l2 E); [set_solver | exact Hl].
      * intros (d1' & [= <-] & HF & HR). split.
        -- eapply Forall_impl; [exact HF |]. simpl. auto.
        -- intros l1 f l2 E _ Hl. now apply (HR l1 f l2 E).
    + split; [intros [x Hx]; discriminate |].
      intros (d1 & Hd & _). discriminate.
Qed.

Lemma copyCats_collisions_witness :
  let cfg := {| dryRun := false; size := lit "48"; formats := [lit "svg"];
                concurrency := 1; allowUnmatched := false;
                dest := lit "/o" |} in
  let catListing :=
    [ Dir (lit "48")
        [ File (lit "C.svg"); Dir (lit "x") [ File (lit "C.svg") ] ] ] in
  let d := {| files := ∅; dirs := ∅;
              refused := fun s _ => str_eqb s (lit "/c/48/x/C.svg");
              sched := [] |} in
  is_Some (copyCats cfg (lit "/c") catListing d).
Proof.
  intros cfg catListing d.
  destruct (copyCats_collisions cfg (lit "/c") catListing d) as [_ Hlive].
  apply (Hlive eq_refl).
  assert (E : List.filter (matchesSize cfg) (walk (lit "/c") catListing)
              = [ lit "/c/48/C.svg"; lit "/c/48/x/C.svg" ])
    by (vm_compute; reflexivity).
  rewrite E. eexists. split; [vm_compute; reflexivity |]. split.
  - constructor; [vm_compute; reflexivity |].
    constructor; [vm_compute; reflexivity |]. constructor.
  - intros l1 f l2 Hl Hfirst.
    destruct l1 as [| x [| y l1]].
    + injection Hl as <- _. vm_compute. reflexivity.
    + injection Hl as <- <- _. exfalso.
      apply (Hfirst (lit "/c/48/C.svg")); [now left | reflexivity].
    + injection Hl as _ _ Hl. destruct l1; discriminate.
Defined.


(** ** restructure.js: which job makes a file *)

Lemma copy_step_refused (cfg : config) (j : job) (st : dest_state * stats) :
  refused (fst (copy_step cfg j st)) = refused (fst st).
Proof.
  unfold copy_step, copyFileExcl. destruct (dryRun cfg); [reflexivity |].
  now destruct (path_exists (fst st) (job_dst j)
                || refused (fst st) (job_src j) (job_dst j)).
Qed.

(** The job that a single worker lets make the path [p]: the first job
    for [p] whose copy the system does not refuse. *)
Lemma worker_winner (cfg : config) (jobs : list job) (p : list ascii) :
  dryRun cfg = false ->
  forall st,
    path_exists (fst st) p = false ->
    files (fst (worker cfg jobs st)) !! p
    = option_map job_src
        (List.find (fun j => str_eqb (job_dst j) p
                             && negb (refused (fst st) (job_src j) p))
           jobs).
Proof.
  intros Hlive. induction jobs as [| j jobs IH]; intros st Hp.
  - simpl. now apply path_exists_absent.
  - cbn [worker List.find].
    pose proof (copy_step_refused cfg j st) as Hr.
    rewrite (copy_step_live cfg j st Hlive) in *.
    destruct (str_eqb (job_dst j) p) eqn:E.
    + apply str_eqb_true in E. rewrite E in *. rewrite Hp in *.
      cbn [orb andb] in *.
      destruct (refused (fst st) (job_src j) p) eqn:Er; cbn [negb].
      * rewrite (IH (fst st, add_skipped (snd st)) Hp). reflexivity.
      * destruct (worker_keeps cfg jobs
                    (with_file p (job_src j) (fst st), add_copied (snd st)))
          as [Hk _].
        simpl. apply Hk. simpl. apply lookup_insert_eq.
    + apply str_eqb_false in E. cbn [andb].
      destruct (path_exists (fst st) (job_dst j)
                || refused (fst st) (job_src j) (job_dst j)) eqn:Ex.
      * rewrite (IH (fst st, add_skipped (snd st)) Hp). reflexivity.
      * rewrite IH.
        -- reflexivity.
        -- simpl. rewrite path_exists_with_file, Hp.
           now rewrite bool_decide_eq_false_2 by congruence.
Qed.

(** X16.  In a live run with one worker at least, a path that did not
    exist before the workers ran can only hold the source of a job whose
    destination it is and whose copy the system does not refuse; it holds
    one when there is such a job, and which one depends on the order in
    which the system completes the copies in flight.  With a single worker
    it is the first such job of the list. *)
Theorem pool_job_wins (cfg : config) (jobs : list job)
    (st : dest_state * stats) (p : list ascii) :
  dryRun cfg = false ->
  0 < concurrency cfg ->
  path_exists (fst st) p = false ->
  let can_make j :=
    str_eqb (job_dst j) p && negb (refused (fst st) (job_src j) p) in
  let st' := pool cfg (concurrency cfg) jobs st in
  (forall src, files (fst st') !! p = Some src ->
               exists j, In j jobs /\ can_make j = true /\ job_src j = src)
  /\ (files (fst st') !! p = None <->
      forall j, In j jobs -> can_make j = false)
  /\ (concurrency cfg = 1 ->
      files (fst st') !! p = option_map job_src (List.find can_make jobs)).
Proof.
  intros Hlive Hn Hp can_make st'. subst st'.
  assert (Hw : forall l, files (fst (worker cfg l st)) !! p
                         = option_map job_src (List.find can_make l))
    by (intros l; now apply worker_winner).
  destruct (pool_perm cfg (concurrency cfg) jobs st Hn)
    as (js & Hperm & (Hf & _) & _).
  split; [| split].
  - rewrite Hf, Hw. intros src Hs.
    destruct (List.find can_make js) as [j |] eqn:E; [| discriminate].
    injection Hs as <-. apply find_some in E. destruct E as [Hin Hc].
    exists j. split; [| auto].
    apply (Permutation_in _ Hperm Hin).
  - rewrite Hf, Hw. split.
    + intros Hnone j Hj.
      destruct (List.find can_make js) as [x |] eqn:E; [discriminate |].
      apply (find_none _ _ E).
      apply (Permutation_in _ (Permutation_sym Hperm) Hj).
    + intros Hall. destruct (List.find can_make js) as [x |] eqn:E;
        [| reflexivity].
      apply find_some in E. destruct E as [Hin Hc].
      rewrite (Hall x (Permutation_in _ Hperm Hin)) in Hc. discriminate.
  - intros H1. rewrite H1.
    destruct (pool_single cfg jobs st) as [(Hf1 & _) _].
    rewrite Hf1. apply Hw.
Qed.

Lemma pool_job_wins_witness :
  let cfg := {| dryRun := false; size := lit "48"; formats := [lit "svg"];
                concurrency := 2; allowUnmatched := false;
                dest := lit "/o" |} in
  let jobs :=
    [ {| job_src := lit "/a/E.svg"; job_dst := lit "/o/E.svg" |};
      {| job_src := lit "/r/E.svg"; job_dst := lit "/o/E.svg" |} ] in
  let d := {| files := ∅; dirs := ∅; refused := fun _ _ => false;
              sched := [1] |} in
  files (fst (pool cfg 2 jobs (d, sum0))) !! lit "/o/E.svg"
  = Some (lit "/r/E.svg")
  /\ exists j, In j jobs /\ job_src j = lit "/r/E.svg".
Proof.
  intros cfg jobs d.
  assert (E : files (fst (pool cfg 2 jobs (d, sum0))) !! lit "/o/E.svg"
              = Some (lit "/r/E.svg")) by (vm_compute; reflexivity).
  split; [exact E |].
  destruct (pool_job_wins cfg jobs (d, sum0) (lit "/o/E.svg"))
    as (Hsome & _ & _).
  - reflexivity.
  - vm_compute. lia.
  - vm_compute. reflexivity.
  - destruct (Hsome _ E) as (j & Hin & _ & Hsrc). eauto.
Defined.

(** ** svg-title.js: the run over a tree *)

Lemma processSvg_frame (dry : bool) (writable : list ascii -> bool)
    (fp : list ascii) (fs fs' : gmap (list ascii) (list ascii))
    (o : svg_outcome) :
  processSvg dry writable fp fs = Some (fs', o) ->
  (forall q, is_Some (fs' !! q) <-> is_Some (fs !! q))
  /\ (forall q, q <> fp -> fs' !! q = fs !! q)
  /\ (dry = true -> fs' = fs).
Proof.
  unfold processSvg. destruct (fs !! fp) as [data |] eqn:E; [| discriminate].
  destruct (match_title data) as [m |].
  - destruct (str_eqb _ _).
    + intros [= <- <-]. repeat split; auto.
    + destruct dry.
      * intros [= <- <-]. repeat split; auto.
      * destruct (writable fp); [| discriminate].
        intros [= <- <-]. repeat split; try discriminate.
        -- destruct (decide (q = fp)) as [-> | Hne].
           ++ rewrite E. eauto.
           ++ now rewrite lookup_insert_ne by congruence.
        -- destruct (decide (q = fp)) as [-> | Hne].
           ++ rewrite lookup_insert_eq. eauto.
           ++ now rewrite lookup_insert_ne by congruence.
        -- intros q Hq. now rewrite lookup_insert_ne by congruence.
  - intros [= <- <-]. repeat split; auto.
Qed.

Lemma processSvg_completes (dry : bool) (writable : list ascii -> bool)
    (fp : list ascii) (fs : gmap (list ascii) (list ascii)) :
  is_Some (processSvg dry writable fp fs) <-> svg_ok dry writable fs fp.
Proof.
  unfold svg_ok. destruct (fs !! fp) as [data |] eqn:Efp.
  - assert (H : is_Some (processSvg dry writable fp fs)
                <-> dry = true \/ title_differs data = false
                    \/ writable fp = true).
    { unfold processSvg, title_differs. rewrite Efp.
      destruct (match_title data) as [m |]; [| split; eauto].
      destruct (str_eqb _ _); simpl; [split; eauto |].
      destruct dry; [split; eauto |].
      destruct (writable fp); [split; eauto |].
      split; [intros [x Hx]; discriminate |].
      intros [H | [H | H]]; discriminate. }
    rewrite H. split; [intros Hc; exists data; auto |].
    intros (d & [= <-] & Hc). exact Hc.
  - split.
    + intros [x Hx]. unfold processSvg in Hx. rewrite Efp in Hx.
      discriminate.
    + intros (d & Hd & _). discriminate.
Qed.

Lemma svg_ok_frame (dry : bool) (writable : list ascii -> bool)
    (fs fs' : gmap (list ascii) (list ascii)) (p : list ascii) :
  fs' !! p = fs !! p ->
  svg_ok dry writable fs' p <-> svg_ok dry writable fs p.
Proof. unfold svg_ok. now intros ->. Qed.

(** X17.  The run of svg-title.js, over a walk that yields no path twice,
    completes exactly when every file of the walk can be read and, in a
    live run, every file whose title differs from its cleaned form can be
    written.  When it completes, the tree holds the files it held, a file
    that is not on the walk has the bytes it had, and in a dry run no file
    has changed. *)
Theorem titleSync_spec (dry : bool) (writable : list ascii -> bool)
    (paths : list (list ascii)) :
  List.NoDup paths ->
  forall fs : gmap (list ascii) (list ascii),
    (is_Some (titleSync dry writable paths fs) <->
     Forall (svg_ok dry writable fs) paths)
    /\ (forall fs', titleSync dry writable paths fs = Some fs' ->
        (forall q, is_Some (fs' !! q) <-> is_Some (fs !! q))
        /\ (forall q, ~ In q paths -> fs' !! q = fs !! q)
        /\ (dry = true -> fs' = fs)).
Proof.
  induction 1 as [| p paths Hp Hnd IH]; intros fs; simpl.
  - split; [split; [constructor | eauto] |].
    intros fs' [= <-]. repeat split; auto.
  - pose proof (processSvg_completes dry writable p fs) as Hc.
    destruct (processSvg dry writable p fs) as [[fs1 o] |] eqn:E.
    + destruct (processSvg_frame dry writable p fs fs1 o E)
        as (Hd & Hf & Hdry).
      destruct (IH fs1) as [IH1 IH2].
      assert (Hsame : Forall (svg_ok dry writable fs1) paths
                      <-> Forall (svg_ok dry writable fs) paths).
      { rewrite !Forall_forall. split; intros H q Hq.
        - apply (svg_ok_frame dry writable fs fs1 q);
            [| now apply H].
          apply Hf. intros ->. apply Hp. now apply list_elem_of_In.
        - apply (svg_ok_frame dry writable fs fs1 q); [| now apply H].
          apply Hf. intros ->. apply Hp. now apply list_elem_of_In. }
      split.
      * rewrite IH1, Forall_cons_iff, Hsame. split; [| tauto].
        intros H. split; [apply Hc; eauto | exact H].
      * intros fs' Hfs'. destruct (IH2 fs' Hfs') as (H1 & H2 & H3).
        repeat split.
        -- intros Hq. apply Hd, H1, Hq.
        -- intros Hq. apply H1, Hd, Hq.
        -- intros q Hq. rewrite H2 by tauto. apply Hf.
           intros ->. apply Hq. now left.
        -- intros Hd'. rewrite (H3 Hd'). auto.
    + split; [| discriminate]. rewrite Forall_cons_iff. split.
      * intros [x Hx]. discriminate.
      * intros [Hok _]. apply Hc in Hok. destruct Hok as [x Hx].
        discriminate.
Qed.

Lemma titleSync_spec_witness :
  let fs : gmap (list ascii) (list ascii) :=
    {[ lit "a.svg" := lit "<svg><title>Arch_EC2</title></svg>" ]} in
  titleSync false (fun _ => false) [lit "a.svg"] fs = None.
Proof.
  intros fs.
  destruct (titleSync_spec false (fun _ => false) [lit "a.svg"])
    with (fs := fs) as [[Hok _] _].
  - repeat constructor. intros [].
  - destruct (titleSync false (fun _ => false) [lit "a.svg"] fs) as [fs' |];
      [| reflexivity].
    exfalso. specialize (Hok (mk_is_Some _ _ eq_refl)).
    inversion Hok as [| ? ? (data & Hd & Hw) _]; subst.
    vm_compute in Hd. injection Hd as <-.
    destruct Hw as [Hw | [Hw | Hw]]; vm_compute in Hw; discriminate.
Defined.

(** ** svg-title.js: the title that is written *)

Lemma substitution_literal (m : title_match) (tpl : list ascii) :
  Forall (fun x => x <> "$"%char) tpl -> substitution m tpl = tpl.
Proof.
  induction 1 as [| c t Hc Ht IH]; [reflexivity |].
  cbn [substitution].
  destruct (Ascii.eqb c "$") eqn:E.
  - apply Ascii.eqb_eq in E. contradiction.
  - now rewrite IH.
Qed.

Lemma find_seq_eq (p : pat) (s : list ascii) :
  find_seq p s
  = match match_seq p s with
    | Some r => Some ([], r)
    | None =>
        match s with
        | [] => None
        | c :: t =>
            match find_seq p t with
            | Some (b, a) => Some (c :: b, a)
            | None => None
            end
        end
    end.
Proof. destruct s; reflexivity. Qed.

Lemma has_match_one (p : pat) (s : list ascii) :
  has_match [p] s
  = match match_seq p s with
    | Some _ => true
    | None => match s with [] => false | _ :: t => has_match [p] t end
    end.
Proof. destruct s; simpl; destruct (match_seq p _); reflexivity. Qed.

(** No match of the pattern lies before the leftmost one. *)
Lemma find_seq_before (p : pat) :
  p <> [] ->
  forall s b r, find_seq p s = Some (b, r) -> has_match [p] b = false.
Proof.
  intros Hp. induction s as [| c t IH]; intros b r; rewrite find_seq_eq.
  - destruct (match_seq p []); [| discriminate].
    intros [= <- <-]. destruct p; [congruence | reflexivity].
  - destruct (match_seq p (c :: t)) eqn:Em.
    + intros [= <- <-]. destruct p; [congruence | reflexivity].
    + destruct (find_seq p t) as [[b' a] |] eqn:Ef; [| discriminate].
      intros [= <- <-]. rewrite has_match_one.
      destruct (find_seq_some p t b' a Ef) as (o & Ht & _ & _).
      destruct (match_seq p (c :: b')) eqn:Eb.
      * apply (match_seq_app p _ _ (o ++ a)) in Eb.
        simpl in Eb. rewrite <- Ht in Eb. congruence.
      * exact (IH b' a eq_refl).
Qed.

(** A match that starts before the unit [h] cannot reach it when every
    test of the pattern but the first rejects [h]. *)
Lemma find_seq_at (f : ascii -> bool) (p' : pat) (h : ascii)
    (e r : list ascii) :
  p' <> [] -> forallb (fun g => negb (g h)) p' = true ->
  match_seq (f :: p') (h :: e) = Some r ->
  forall b, has_match [f :: p'] b = false ->
            find_seq (f :: p') (b ++ h :: e) = Some (b, r).
Proof.
  intros Hp Hrej Hm. induction b as [| x b IH]; intros Hb.
  - rewrite find_seq_eq. simpl app. now rewrite Hm.
  - rewrite has_match_one in Hb.
    destruct (match_seq (f :: p') (x :: b)) eqn:Ex; [discriminate |].
    change ((x :: b) ++ h :: e) with (x :: (b ++ h :: e)).
    assert (En : match_seq (f :: p') (x :: (b ++ h :: e)) = None).
    { simpl in *. destruct (f x); [| reflexivity].
      now apply match_seq_cut. }
    rewrite find_seq_eq, En. now rewrite (IH Hb).
Qed.

Lemma ci_slash (c : ascii) : ci_eq "/" c = is_slash c.
Proof. each_ascii c; reflexivity. Qed.

Lemma no_slash_no_closing_tag (s : list ascii) :
  Forall (fun c => is_slash c = false) s ->
  has_match [ci "</title>"] s = false.
Proof.
  induction 1 as [| c t Hc Ht IH]; [reflexivity |].
  rewrite has_match_one.
  assert (E : match_seq (ci "</title>") (c :: t) = None).
  { unfold ci. cbn [lit list_ascii_of_string map match_seq].
    destruct (ci_eq "<" c); [| reflexivity].
    destruct Ht as [| d t' Hd _]; [reflexivity |].
    now rewrite ci_slash, Hd. }
  now rewrite E.
Qed.

Lemma js_trim_infix (s : list ascii) :
  exists a b, s = a ++ js_trim s ++ b.
Proof.
  unfold js_trim.
  exists (take_while is_ws s),
    (rev (take_while is_ws (rev (drop_while is_ws s)))).
  rewrite <- rev_app_distr, <- drop_while_split, rev_involutive.
  apply drop_while_split.
Qed.

Lemma cleanTitle_cases (raw : list ascii) :
  cleanTitle raw = raw
  \/ Forall (fun c => is_slash c = false) (cleanTitle raw).
Proof.
  unfold cleanTitle.
  set (s2 := strip_num_suffix (strip_head title_prefixes (last_segment raw))).
  set (s3 := collapse_runs is_underscore "_" false s2).
  destruct (trim_seps s3) as [| c t] eqn:E; [now left |].
  right. rewrite <- E.
  destruct (trim_seps_infix s3) as (a & b & H3 & _).
  assert (H : Forall (fun c => is_slash c = false) s3).
  { apply collapse_runs_all; [reflexivity |]. subst s2.
    destruct (strip_num_suffix_prefix
                (strip_head title_prefixes (last_segment raw))) as [x Hx].
    destruct (strip_head_suffix title_prefixes (last_segment raw))
      as [y Hy].
    pose proof (last_segment_no_slash raw) as Hl.
    rewrite Hy in Hl. apply Forall_app in Hl. destruct Hl as [_ Hl].
    rewrite Hx in Hl. apply Forall_app in Hl. tauto. }
  rewrite H3 in H. apply Forall_app in H. destruct H as [_ H].
  apply Forall_app in H. tauto.
Qed.

(** X18.  What a live update writes, for a cleaned title that holds no
    dollar sign (a dollar sign in the replacement text is a pattern of
    [String.prototype.replace]): the text before and after the first title
    element is kept, the element is [<title>cleaned</title>], and the
    title pattern finds in the new text the cleaned title, at the place of
    the old one. *)
Theorem processSvg_writes_cleaned_title (writable : list ascii -> bool)
    (fp data : list ascii) (fs : gmap (list ascii) (list ascii))
    (m : title_match) :
  writable fp = true ->
  fs !! fp = Some data ->
  match_title data = Some m ->
  let original := js_trim (tm_inner m) in
  let cleaned := cleanTitle original in
  original <> cleaned ->
  Forall (fun x => x <> "$"%char) cleaned ->
  let updated :=
    tm_before m ++ lit "<title>" ++ cleaned ++ lit "</title>" ++ tm_after m in
  processSvg false writable fp fs
  = Some (<[fp := updated]> fs, Updated original cleaned)
  /\ exists m',
       match_title updated = Some m'
       /\ tm_before m' = tm_before m
       /\ tm_inner m' = cleaned
       /\ tm_after m' = tm_after m.
Proof.
  intros Hw Hfp Hm original cleaned Hne Hd updated. split.
  - unfold processSvg. rewrite Hfp, Hm.
    fold original. fold cleaned.
    apply str_eqb_false in Hne. rewrite Hne, Hw.
    unfold replace_title. rewrite substitution_literal.
    + unfold updated. now rewrite <- !app_assoc.
    + apply Forall_app. split; [repeat constructor; discriminate |].
      apply Forall_app. split; [exact Hd |].
      repeat constructor; discriminate.
  - unfold match_title in Hm.
    destruct (find_seq (ci "<title>") data) as [[pre rest] |] eqn:E1;
      [| discriminate].
    destruct (find_seq (ci "</title>") rest) as [[inner post] |] eqn:E2;
      [| discriminate].
    injection Hm as <-. cbn [tm_before tm_inner tm_after] in *.
    assert (H1 : has_match [ci "<title>"] pre = false).
    { apply (find_seq_before (ci "<title>")) with (s := data) (r := rest);
        [discriminate | exact E1]. }
    assert (H2 : has_match [ci "</title>"] cleaned = false).
    { destruct (cleanTitle_cases original) as [Hc | Hc].
      - fold cleaned in Hc. rewrite Hc. unfold original.
        destruct (js_trim_infix inner) as (a & b & Hi).
        apply (has_match_infix _ a _ b). rewrite <- Hi.
        apply (find_seq_before (ci "</title>")) with (s := rest) (r := post);
          [discriminate | exact E2].
      - now apply no_slash_no_closing_tag. }
    set (tail := cleaned ++ lit "</title>" ++ post).
    assert (F1 : find_seq (ci "<title>") updated = Some (pre, tail)).
    { unfold updated.
      apply (find_seq_at (ci_eq "<") (map ci_eq (lit "title>")) "<"%char
               (lit "title>" ++ tail) tail);
        [discriminate | reflexivity | reflexivity | exact H1]. }
    assert (F2 : find_seq (ci "</title>") tail = Some (cleaned, post)).
    { unfold tail.
      apply (find_seq_at (ci_eq "<") (map ci_eq (lit "/title>")) "<"%char
               (lit "/title>" ++ post) post);
        [discriminate | reflexivity | reflexivity | exact H2]. }
    unfold match_title. rewrite F1, F2. eexists. split; [reflexivity |].
    cbn [tm_before tm_inner tm_after]. auto.
Qed.

Lemma processSvg_writes_cleaned_title_witness :
  let fp := lit "/icons/ec2.svg" in
  let data := lit "<svg><title> Arch_Amazon-EC2_48 </title><g/></svg>" in
  processSvg false (fun _ => true) fp {[ fp := data ]}
  = Some (<[fp := lit "<svg><title>Amazon-EC2</title><g/></svg>"]>
            {[ fp := data ]},
          Updated (lit "Arch_Amazon-EC2_48") (lit "Amazon-EC2")).
Proof.
  intros fp data.
  destruct (match_title data) as [m |] eqn:Em;
    [| vm_compute in Em; discriminate Em].
  destruct (processSvg_writes_cleaned_title (fun _ => true) fp data
              {[ fp := data ]} m) as [H _].
  - reflexivity.
  - apply lookup_singleton_eq.
  - exact Em.
  - vm_compute in Em. injection Em as <-. vm_compute. discriminate.
  - vm_compute in Em. injection Em as <-. vm_compute.
    repeat constructor; discriminate.
  - rewrite H. vm_compute in Em. injection Em as <-. reflexivity.
Defined.

(** ** generate-helper-pages.js: escaping *)

Lemma esc_app (a b : list ascii) : esc (a ++ b) = esc a ++ esc b.
Proof. unfold esc. apply flat_map_app. Qed.

Lemma esc_char_cases (c : ascii) :
  (esc_char c = [c] /\ c <> "&"%char /\ c <> "<"%char /\ c <> ">"%char
   /\ c <> dquote)
  \/ (c = "&"%char /\ esc_char c = lit "&amp;")
  \/ (c = "<"%char /\ esc_char c = lit "&lt;")
  \/ (c = ">"%char /\ esc_char c = lit "&gt;")
  \/ (c = dquote /\ esc_char c = lit "&quot;").
Proof.
  unfold esc_char.
  destruct (Ascii.eqb c "&") eqn:E1;
    [apply Ascii.eqb_eq in E1; subst; auto |].
  destruct (Ascii.eqb c "<") eqn:E2;
    [apply Ascii.eqb_eq in E2; subst; auto |].
  destruct (Ascii.eqb c ">") eqn:E3;
    [apply Ascii.eqb_eq in E3; subst; auto 6 |].
  destruct (Ascii.eqb c dquote) eqn:E4;
    [apply Ascii.eqb_eq in E4; subst; auto 6 |].
  apply Ascii.eqb_neq in E1, E2, E3, E4. left. auto.
Qed.

Lemma esc_injective (s : list ascii) :
  forall t, esc s = esc t -> s = t.
Proof.
  unfold esc. induction s as [| c s IH]; intros [| d t]; cbn [flat_map].
  - reflexivity.
  - destruct (esc_char_cases d) as [[-> _] | [[_ ->] | [[_ ->] | [[_ ->]
      | [_ ->]]]]]; discriminate.
  - destruct (esc_char_cases c) as [[-> _] | [[_ ->] | [[_ ->] | [[_ ->]
      | [_ ->]]]]]; discriminate.
  - intros H.
    destruct (esc_char_cases c)
      as [(Ec & c1 & c2 & c3 & c4) | [[-> Ec] | [[-> Ec] | [[-> Ec]
      | [-> Ec]]]]];
    destruct (esc_char_cases d)
      as [(Ed & d1 & d2 & d3 & d4) | [[-> Ed] | [[-> Ed] | [[-> Ed]
      | [-> Ed]]]]];
    rewrite ?Ec, ?Ed in H; simpl in H;
    try (injection H as H; congruence);
    try (injection H as -> H; f_equal; now apply IH);
    try (injection H as H; f_equal; now apply IH).
Qed.

(** X19.  [esc] leaves no angle bracket and no double quote in its
    output, maps different texts to different texts, and can be applied
    piece by piece. *)
Theorem esc_properties (s t : list ascii) :
  Forall (fun c => c <> "<"%char /\ c <> ">"%char /\ c <> dquote) (esc s)
  /\ (esc s = esc t -> s = t)
  /\ esc (s ++ t) = esc s ++ esc t.
Proof.
  split; [| split; [apply esc_injective | apply esc_app]].
  unfold esc. induction s as [| c s IH]; cbn [flat_map]; [constructor |].
  apply Forall_app. split; [| exact IH].
  destruct (esc_char_cases c)
    as [(Ec & c1 & c2 & c3 & c4) | [[-> Ec] | [[-> Ec] | [[-> Ec]
    | [-> Ec]]]]]; rewrite Ec.
  - repeat constructor; assumption.
  - repeat constructor; discriminate.
  - repeat constructor; discriminate.
  - repeat constructor; discriminate.
  - repeat constructor; discriminate.
Qed.

(** ** generate-helper-pages.js: tokens *)

Lemma tokens_units (s : list ascii) :
  Forall (fun t => t <> [] /\ Forall (fun c => is_token_sep c = false) t)
    (tokens s).
Proof.
  unfold tokens.
  pose proof (split_on_components is_token_sep
                (strip_extension (toLowerCase s))) as H.
  induction H as [| t l Ht Hl IH]; simpl; [constructor |].
  destruct t as [| c t]; simpl; [exact IH |].
  constructor; [split; [discriminate | exact Ht] | exact IH].
Qed.

Lemma toLowerCase_idem (s : list ascii) :
  toLowerCase (toLowerCase s) = toLowerCase s.
Proof.
  unfold toLowerCase. rewrite map_map. apply map_ext.
  intros c. apply lower_char_idem.
Qed.

(** X20.  The tokens of a name are not empty and hold no separator; they
    do not depend on the case of the name.  [tokenMatch] holds between a
    name and itself, and a category name with no token at all, such as
    "_", matches every icon. *)
Theorem tokenMatch_properties (cat icon : list ascii) :
  Forall (fun t => t <> [] /\ Forall (fun c => is_token_sep c = false) t)
    (tokens cat)
  /\ tokens (toLowerCase cat) = tokens cat
  /\ tokenMatch cat cat = true
  /\ (tokens cat = [] -> tokenMatch cat icon = true).
Proof.
  split; [apply tokens_units |]. split; [| split].
  - unfold tokens. now rewrite toLowerCase_idem.
  - unfold tokenMatch. apply forallb_forall. intros ct Hct.
    apply existsb_exists. exists ct. split; [exact Hct |].
    apply startsWith_spec. exists []. now rewrite app_nil_r.
  - unfold tokenMatch. now intros ->.
Qed.

(** ** The dark variants in restructure.js and generate-helper-pages.js *)

Lemma dark_here_has_match (s : list ascii) :
  dark_here s = true -> has_match [ci "dark"] s = true.
Proof.
  unfold dark_here. rewrite has_match_one.
  destruct (match_seq (ci "dark") s); [reflexivity | discriminate].
Qed.

(** X21.  A base name that the test of [ingest] takes for a dark variant
    is one for [isDarkName] too: what restructure.js files under
    General-Icons-Dark for its name is shown dark on the helper page. *)
Theorem dark_name_isDarkName (base : list ascii) :
  dark_name base = true -> isDarkName base = true.
Proof.
  unfold dark_name, isDarkName. intros H.
  apply orb_true_iff in H. destruct H as [H | H].
  - now apply dark_here_has_match.
  - induction base as [| c t IH]; [discriminate |].
    simpl in H. apply orb_true_iff in H. apply has_match_cons.
    destruct H as [H | H]; [| auto].
    apply andb_true_iff in H. destruct H as [_ H].
    now apply dark_here_has_match.
Qed.

Lemma dark_name_isDarkName_witness :
  isDarkName (lit "User_48_Dark.svg") = true.
Proof.
  apply (dark_name_isDarkName (lit "User_48_Dark.svg")).
  vm_compute. reflexivity.
Defined.

(** ** download.js: the stored checksum *)

Lemma drop_while_app (f : ascii -> bool) (a b : list ascii) :
  drop_while f (a ++ b)
  = match drop_while f a with
    | [] => drop_while f b
    | c :: t => (c :: t) ++ b
    end.
Proof.
  induction a as [| x a IH]; simpl.
  - now destruct (drop_while f b).
  - destruct (f x); [exact IH | reflexivity].
Qed.

Lemma js_trim_newline (s : list ascii) :
  js_trim (s ++ [ascii_of_nat 10]) = js_trim s.
Proof.
  unfold js_trim. rewrite drop_while_app.
  destruct (drop_while is_ws s) as [| c t]; [reflexivity |].
  rewrite rev_app_distr. reflexivity.
Qed.

Lemma drop_while_none (f : ascii -> bool) (s : list ascii) :
  head_free f s = true -> drop_while f s = s.
Proof.
  destruct s as [| c t]; [reflexivity |]. simpl.
  intros H. apply negb_true_iff in H. now rewrite H.
Qed.

Lemma writeChecksum_lookup (sum p : list ascii) (ps : list (list ascii)) :
  forall fs : gmap (list ascii) (list ascii),
    In p ps \/ fs !! p = Some (sum ++ [ascii_of_nat 10]) ->
    writeChecksum_to ps sum fs !! p = Some (sum ++ [ascii_of_nat 10]).
Proof.
  induction ps as [| q ps IH]; intros fs H; simpl.
  - destruct H as [[] | H]. exact H.
  - apply IH. destruct (decide (p = q)) as [-> | Hne].
    + right. apply lookup_insert_eq.
    + destruct H as [[E | H] | H]; [congruence | now left |].
      right. now rewrite lookup_insert_ne by congruence.
Qed.

Lemma readChecksum_written (paths : list (list ascii)) (sum : list ascii) :
  paths <> [] ->
  forall fs, readChecksum_from paths (writeChecksum_to paths sum fs)
             = Some (js_trim sum).
Proof.
  intros Hne fs. destruct paths as [| p ps]; [congruence |].
  cbn [readChecksum_from].
  rewrite (writeChecksum_lookup sum p (p :: ps) fs) by (left; now left).
  f_equal. apply js_trim_newline.
Qed.

(** X22.  What [writeChecksum] stores, [readChecksum] reads back, trimmed,
    whatever the files held before.  The test of the main function then
    finds the package unchanged exactly when the checksum is not empty and
    has no white space at either end, as a digest in hexadecimal has. *)
Theorem checksum_round_trip (workDir sum : list ascii)
    (fs : gmap (list ascii) (list ascii)) :
  readChecksum workDir (writeChecksum workDir sum fs) = Some (js_trim sum)
  /\ (unchanged_package
        (readChecksum workDir (writeChecksum workDir sum fs)) sum = true
      <-> sum <> [] /\ js_trim sum = sum)
  /\ (head_free is_ws sum = true -> head_free is_ws (rev sum) = true ->
      js_trim sum = sum).
Proof.
  assert (H : readChecksum workDir (writeChecksum workDir sum fs)
              = Some (js_trim sum)).
  { unfold readChecksum, writeChecksum.
    apply readChecksum_written. discriminate. }
  split; [exact H |]. split.
  - rewrite H. unfold unchanged_package.
    destruct (js_trim sum) as [| c t] eqn:E.
    + split; [discriminate |]. intros [Hn Hs]. congruence.
    + rewrite str_eqb_true. split.
      * intros <-. split; [discriminate | reflexivity].
      * intros [_ Hs]. exact Hs.
  - intros H1 H2. unfold js_trim.
    rewrite (drop_while_none _ _ H1), (drop_while_none _ _ H2).
    apply rev_involutive.
Qed.
